(** * Live-audio streaming hook: PCM codec, playback scheduling, turn
      accumulation and the connection state machine

    A shallow embedding of [src/hooks/useGeminiLive.ts] (with
    [getAiInstance] from [src/services/geminiService.ts] and the
    turn-complete handler of [src/components/Session.tsx]), and the
    properties of the specification proved or refuted against it.

    Conventions of the embedding
    - A finite float sample is the rational number it denotes.  Every
      operation the codec applies to a sample (multiplication by 32768,
      truncation to an integer, division of a 16-bit integer by 32768) is
      exact on IEEE doubles for every finite 32-bit float, so the rationals
      compute the same values as the source.
    - 16-bit integers are [Z] with the wrap-around written out; bytes are
      [Z] in [0, 256).
    - A JavaScript string is the list of its UTF-16 code units.
    - Times on the audio output clock are rationals: the additions of the
      scheduler are exact here, while the source rounds them to doubles.
    - Callbacks supplied by the consumer, the transport and the audio nodes
      are effects appended to a log in the order the source performs them. *)

From Stdlib Require Import ZArith QArith Qabs Qminmax List String Ascii Bool Lia Lqa.
From Stdlib Require Import Permutation Qround Qpower.
Import ListNotations.

Set Implicit Arguments.

(** ** JavaScript strings *)

Module JS.

(** A string is its sequence of UTF-16 code units. *)
Definition jsstring := list N.

Definition lit (s : string) : jsstring :=
  map N_of_ascii (list_ascii_of_string s).

(** [!s] on a string: the empty string is the only falsy one. *)
Definition truthy (s : jsstring) : bool :=
  match s with [] => false | _ :: _ => true end.

Fixpoint startsWith (needle hay : jsstring) : bool :=
  match needle, hay with
  | [], _ => true
  | _ :: _, [] => false
  | a :: needle', b :: hay' => N.eqb a b && startsWith needle' hay'
  end.

(** [hay.includes(needle)] *)
Fixpoint includes (needle hay : jsstring) : bool :=
  startsWith needle hay ||
  match hay with
  | [] => false
  | _ :: hay' => includes needle hay'
  end.

(** WhiteSpace and LineTerminator code units of ECMAScript, the ones
    [String.prototype.trim] strips. *)
Definition isWhiteSpace (c : N) : bool :=
  existsb (N.eqb c)
    [9; 10; 11; 12; 13; 32; 160; 5760; 8232; 8233; 8239; 8287; 12288; 65279]%N
  || (N.leb 8192 c && N.leb c 8202).

Fixpoint trimStart (s : jsstring) : jsstring :=
  match s with
  | c :: s' => if isWhiteSpace c then trimStart s' else s
  | [] => []
  end.

Definition trimEnd (s : jsstring) : jsstring := rev (trimStart (rev s)).

(** [s.trim()] *)
Definition trim (s : jsstring) : jsstring := trimEnd (trimStart s).

End JS.

(** ** PCM codec: [createBlob] and [decodeAudioData] *)

Module Codec.

Local Open Scope Z_scope.

(** ToInt16 of ECMAScript on an integer: reduce modulo 2^16 into
    [-32768, 32767]; this is what a store into an [Int16Array] does. *)
Definition toInt16 (v : Z) : Z :=
  let m := v mod 65536 in
  if 32768 <=? m then m - 65536 else m.

(** Truncation toward zero of a finite number. *)
Definition truncate (q : Q) : Z := Z.quot (Qnum q) (Zpos (Qden q)).

(** [int16[i] = data[i] * 32768] *)
Definition floatToInt16 (sample : Q) : Z :=
  toInt16 (truncate (sample * 32768)%Q).

(** The two bytes of a 16-bit integer in the buffer, low byte first. *)
Definition int16Bytes (v : Z) : list Z :=
  let u := v mod 65536 in [Z.land u 255; Z.shiftr u 8].

(** [new Uint8Array(int16.buffer)] *)
Definition bufferBytes (int16 : list Z) : list Z := flat_map int16Bytes int16.

Record Blob := { data : list Z; mimeType : string }.

(** [createBlob]; the payload is kept as the bytes that the transport
    string encodes. *)
Definition createBlob (samples : list Q) : Blob :=
  let int16 := map floatToInt16 samples in
  {| data := bufferBytes int16; mimeType := "audio/pcm;rate=16000" |}.

(** [floatToPcm16] of the specification is the byte payload of
    [createBlob]. *)
Definition floatToPcm16 (samples : list Q) : list Z := data (createBlob samples).

(** [new Int16Array(data.buffer)]: a view of the bytes as 16-bit signed
    integers.  A buffer of odd length raises a RangeError ([None]). *)
Fixpoint int16View (bytes : list Z) : option (list Z) :=
  match bytes with
  | [] => Some []
  | [_] => None
  | lo :: hi :: rest =>
      match int16View rest with
      | Some l => Some (toInt16 (Z.lor lo (Z.shiftl hi 8)) :: l)
      | None => None
      end
  end.

Record AudioBuffer := {
  numberOfChannels : nat;
  length : nat;
  sampleRate : Z;
  channelData : list (list Q)
}.

(** [buffer.duration] *)
Definition duration (b : AudioBuffer) : Q :=
  (inject_Z (Z.of_nat (length b)) / inject_Z (sampleRate b))%Q.

(** [decodeAudioData].  [ctx.createBuffer] rejects a buffer of no channel or
    of no frame with NotSupportedError; a fractional frame count is
    truncated by the conversion to an unsigned long.  The sample rate is
    taken to be one that the context supports, as 24000 is, the only rate
    that the hook passes: which other rates [createBuffer] accepts depends
    on the browser and is not modelled. *)
Definition decodeAudioData (bytes : list Z) (sampleRate : Z) (numChannels : nat)
  : option AudioBuffer :=
  match int16View bytes with
  | None => None
  | Some dataInt16 =>
      let frameCount := (List.length dataInt16 / numChannels)%nat in
      if (numChannels =? 0)%nat || (frameCount =? 0)%nat then None
      else
        Some {| numberOfChannels := numChannels;
                length := frameCount;
                sampleRate := sampleRate;
                channelData :=
                  map (fun channel =>
                         map (fun i =>
                                (inject_Z (nth (i * numChannels + channel)%nat dataInt16 0%Z)
                                 / 32768)%Q)
                             (seq 0 frameCount))
                      (seq 0 numChannels) |}
  end.

(** [pcm16ToFloat] of the specification, for the mono stream the hook
    decodes: the single channel of [decodeAudioData]. *)
Definition pcm16ToFloat (bytes : list Z) : option (list Q) :=
  match decodeAudioData bytes 24000 1 with
  | Some b => Some (nth 0 (channelData b) [])
  | None => None
  end.

End Codec.

(** ** The hook [useGeminiLive] *)

Module Live.

Import JS Codec.

Inductive ConnectionState := Idle | Connecting | Connected | Error | Disconnected.

Definition ConnectionState_eqb (a b : ConnectionState) : bool :=
  match a, b with
  | Idle, Idle | Connecting, Connecting | Connected, Connected
  | Error, Error | Disconnected, Disconnected => true
  | _, _ => false
  end.

(** Connections returned by [ai.live.connect] and source nodes returned by
    [createBufferSource] are named by the order of their creation. *)
Definition ConnId := nat.
Definition NodeId := nat.

(** The two [let] variables of one [startSession] call,
    [(currentInputTranscription, currentOutputTranscription)]. *)
Definition TurnBuffer := (jsstring * jsstring)%type.

(** A thrown value: an [Error] object with its message, or anything else. *)
Inductive Thrown :=
| ErrorObject (message : jsstring)
| OtherValue.

(** What the hook does to the outside, in order. *)
Inductive Effect :=
| LiveConnect (c : ConnId) (systemInstruction : jsstring)
| SessionClose (c : ConnId)
| SendRealtimeInput (c : ConnId) (media : Blob)
| OnTurnComplete (user assistant : jsstring)
| OnAssistantSpeakingStateChange (isSpeaking : bool)
| OnApiKeyError
| OnLiveTranscript (text : jsstring)
| SourceStart (n : NodeId) (when : Q) (buffer : AudioBuffer)
| SourceStop (n : NodeId)
| ConsoleError (what : jsstring).

(** The arguments of the hook.  [onTurnComplete] and
    [onAssistantSpeakingStateChange] are always supplied; the two optional
    observers are recorded by whether they were supplied. *)
Record Props := {
  language : jsstring;
  systemInstruction : jsstring;
  transcriptionOnly : bool;
  onApiKeyError : bool;
  onLiveTranscript : bool
}.

(** [paramsRef.current]: the props and the connection state of the last
    render. *)
Record Params := {
  props : Props;
  renderedConnectionState : ConnectionState
}.

(** [process] as [getAiInstance] finds it. *)
Inductive ProcessEnv :=
| ProcessUndefined
| EnvUndefined
| EnvDefined (API_KEY : option jsstring).

(** The hook, the module state it uses and its environment.
    - [connectionState] is the React state, as last set by
      [setConnectionState]; [paramsRef] holds the copy of it that the last
      render left in [paramsRef.current].
    - [sessionPromiseRef] is the connection whose promise the hook holds.
    - [outputAudioContext] tells whether the output context exists; [sources]
      is the set of active source nodes in insertion order; [nextStartTime] is
      the scheduling cursor.
    - [transcriptions] holds, for each connection, the two transcription
      variables its callbacks close over.
    - [aiInstance] tells whether geminiService has cached a client.
    - [process] and [connectThrows] describe the environment: what
      [process.env] offers and what a call of [ai.live.connect] throws, if it
      throws.
    - [live] lists the connections that the transport has opened and not yet
      closed; [connCount] and [nodeCount] count the connections and the source
      nodes created so far.
    - [log] records the effects. *)
Record World := {
  connectionState : ConnectionState;
  sessionPromiseRef : option ConnId;
  outputAudioContext : bool;
  sources : list NodeId;
  nextStartTime : Q;
  paramsRef : Params;
  transcriptions : list (ConnId * TurnBuffer);
  aiInstance : bool;
  process : ProcessEnv;
  connectThrows : option Thrown;
  live : list ConnId;
  connCount : nat;
  nodeCount : nat;
  log : list Effect
}.

Definition set_connectionState (v : ConnectionState) (w : World) : World :=
  {| connectionState := v;
     sessionPromiseRef := sessionPromiseRef w;
     outputAudioContext := outputAudioContext w;
     sources := sources w;
     nextStartTime := nextStartTime w;
     paramsRef := paramsRef w;
     transcriptions := transcriptions w;
     aiInstance := aiInstance w;
     process := process w;
     connectThrows := connectThrows w;
     live := live w;
     connCount := connCount w;
     nodeCount := nodeCount w;
     log := log w |}.

Definition set_sessionPromiseRef (v : option ConnId) (w : World) : World :=
  {| connectionState := connectionState w;
     sessionPromiseRef := v;
     outputAudioContext := outputAudioContext w;
     sources := sources w;
     nextStartTime := nextStartTime w;
     paramsRef := paramsRef w;
     transcriptions := transcriptions w;
     aiInstance := aiInstance w;
     process := process w;
     connectThrows := connectThrows w;
     live := live w;
     connCount := connCount w;
     nodeCount := nodeCount w;
     log := log w |}.

Definition set_sources (v : list NodeId) (w : World) : World :=
  {| connectionState := connectionState w;
     sessionPromiseRef := sessionPromiseRef w;
     outputAudioContext := outputAudioContext w;
     sources := v;
     nextStartTime := nextStartTime w;
     paramsRef := paramsRef w;
     transcriptions := transcriptions w;
     aiInstance := aiInstance w;
     process := process w;
     connectThrows := connectThrows w;
     live := live w;
     connCount := connCount w;
     nodeCount := nodeCount w;
     log := log w |}.

Definition set_nextStartTime (v : Q) (w : World) : World :=
  {| connectionState := connectionState w;
     sessionPromiseRef := sessionPromiseRef w;
     outputAudioContext := outputAudioContext w;
     sources := sources w;
     nextStartTime := v;
     paramsRef := paramsRef w;
     transcriptions := transcriptions w;
     aiInstance := aiInstance w;
     process := process w;
     connectThrows := connectThrows w;
     live := live w;
     connCount := connCount w;
     nodeCount := nodeCount w;
     log := log w |}.

Definition set_paramsRef (v : Params) (w : World) : World :=
  {| connectionState := connectionState w;
     sessionPromiseRef := sessionPromiseRef w;
     outputAudioContext := outputAudioContext w;
     sources := sources w;
     nextStartTime := nextStartTime w;
     paramsRef := v;
     transcriptions := transcriptions w;
     aiInstance := aiInstance w;
     process := process w;
     connectThrows := connectThrows w;
     live := live w;
     connCount := connCount w;
     nodeCount := nodeCount w;
     log := log w |}.

Definition set_transcriptions (v : list (ConnId * TurnBuffer)) (w : World) : World :=
  {| connectionState := connectionState w;
     sessionPromiseRef := sessionPromiseRef w;
     outputAudioContext := outputAudioContext w;
     sources := sources w;
     nextStartTime := nextStartTime w;
     paramsRef := paramsRef w;
     transcriptions := v;
     aiInstance := aiInstance w;
     process := process w;
     connectThrows := connectThrows w;
     live := live w;
     connCount := connCount w;
     nodeCount := nodeCount w;
     log := log w |}.

Definition set_aiInstance (v : bool) (w : World) : World :=
  {| connectionState := connectionState w;
     sessionPromiseRef := sessionPromiseRef w;
     outputAudioContext := outputAudioContext w;
     sources := sources w;
     nextStartTime := nextStartTime w;
     paramsRef := paramsRef w;
     transcriptions := transcriptions w;
     aiInstance := v;
     process := process w;
     connectThrows := connectThrows w;
     live := live w;
     connCount := connCount w;
     nodeCount := nodeCount w;
     log := log w |}.

Definition set_live (v : list ConnId) (w : World) : World :=
  {| connectionState := connectionState w;
     sessionPromiseRef := sessionPromiseRef w;
     outputAudioContext := outputAudioContext w;
     sources := sources w;
     nextStartTime := nextStartTime w;
     paramsRef := paramsRef w;
     transcriptions := transcriptions w;
     aiInstance := aiInstance w;
     process := process w;
     connectThrows := connectThrows w;
     live := v;
     connCount := connCount w;
     nodeCount := nodeCount w;
     log := log w |}.

Definition set_connCount (v : nat) (w : World) : World :=
  {| connectionState := connectionState w;
     sessionPromiseRef := sessionPromiseRef w;
     outputAudioContext := outputAudioContext w;
     sources := sources w;
     nextStartTime := nextStartTime w;
     paramsRef := paramsRef w;
     transcriptions := transcriptions w;
     aiInstance := aiInstance w;
     process := process w;
     connectThrows := connectThrows w;
     live := live w;
     connCount := v;
     nodeCount := nodeCount w;
     log := log w |}.

Definition set_nodeCount (v : nat) (w : World) : World :=
  {| connectionState := connectionState w;
     sessionPromiseRef := sessionPromiseRef w;
     outputAudioContext := outputAudioContext w;
     sources := sources w;
     nextStartTime := nextStartTime w;
     paramsRef := paramsRef w;
     transcriptions := transcriptions w;
     aiInstance := aiInstance w;
     process := process w;
     connectThrows := connectThrows w;
     live := live w;
     connCount := connCount w;
     nodeCount := v;
     log := log w |}.

Definition set_log (v : list Effect) (w : World) : World :=
  {| connectionState := connectionState w;
     sessionPromiseRef := sessionPromiseRef w;
     outputAudioContext := outputAudioContext w;
     sources := sources w;
     nextStartTime := nextStartTime w;
     paramsRef := paramsRef w;
     transcriptions := transcriptions w;
     aiInstance := aiInstance w;
     process := process w;
     connectThrows := connectThrows w;
     live := live w;
     connCount := connCount w;
     nodeCount := nodeCount w;
     log := v |}.

(** *** Computations that change the world and may throw *)

Inductive Res (A : Type) :=
| Val (a : A) (w : World)
| Exn (e : Thrown) (w : World).

Arguments Val {A} a w.
Arguments Exn {A} e w.

Definition M (A : Type) := World -> Res A.

Definition ret {A} (a : A) : M A := fun w => Val a w.

Definition bind {A B} (c : M A) (k : A -> M B) : M B :=
  fun w => match c w with
           | Val a w' => k a w'
           | Exn e w' => Exn e w'
           end.

Definition throw {A} (e : Thrown) : M A := fun w => Exn e w.

Definition tryCatch {A} (c : M A) (handler : Thrown -> M A) : M A :=
  fun w => match c w with
           | Val a w' => Val a w'
           | Exn e w' => handler e w'
           end.

Definition gets {A} (f : World -> A) : M A := fun w => Val (f w) w.

Definition modify (f : World -> World) : M unit := fun w => Val tt (f w).

Definition emit (e : Effect) : M unit :=
  modify (fun w => set_log (log w ++ [e]) w).

Definition when (b : bool) (c : M unit) : M unit := if b then c else ret tt.

Fixpoint forEach {A} (l : list A) (body : A -> M unit) : M unit :=
  match l with
  | [] => ret tt
  | x :: l' => bind (body x) (fun _ => forEach l' body)
  end.

Declare Scope js_scope.
Delimit Scope js_scope with js.
Notation "x <- c ;; k" := (bind c (fun x => k))
  (at level 61, c at next level, right associativity) : js_scope.
Notation "c ;; k" := (bind c (fun _ => k))
  (at level 61, right associativity) : js_scope.
Local Open Scope js_scope.

(** The world a computation leaves, whether it returned or threw. *)
Definition worldOf {A} (r : Res A) : World :=
  match r with Val _ w => w | Exn _ w => w end.

(** *** [getAiInstance] of geminiService *)

Definition apiKeyMessage : jsstring :=
  lit "API_KEY environment variable is not set or accessible in this environment.".

(** The cached client is returned if there is one.  Otherwise
    [console.log("api", process.env)] comes first and raises a ReferenceError
    where [process] is not defined; then a missing or empty [API_KEY] makes the
    function throw its own error; else the client is created and cached. *)
Definition getAiInstance : M unit := fun w =>
  if aiInstance w then Val tt w
  else
    match process w with
    | ProcessUndefined => Exn (ErrorObject (lit "process is not defined")) w
    | EnvUndefined => Exn (ErrorObject apiKeyMessage) w
    | EnvDefined None => Exn (ErrorObject apiKeyMessage) w
    | EnvDefined (Some apiKey) =>
        if truthy apiKey then Val tt (set_aiInstance true w)
        else Exn (ErrorObject apiKeyMessage) w
    end.

(** *** Pieces of the hook *)

Definition setConnectionState (v : ConnectionState) : M unit :=
  modify (set_connectionState v).

Definition callOnAssistantSpeakingStateChange (isSpeaking : bool) : M unit :=
  emit (OnAssistantSpeakingStateChange isSpeaking).

(** [onApiKeyError?.()] *)
Definition callOnApiKeyError (p : Params) : M unit :=
  when (onApiKeyError (props p)) (emit OnApiKeyError).

(** [onLiveTranscript?.(text)] *)
Definition callOnLiveTranscript (p : Params) (text : jsstring) : M unit :=
  when (onLiveTranscript (props p)) (emit (OnLiveTranscript text)).

Fixpoint getTurn (c : ConnId) (l : list (ConnId * TurnBuffer)) : TurnBuffer :=
  match l with
  | [] => ([], [])
  | (c', t) :: l' => if Nat.eqb c c' then t else getTurn c l'
  end.

Definition currentInputTranscription (c : ConnId) (w : World) : jsstring :=
  fst (getTurn c (transcriptions w)).

Definition currentOutputTranscription (c : ConnId) (w : World) : jsstring :=
  snd (getTurn c (transcriptions w)).

Definition setTurn (c : ConnId) (t : TurnBuffer) : M unit :=
  modify (fun w => set_transcriptions ((c, t) :: transcriptions w) w).

Definition silentInstruction : jsstring :=
  lit "You are a silent transcription assistant. Your only role is to listen to the user and transcribe their speech. Do not generate any spoken response.".

(** [ai.live.connect({...})]: unless the call throws, a new connection is
    pending; its callbacks close over fresh, empty transcription
    variables. *)
Definition liveConnect (instruction : jsstring) : M ConnId := fun w =>
  match connectThrows w with
  | Some e => Exn e w
  | None =>
      let c := connCount w in
      Val c (set_log (log w ++ [LiveConnect c instruction])
               (set_transcriptions ((c, ([], [])) :: transcriptions w)
                  (set_connCount (S c) (set_live (live w ++ [c]) w))))
  end.

Definition includesApiKey (e : Thrown) : bool :=
  match e with
  | ErrorObject message => includes (lit "API_KEY") message
  | OtherValue => false
  end.

(** [config.systemInstruction], from the props of the last render. *)
Definition instructionOf (p : Params) : jsstring :=
  if transcriptionOnly (props p) then silentInstruction
  else systemInstruction (props p).

(** The body of the [try] block of [startSession]. *)
Definition openConnection : M unit :=
  getAiInstance ;;
  p <- gets paramsRef ;;
  c <- liveConnect (instructionOf p) ;;
  modify (set_sessionPromiseRef (Some c)).

Definition startSession : M unit :=
  ref <- gets sessionPromiseRef ;;
  match ref with
  | Some _ => ret tt
  | None =>
      setConnectionState Connecting ;;
      tryCatch openConnection
        (fun error =>
           emit (ConsoleError (lit "Failed to initialize Gemini Live session:")) ;;
           setConnectionState Error ;;
           when (includesApiKey error)
             (p <- gets paramsRef ;; callOnApiKeyError p))
  end.

Definition stopSource (n : NodeId) : M unit := emit (SourceStop n).

Definition stopSession : M unit :=
  ref <- gets sessionPromiseRef ;;
  match ref with
  | Some c => emit (SessionClose c)
  | None => ret tt
  end ;;
  srcs <- gets sources ;;
  forEach srcs stopSource ;;
  modify (set_sources []) ;;
  modify (set_nextStartTime 0) ;;
  callOnAssistantSpeakingStateChange false ;;
  setConnectionState Idle.

Definition sendAudioData (audioData : list Q) : M unit :=
  p <- gets paramsRef ;;
  if negb (ConnectionState_eqb (renderedConnectionState p) Connected) then ret tt
  else
    let pcmBlob := createBlob audioData in
    ref <- gets sessionPromiseRef ;;
    match ref with
    | Some c => emit (SendRealtimeInput c pcmBlob)
    | None => ret tt
    end.

(** *** Callbacks of a connection *)

(** The part of a [LiveServerMessage] the hook reads:
    [serverContent?.outputTranscription], [?.inputTranscription] (with
    their text), [?.turnComplete], the bytes that
    [modelTurn?.parts[0]?.inlineData?.data] encodes, and [?.interrupted]. *)
Record LiveServerMessage := {
  outputTranscription : option jsstring;
  inputTranscription : option jsstring;
  turnComplete : bool;
  inlineData : option (list Z);
  interrupted : bool
}.

(** [Math.max] on two finite numbers. *)
Definition Math_max (a b : Q) : Q := if Qle_bool a b then b else a.

Definition onopen : M unit := setConnectionState Connected.

Definition removeSource (n : NodeId) (l : list NodeId) : list NodeId :=
  filter (fun n' => negb (Nat.eqb n n')) l.

(** The listener of a source node for its [ended] event. *)
Definition onended (n : NodeId) : M unit :=
  modify (fun w => set_sources (removeSource n (sources w)) w) ;;
  srcs <- gets sources ;;
  when (Nat.eqb (List.length srcs) 0) (callOnAssistantSpeakingStateChange false).

(** The audio branch of [onmessage], entered when [base64Audio] is a
    non-empty string and the output context exists. *)
Definition playFragment (bytes : list Z) (currentTime : Q) : M unit :=
  callOnAssistantSpeakingStateChange true ;;
  modify (fun w => set_nextStartTime (Math_max (nextStartTime w) currentTime) w) ;;
  match decodeAudioData bytes 24000 1 with
  | None => throw (ErrorObject (lit "decodeAudioData"))
  | Some audioBuffer =>
      n <- gets nodeCount ;;
      modify (set_nodeCount (S n)) ;;
      startAt <- gets nextStartTime ;;
      emit (SourceStart n startAt audioBuffer) ;;
      modify (fun w => set_nextStartTime (nextStartTime w + duration audioBuffer) w) ;;
      modify (fun w => set_sources (sources w ++ [n]) w)
  end.

(** [onmessage], first part: the transcription fragment of the message. *)
Definition handleTranscription (c : ConnId) (message : LiveServerMessage) (p : Params)
  : M unit :=
  match outputTranscription message, inputTranscription message with
  | Some text, _ =>
      out <- gets (currentOutputTranscription c) ;;
      inp <- gets (currentInputTranscription c) ;;
      setTurn c (inp, out ++ text)
  | None, Some text =>
      out <- gets (currentOutputTranscription c) ;;
      inp <- gets (currentInputTranscription c) ;;
      setTurn c (inp ++ text, out) ;;
      callOnLiveTranscript p text
  | None, None => ret tt
  end.

(** [onmessage], second part: the turn-complete signal. *)
Definition handleTurnComplete (c : ConnId) (message : LiveServerMessage) : M unit :=
  when (turnComplete message)
    (inp <- gets (currentInputTranscription c) ;;
     out <- gets (currentOutputTranscription c) ;;
     emit (OnTurnComplete (trim inp) (trim out)) ;;
     setTurn c ([], [])).

(** [onmessage], third part: audio playback. *)
Definition handleAudio (message : LiveServerMessage) (p : Params) (currentTime : Q)
  : M unit :=
  when (negb (transcriptionOnly (props p)))
    (outputCtx <- gets outputAudioContext ;;
     match inlineData message with
     | Some (b :: bytes) => when outputCtx (playFragment (b :: bytes) currentTime)
     | _ => ret tt
     end).

(** [onmessage], last part: an interruption from the user. *)
Definition handleInterrupted (message : LiveServerMessage) (p : Params) : M unit :=
  when (interrupted message && negb (transcriptionOnly (props p)))
    (srcs <- gets sources ;;
     forEach srcs
       (fun n => stopSource n ;;
                 modify (fun w => set_sources (removeSource n (sources w)) w)) ;;
     modify (set_nextStartTime 0) ;;
     callOnAssistantSpeakingStateChange false).

Definition onmessage (c : ConnId) (message : LiveServerMessage) (currentTime : Q)
  : M unit :=
  p <- gets paramsRef ;;
  handleTranscription c message p ;;
  handleTurnComplete c message ;;
  handleAudio message p currentTime ;;
  handleInterrupted message p.

Definition notFoundMarker : jsstring := lit "Requested entity was not found.".

(** [onerror]; [onLine] is [navigator.onLine] at that moment. *)
Definition onerror (message : jsstring) (onLine : bool) : M unit :=
  emit (ConsoleError (lit "Live session error:")) ;;
  p <- gets paramsRef ;;
  when (truthy message && includes notFoundMarker message) (callOnApiKeyError p) ;;
  when (negb onLine)
    (emit (ConsoleError (lit "Network error may be due to the user being offline."))) ;;
  setConnectionState Error.

Definition onclose : M unit :=
  modify (set_sessionPromiseRef None) ;;
  setConnectionState Disconnected.

(** *** The component over time *)

(** The effect that runs after every render: [paramsRef.current] receives
    the props and the connection state of that render. *)
Definition render (p : Props) : M unit :=
  modify (fun w => set_paramsRef
                     {| props := p; renderedConnectionState := connectionState w |} w).

(** The world after the first render of the hook; the output context is
    created unless the hook is in transcription-only mode. *)
Definition mount (p : Props) (cached : bool) (env : ProcessEnv)
    (failure : option Thrown) : World :=
  {| connectionState := Idle;
     sessionPromiseRef := None;
     outputAudioContext := negb (transcriptionOnly p);
     sources := [];
     nextStartTime := 0;
     paramsRef := {| props := p; renderedConnectionState := Idle |};
     transcriptions := [];
     aiInstance := cached;
     process := env;
     connectThrows := failure;
     live := [];
     connCount := 0;
     nodeCount := 0;
     log := [] |}.

(** What can happen to a mounted hook: the consumer calls one of its
    functions or renders it again, the transport invokes a callback of a
    connection, a source node finishes. *)
Inductive Event :=
| CallStartSession
| CallStopSession
| CallSendAudioData (audioData : list Q)
| Rerender (p : Props)
| TransportOpen (c : ConnId)
| TransportMessage (c : ConnId) (message : LiveServerMessage) (currentTime : Q)
| TransportError (c : ConnId) (message : jsstring) (onLine : bool)
| TransportClose (c : ConnId)
| SourceEnded (n : NodeId).

Definition isLive (c : ConnId) (w : World) : bool := existsb (Nat.eqb c) (live w).

(** The transport invokes callbacks only for a connection that was opened
    and has not been closed; [onclose] is the last callback of a
    connection. *)
Definition enabled (ev : Event) (w : World) : bool :=
  match ev with
  | TransportOpen c | TransportMessage c _ _ | TransportError c _ _
  | TransportClose c => isLive c w
  | _ => true
  end.

Definition handle (ev : Event) : M unit :=
  match ev with
  | CallStartSession => startSession
  | CallStopSession => stopSession
  | CallSendAudioData audioData => sendAudioData audioData
  | Rerender p => render p
  | TransportOpen _ => onopen
  | TransportMessage c message currentTime => onmessage c message currentTime
  | TransportError _ message onLine => onerror message onLine
  | TransportClose c =>
      modify (fun w => set_live (filter (fun c' => negb (Nat.eqb c c')) (live w)) w) ;;
      onclose
  | SourceEnded n => onended n
  end.

Definition step (ev : Event) (w : World) : option World :=
  if enabled ev w then Some (worldOf (handle ev w)) else None.

Fixpoint run (evs : list Event) (w : World) : option World :=
  match evs with
  | [] => Some w
  | ev :: evs' =>
      match step ev w with
      | Some w' => run evs' w'
      | None => None
      end
  end.

(** The worlds a mounted hook can be in. *)
Inductive reachable : World -> Prop :=
| reachable_mount p cached env failure : reachable (mount p cached env failure)
| reachable_step w ev w' : reachable w -> step ev w = Some w' -> reachable w'.

(** The connections opened so far, read off the log. *)
Definition opened (l : list Effect) : list ConnId :=
  flat_map (fun e => match e with LiveConnect c _ => [c] | _ => [] end) l.

(** The buffers scheduled so far: start time and duration of each. *)
Definition scheduled (l : list Effect) : list (Q * Q) :=
  flat_map (fun e => match e with
                     | SourceStart _ t b => [(t, duration b)]
                     | _ => []
                     end) l.

(** The turns handed to [onTurnComplete] so far. *)
Definition turns (l : list Effect) : list (jsstring * jsstring) :=
  flat_map (fun e => match e with OnTurnComplete u a => [(u, a)] | _ => [] end) l.

(** *** Messages and worlds used in the examples *)

Definition emptyMessage : LiveServerMessage :=
  {| outputTranscription := None; inputTranscription := None;
     turnComplete := false; inlineData := None; interrupted := false |}.

Definition inputFragment (text : jsstring) : LiveServerMessage :=
  {| outputTranscription := None; inputTranscription := Some text;
     turnComplete := false; inlineData := None; interrupted := false |}.

Definition outputFragment (text : jsstring) : LiveServerMessage :=
  {| outputTranscription := Some text; inputTranscription := None;
     turnComplete := false; inlineData := None; interrupted := false |}.

Definition bothFragments (input output : jsstring) : LiveServerMessage :=
  {| outputTranscription := Some output; inputTranscription := Some input;
     turnComplete := false; inlineData := None; interrupted := false |}.

Definition turnCompleteSignal : LiveServerMessage :=
  {| outputTranscription := None; inputTranscription := None;
     turnComplete := true; inlineData := None; interrupted := false |}.

Definition audioFragment (bytes : list Z) : LiveServerMessage :=
  {| outputTranscription := None; inputTranscription := None;
     turnComplete := false; inlineData := Some bytes; interrupted := false |}.

(** A conversation screen that supplies both optional observers. *)
Definition exampleProps : Props :=
  {| language := lit "en";
     systemInstruction := lit "You are Lidia.";
     transcriptionOnly := false;
     onApiKeyError := true;
     onLiveTranscript := true |}.

(** The hook just mounted, with an API key configured. *)
Definition freshWorld : World :=
  mount exampleProps false (EnvDefined (Some (lit "key"))) None.

(** The hook just mounted, with no API key configured. *)
Definition keylessWorld : World :=
  mount exampleProps false (EnvDefined None) None.

(** Whether [getAiInstance] has a client to return. *)
Definition clientAvailable (w : World) : bool :=
  aiInstance w ||
  match process w with
  | EnvDefined (Some apiKey) => truthy apiKey
  | _ => false
  end.

(** No API key is configured and no client was created before: [getAiInstance]
    throws its own error. *)
Definition apiKeyUnset (w : World) : bool :=
  negb (aiInstance w) &&
  match process w with
  | ProcessUndefined => false
  | EnvUndefined => true
  | EnvDefined None => true
  | EnvDefined (Some apiKey) => negb (truthy apiKey)
  end.

(** The hook after [startSession] and a render, the connection still
    pending. *)
Definition connectingWorld : World :=
  worldOf (render exampleProps (worldOf (startSession freshWorld))).

(** The hook with its connection open and rendered as such. *)
Definition connectedWorld : World :=
  worldOf (render exampleProps (worldOf (onopen connectingWorld))).

(** The hook stopped while connected, the close of its connection still
    pending. *)
Definition stoppedWorld : World :=
  worldOf (stopSession (worldOf (onopen (worldOf (startSession freshWorld))))).

(** *** Observations used in the proofs *)

(** [keeps f c]: whether [c] returns or throws, the observation [f] of the
    world is the same after it as before. *)
Definition keeps {A B} (f : World -> B) (c : M A) : Prop :=
  forall w, f (worldOf (c w)) = f w.

(** The connection as the state machine sees it. *)
Definition connectionOf (w : World) : ConnectionState * option ConnId * list ConnId :=
  (connectionState w, sessionPromiseRef w, live w).

(** At most one connection is open or pending, and the hook holds it. *)
Definition oneConnection (w : World) : Prop :=
  live w = [] \/ exists c, live w = [c] /\ sessionPromiseRef w = Some c.

(** A connection state that shows a connection implies that the hook holds
    one. *)
Definition stateHasConnection (w : World) : Prop :=
  connectionState w = Connecting \/ connectionState w = Connected ->
  sessionPromiseRef w <> None.

(** An idle hook that holds no connection plays nothing. *)
Definition idleIsQuiet (w : World) : Prop :=
  connectionState w = Idle -> sessionPromiseRef w = None ->
  sources w = [] /\ nextStartTime w = 0.

(** What holds of every world of a mounted hook. *)
Definition invariant (w : World) : Prop :=
  oneConnection w /\ stateHasConnection w /\ idleIsQuiet w.

(** The request to close the connection that [stopSession] makes, if the hook
    holds one. *)
Definition closeRequest (w : World) : list Effect :=
  match sessionPromiseRef w with
  | Some c => [SessionClose c]
  | None => []
  end.

End Live.

(** ** Times as the doubles they are *)

Module Doubles.

Import Live.
Local Open Scope Q_scope.

(** The Number type of the source is IEEE 754 binary64.  A finite double is
    a rational number, and the result of an arithmetic operation on doubles
    is the exact result rounded to the nearest double, to the one with an
    even significand when two are as near.  A double has a significand of 53
    bits, so that the doubles around [x] are [ulp x] apart; below 2^-1022
    their distance stays 2^-1074.  A result of magnitude 2^1024 or more is an
    infinity, which is not modelled: see [normal]. *)

(** The [e] with [2^e <= |x| < 2^(e+1)], for [x] other than zero. *)
Definition exponent (x : Q) : Z :=
  let k := (Z.log2 (Z.abs (Qnum x)) - Z.log2 (Z.pos (Qden x)))%Z in
  if Qle_bool (2 ^ k) (Qabs x) then k else (k - 1)%Z.

Definition ulp (x : Q) : Q := 2 ^ (Z.max (exponent x) (-1022) - 52).

(** The integer nearest to [y], the even one of two that are as near. *)
Definition roundHalfEven (y : Q) : Z :=
  let f := Qfloor y in
  match Qcompare (y - inject_Z f) (1 # 2) with
  | Lt => f
  | Gt => (f + 1)%Z
  | Eq => if Z.even f then f else (f + 1)%Z
  end.

(** The double nearest to [x]. *)
Definition round (x : Q) : Q :=
  if Qeq_bool x 0 then 0 else Qred (inject_Z (roundHalfEven (x / ulp x)) * ulp x).

(** [a + b] and [a / b] on doubles. *)
Definition add (a b : Q) : Q := round (a + b).

Definition div (a b : Q) : Q := round (a / b).

(** The magnitudes of the normal doubles, for which [round] is what the
    machine does with a relative error of at most 2^-53. *)
Definition normal (x : Q) : Prop := 2 ^ (-1022) <= Qabs x /\ Qabs x <= 2 ^ 1023.

(** Machine epsilon: the distance from 1 to the next double. *)
Definition epsilon : Q := 2 ^ (-52).

(** [audioBuffer.duration] of a buffer of [length] frames: the number of
    frames divided by the sample rate. *)
Definition duration (length sampleRate : Z) : Q :=
  div (inject_Z length) (inject_Z sampleRate).

(** What the audio branch of [onmessage] does with the cursor:
    [nextStartTime = Math.max(nextStartTime, currentTime)], then
    [sourceNode.start(nextStartTime)] and
    [nextStartTime += audioBuffer.duration].  The result is the time given to
    [start] and the cursor afterwards.  [Math.max] rounds nothing. *)
Definition playFragment (nextStartTime currentTime audioBufferDuration : Q) : Q * Q :=
  let nextStartTime := Math_max nextStartTime currentTime in
  (nextStartTime, add nextStartTime audioBufferDuration).

(** Fragments handled one after the other, each with the clock reading at
    which it is handled and the duration of its buffer; the result lists the
    start time and the duration of each. *)
Fixpoint playAll (nextStartTime : Q) (arrivals : list (Q * Q)) : list (Q * Q) :=
  match arrivals with
  | [] => []
  | (currentTime, d) :: rest =>
      (fst (playFragment nextStartTime currentTime d), d)
      :: playAll (snd (playFragment nextStartTime currentTime d)) rest
  end.

End Doubles.

(** ** The turn-complete handler of the session screen *)

Module Session.

Import JS.

Inductive Role := user | assistant.

Record Message := { role : Role; content : jsstring }.

Record State := { messages : list Message; currentUserUtterance : jsstring }.

(** [handleTurnComplete] of [Session.tsx]. *)
Definition handleTurnComplete (userText assistantText : jsstring) (s : State) : State :=
  if negb (truthy userText) && negb (truthy assistantText) then s
  else
    let newMessages :=
      (if truthy userText then [{| role := user; content := userText |}] else [])
      ++ (if truthy assistantText
          then [{| role := assistant; content := assistantText |}] else []) in
    {| messages := messages s ++ newMessages; currentUserUtterance := [] |}.

End Session.



(** ** The transport string: [encode] and [decode] *)

Module Base64.

Import JS.
Local Open Scope Z_scope.

(** The character of a 6-bit value in the base64 alphabet. *)
Definition sextetChar (v : Z) : N :=
  Z.to_N (if v <? 26 then 65 + v
          else if v <? 52 then 97 + (v - 26)
          else if v <? 62 then 48 + (v - 52)
          else if v =? 62 then 43
          else 47).

(** The 6-bit value of a character of the alphabet. *)
Definition charSextet (c : N) : option Z :=
  let z := Z.of_N c in
  if (65 <=? z) && (z <=? 90) then Some (z - 65)
  else if (97 <=? z) && (z <=? 122) then Some (z - 97 + 26)
  else if (48 <=? z) && (z <=? 57) then Some (z - 48 + 52)
  else if z =? 43 then Some 62
  else if z =? 47 then Some 63
  else None.

(** The 6-bit values of a sequence of bytes, three bytes giving four values;
    one or two bytes left over give two or three values, the last one filled
    with zero bits. *)
Fixpoint sextets (bytes : list Z) : list Z :=
  match bytes with
  | a :: b :: c :: rest =>
      (a / 4) :: ((a mod 4) * 16 + b / 16) :: ((b mod 16) * 4 + c / 64)
      :: (c mod 64) :: sextets rest
  | [a; b] => [a / 4; (a mod 4) * 16 + b / 16; (b mod 16) * 4]
  | [a] => [a / 4; (a mod 4) * 16]
  | [] => []
  end.

(** The padding that completes the last group of four characters. *)
Definition padding (n : nat) : jsstring :=
  match (n mod 3)%nat with
  | 1%nat => [61; 61]%N
  | 2%nat => [61]%N
  | _ => []
  end.

(** [btoa]: a string with a code unit above 255 raises InvalidCharacterError
    ([None]); otherwise the code units are taken as bytes and encoded, with
    padding and without line breaks. *)
Definition btoa (binary : jsstring) : option jsstring :=
  if forallb (fun c => N.leb c 255) binary
  then Some (map sextetChar (sextets (map Z.of_N binary))
             ++ padding (List.length binary))
  else None.

(** TAB, LF, FF, CR and SPACE. *)
Definition isAsciiWhitespace (c : N) : bool :=
  existsb (N.eqb c) [9; 10; 12; 13; 32]%N.

(** Up to two trailing [=] are removed from a string whose length is a
    multiple of four. *)
Definition stripPadding (s : jsstring) : jsstring :=
  if (List.length s mod 4 =? 0)%nat then
    match rev s with
    | c1 :: r1 =>
        if N.eqb c1 61 then
          match r1 with
          | c2 :: r2 => if N.eqb c2 61 then rev r2 else rev r1
          | [] => rev r1
          end
        else s
    | [] => s
    end
  else s.

Fixpoint allSextets (s : jsstring) : option (list Z) :=
  match s with
  | [] => Some []
  | c :: s' =>
      match charSextet c, allSextets s' with
      | Some v, Some vs => Some (v :: vs)
      | _, _ => None
      end
  end.

(** The bytes of a sequence of 6-bit values: four values give three bytes;
    of three values left over the last two bits are dropped, of two the last
    four. *)
Fixpoint sextetBytes (vs : list Z) : list Z :=
  match vs with
  | s1 :: s2 :: s3 :: s4 :: rest =>
      (s1 * 4 + s2 / 16) :: ((s2 mod 16) * 16 + s3 / 4) :: ((s3 mod 4) * 64 + s4)
      :: sextetBytes rest
  | [s1; s2; s3] => [s1 * 4 + s2 / 16; (s2 mod 16) * 16 + s3 / 4]
  | [s1; s2] => [s1 * 4 + s2 / 16]
  | _ => []
  end.

(** [atob], the forgiving decoding of the platform: white space is removed,
    then the padding; a length of 1 modulo 4 or a character outside the
    alphabet raises InvalidCharacterError ([None]). *)
Definition atob (data : jsstring) : option jsstring :=
  let stripped := stripPadding (filter (fun c => negb (isAsciiWhitespace c)) data) in
  if (List.length stripped mod 4 =? 1)%nat then None
  else
    match allSextets stripped with
    | Some vs => Some (map Z.to_N (sextetBytes vs))
    | None => None
    end.

(** [encode]: [String.fromCharCode] of each element of the [Uint8Array], then
    [btoa]. *)
Definition encode (bytes : list Z) : option jsstring :=
  btoa (map Z.to_N bytes).

(** [decode]: [atob], then [charCodeAt] of each character into a
    [Uint8Array]. *)
Definition decode (base64 : jsstring) : option (list Z) :=
  match atob base64 with
  | Some binaryString => Some (map (fun c => Z.of_N c mod 256) binaryString)
  | None => None
  end.

(** The contents of a [Uint8Array]. *)
Definition isByte (b : Z) : Prop := 0 <= b < 256.

End Base64.

(** ** [playAudioData] of the hook *)

Module Playback.

Import JS Codec Live Base64.
Local Open Scope js_scope.

(** What becomes of the promise that [playAudioData] returns: it is resolved
    at once, it is resolved by the [ended] event of the source node, or
    nothing ever settles it (an exception inside the asynchronous executor of
    [new Promise] is lost, and [resolve] is never called). *)
Inductive PlayPromise :=
| ResolvedAtOnce
| ResolvedOnEnded (n : NodeId)
| NeverSettled.

(** [playAudioData].  [sourceNode.start()] is a start at time 0, that is, at
    once. *)
Definition playAudioData (base64Audio : jsstring) : M PlayPromise :=
  outputCtx <- gets outputAudioContext ;;
  if negb (truthy base64Audio) || negb outputCtx then ret ResolvedAtOnce
  else
    callOnAssistantSpeakingStateChange true ;;
    match decode base64Audio with
    | None => ret NeverSettled
    | Some bytes =>
        match decodeAudioData bytes 24000 1 with
        | None => ret NeverSettled
        | Some audioBuffer =>
            n <- gets nodeCount ;;
            modify (set_nodeCount (S n)) ;;
            emit (SourceStart n 0 audioBuffer) ;;
            ret (ResolvedOnEnded n)
        end
    end.

End Playback.

(** ** Service functions of geminiService *)

Module Service.

Import JS Live.
Local Open Scope js_scope.

(** What a request to the model does: it throws, or it answers with the text
    (or the inline audio data) of the response, which may be missing.  The
    request itself is not modelled. *)
Inductive Outcome :=
| Throws (e : Thrown)
| Responds (payload : option jsstring).

Fixpoint jsstring_eqb (a b : jsstring) : bool :=
  match a, b with
  | [], [] => true
  | x :: a', y :: b' => N.eqb x y && jsstring_eqb a' b'
  | _, _ => false
  end.

Definition offlineMessage : jsstring :=
  lit "You appear to be offline. Please check your internet connection and try again.".

Definition apiKeyUserMessage : jsstring :=
  lit "The API key is missing or invalid. Please ensure it is configured correctly in your deployment environment and then redeploy the application.".

Definition defaultMessage : jsstring :=
  lit "An unexpected error occurred with the AI service. Please try again.".

(** The cases of the [switch] over the context. *)
Definition contextMessages : list (jsstring * jsstring) :=
  [ (lit "generateCoachingPlan",
     lit "We couldn't create your personalized plan right now. Please check your internet connection and try again.");
    (lit "generateSessionFeedback",
     lit "We couldn't generate feedback for your session. Please check your connection and try again.");
    (lit "getLidiaResponse",
     lit "Failed to get a response from the AI. Please check your connection.");
    (lit "textToSpeech",
     lit "Failed to generate audio for the AI's response. Please check your connection.");
    (lit "generateDrillFeedback",
     lit "We couldn't generate feedback for this drill. Please try again in a moment.");
    (lit "structureText",
     lit "There was a problem structuring your text. Please check your connection and try again.");
    (lit "generateDynamicDrill",
     lit "We couldn't create a personalized drill for you. Please try again.");
    (lit "findSupportingStat",
     lit "Could not find a supporting statistic at this time. Please check your connection.") ].

Fixpoint switchContext (context : jsstring) (cases : list (jsstring * jsstring))
  : jsstring :=
  match cases with
  | [] => defaultMessage
  | (name, userMessage) :: cases' =>
      if jsstring_eqb context name then userMessage else switchContext context cases'
  end.

(** [handleGeminiError]; [onLine] is [navigator.onLine] when it runs.  It
    never returns. *)
Definition handleGeminiError {A} (error : Thrown) (context : jsstring) (onLine : bool)
  : M A :=
  emit (ConsoleError (lit "Error in " ++ context ++ lit ":")) ;;
  if negb onLine then throw (ErrorObject offlineMessage)
  else if includesApiKey error then throw (ErrorObject apiKeyUserMessage)
  else throw (ErrorObject (switchContext context contextMessages)).

(** [textToSpeech]: the answer is the inline audio data of the first part of
    the first candidate. *)
Definition textToSpeech (outcome : Outcome) (onLine : bool) : M jsstring :=
  tryCatch
    (getAiInstance ;;
     match outcome with
     | Throws e => throw e
     | Responds (Some (c :: base64Audio)) => ret (c :: base64Audio)
     | Responds _ => throw (ErrorObject (lit "No audio data received from TTS API."))
     end)
    (fun error => handleGeminiError error (lit "textToSpeech") onLine).

(** [generateGhostModePrompt]: the answer is the text of the response. *)
Definition generateGhostModePrompt (outcome : Outcome) : M jsstring :=
  tryCatch
    (getAiInstance ;;
     match outcome with
     | Throws e => throw e
     | Responds (Some (c :: text)) => ret (trim (c :: text))
     | Responds _ => ret []
     end)
    (fun error =>
       emit (ConsoleError (lit "Error generating Ghost Mode prompt:")) ;;
       ret []).

(** The world with another [process.env]. *)
Definition withProcess (env : ProcessEnv) (w : World) : World :=
  {| connectionState := connectionState w;
     sessionPromiseRef := sessionPromiseRef w;
     outputAudioContext := outputAudioContext w;
     sources := sources w;
     nextStartTime := nextStartTime w;
     paramsRef := paramsRef w;
     transcriptions := transcriptions w;
     aiInstance := aiInstance w;
     process := env;
     connectThrows := connectThrows w;
     live := live w;
     connCount := connCount w;
     nodeCount := nodeCount w;
     log := log w |}.

End Service.

(** ** The screens that use the hook *)

Module Screens.

Import JS Live.

(** The session screen: its transcript state and the speaking flag that it
    gives the hook as [onAssistantSpeakingStateChange]. *)
Record SessionScreen := {
  session : Session.State;
  isAssistantSpeaking : bool
}.

(** [handleLiveTranscript] of [Session.tsx]. *)
Definition handleLiveTranscript (text : jsstring) (s : Session.State) : Session.State :=
  {| Session.messages := Session.messages s;
     Session.currentUserUtterance := Session.currentUserUtterance s ++ text |}.

(** The observers that [Session.tsx] passes to the hook: [handleTurnComplete],
    [setIsAssistantSpeaking], no [onApiKeyError], [handleLiveTranscript]. *)
Definition sessionObserves (e : Effect) (s : SessionScreen) : SessionScreen :=
  match e with
  | OnTurnComplete u a =>
      {| session := Session.handleTurnComplete u a (session s);
         isAssistantSpeaking := isAssistantSpeaking s |}
  | OnLiveTranscript text =>
      {| session := handleLiveTranscript text (session s);
         isAssistantSpeaking := isAssistantSpeaking s |}
  | OnAssistantSpeakingStateChange b =>
      {| session := session s; isAssistantSpeaking := b |}
  | _ => s
  end.

(** The screen after the observers have seen a sequence of effects. *)
Definition sessionAfter (l : list Effect) (s : SessionScreen) : SessionScreen :=
  fold_left (fun s e => sessionObserves e s) l s.

(** [handleTurnComplete] of [DrillSession.tsx], on [finalTranscriptRef]. *)
Definition drillHandleTurnComplete (userText assistantText : jsstring)
    (finalTranscript : jsstring) : jsstring :=
  if truthy userText then finalTranscript ++ (userText ++ lit " ")
  else finalTranscript.

(** The transcript that [handleStop] of [DrillSession.tsx] reads. *)
Definition drillTranscript (finalTranscript : jsstring) : jsstring :=
  trim finalTranscript.

(** [handleStart] of [DrillSession.tsx], on [finalTranscriptRef]: when the
    media stream is there, an attempt starts from an empty transcript. *)
Definition drillHandleStart (mediaStream : bool) (finalTranscript : jsstring)
  : jsstring :=
  if mediaStream then [] else finalTranscript.

(** What happens to the transcript of the drill screen: the user starts an
    attempt (the first, or another with "Try again"), or the hook calls one
    of the observers that the screen gave it. *)
Inductive DrillEvent :=
| DrillStart (mediaStream : bool)
| DrillObserves (e : Effect).

Definition drillStep (finalTranscript : jsstring) (ev : DrillEvent) : jsstring :=
  match ev with
  | DrillStart mediaStream => drillHandleStart mediaStream finalTranscript
  | DrillObserves (OnTurnComplete u a) => drillHandleTurnComplete u a finalTranscript
  | DrillObserves _ => finalTranscript
  end.

(** [finalTranscriptRef.current] after a sequence of such events. *)
Definition drillAfter (evs : list DrillEvent) (finalTranscript : jsstring) : jsstring :=
  fold_left drillStep evs finalTranscript.

End Screens.

(** ** Notions used in the further properties *)

Module Notions.

Import JS Codec Live.

(** A string that does not begin with white space. *)
Definition noLeadingWhiteSpace (s : jsstring) : Prop :=
  match s with
  | c :: _ => isWhiteSpace c = false
  | [] => True
  end.

(** A string that does not end with white space. *)
Definition noTrailingWhiteSpace (s : jsstring) : Prop :=
  noLeadingWhiteSpace (rev s).

Definition trimmed (s : jsstring) : Prop :=
  noLeadingWhiteSpace s /\ noTrailingWhiteSpace s.

(** [emitsOnly P c]: whatever [c] adds to the log satisfies [P], and [c]
    removes nothing from the log. *)
Definition emitsOnly (P : Effect -> Prop) {A} (c : M A) : Prop :=
  forall w, exists l, log (worldOf (c w)) = log w ++ l /\ Forall P l.

(** A turn whose two strings are trimmed; any other effect. *)
Definition turnIsTrimmed (e : Effect) : Prop :=
  match e with
  | OnTurnComplete u a => trimmed u /\ trimmed a
  | _ => True
  end.

(** No source is active twice, and the active sources were created
    earlier. *)
Definition identifiersFresh (w : World) : Prop :=
  NoDup (sources w) /\
  (forall n, In n (sources w) -> (n < nodeCount w)%nat).

(** A computation that keeps an invariant, whether it returns or throws. *)
Definition preserves (I : World -> Prop) {A} (c : M A) : Prop :=
  forall w, I w -> I (worldOf (c w)).

(** A fragment of transcription, of the user or of the assistant. *)
Inductive Fragment :=
| UserFragment (text : jsstring)
| AssistantFragment (text : jsstring).

Definition fragmentMessage (f : Fragment) : LiveServerMessage :=
  match f with
  | UserFragment text => inputFragment text
  | AssistantFragment text => outputFragment text
  end.

Definition userText (fs : list Fragment) : jsstring :=
  flat_map (fun f => match f with UserFragment t => t | _ => [] end) fs.

Definition assistantText (fs : list Fragment) : jsstring :=
  flat_map (fun f => match f with AssistantFragment t => t | _ => [] end) fs.

(** A message that only tells that the user interrupted. *)
Definition interruptedSignal : LiveServerMessage :=
  {| outputTranscription := None; inputTranscription := None;
     turnComplete := false; inlineData := None; interrupted := true |}.

(** A message that carries audio and also tells that the user
    interrupted. *)
Definition interruptedAudio (bytes : list Z) : LiveServerMessage :=
  {| outputTranscription := None; inputTranscription := None;
     turnComplete := false; inlineData := Some bytes; interrupted := true |}.

(** The hook plays the audio it receives: it was mounted with an output
    context and its props do not ask for transcription only. *)
Definition playsAudio (w : World) : Prop :=
  transcriptionOnly (props (paramsRef w)) = false /\ outputAudioContext w = true.

(** The hook is rendered as connected and holds the connection [c]. *)
Definition sendsOn (c : ConnId) (w : World) : Prop :=
  renderedConnectionState (paramsRef w) = Connected /\ sessionPromiseRef w = Some c.

(** The effects that make sound or announce it: a source started, the
    speaking observer told [true]. *)
Definition audible (e : Effect) : bool :=
  match e with
  | SourceStart _ _ _ => true
  | OnAssistantSpeakingStateChange true => true
  | _ => false
  end.

(** [emitsOnly], for the worlds in which the hook has no output context;
    the computation has to leave the hook without one. *)
Definition emitsOnlyWithoutContext (P : Effect -> Prop) {A} (c : M A) : Prop :=
  forall w, outputAudioContext w = false ->
    outputAudioContext (worldOf (c w)) = false /\
    exists l, log (worldOf (c w)) = log w ++ l /\ Forall P l.

(** Props of a consumer that asks for transcription only, as the drill
    screen does. *)
Definition transcriptionProps : Props :=
  {| language := lit "en";
     systemInstruction := lit "";
     transcriptionOnly := true;
     onApiKeyError := false;
     onLiveTranscript := false |}.

(** The hook while two fragments of the assistant's audio are playing. *)
Definition speakingEvents : list Event :=
  [CallStartSession; Rerender exampleProps; TransportOpen 0%nat;
   Rerender exampleProps;
   TransportMessage 0%nat (audioFragment [0; 64; 0; 192]%Z) 0;
   TransportMessage 0%nat (audioFragment [0; 32]%Z) 0].

Definition speakingWorld : World :=
  match run speakingEvents freshWorld with
  | Some w => w
  | None => freshWorld
  end.

(** The fragments that arrive on a connection, one message each. *)
Definition fragmentEvents (c : ConnId) (t : Q) (fs : list Fragment) : list Event :=
  map (fun f => TransportMessage c (fragmentMessage f) t) fs.

(** The fragments of the user, one by one. *)
Definition userFragments (fs : list Fragment) : list jsstring :=
  flat_map (fun f => match f with UserFragment t => [t] | _ => [] end) fs.

(** What the live-transcript observer was given. *)
Definition liveTranscripts (l : list Effect) : list jsstring :=
  flat_map (fun e => match e with OnLiveTranscript t => [t] | _ => [] end) l.

(** What the hook needs to open a connection, and the next connection
    identifier. *)
Definition serviceOf (w : World) : bool * ProcessEnv * option Thrown * ConnId :=
  (aiInstance w, process w, connectThrows w, connCount w).

(** The messages that a delivered turn adds to the transcript of the session
    screen. *)
Definition turnMessages (turn : jsstring * jsstring) : list Session.Message :=
  (if truthy (fst turn)
   then [{| Session.role := Session.user; Session.content := fst turn |}] else [])
  ++ (if truthy (snd turn)
      then [{| Session.role := Session.assistant; Session.content := snd turn |}]
      else []).

(** What the user said in the turns delivered so far, the empty strings left
    out. *)
Definition spoken (l : list Effect) : list jsstring :=
  filter truthy (map fst (turns l)).

(** The world after a sequence of events, all of them enabled. *)
Definition afterEvents (evs : list Event) (w : World) : World :=
  match run evs w with
  | Some w' => w'
  | None => w
  end.

(** Two attempts at a drill, the second after the connection of the first
    has closed. *)
Definition firstAttempt : list Event :=
  [CallStartSession; TransportOpen 0%nat;
   TransportMessage 0%nat (inputFragment (lit "first try ")) 0;
   TransportMessage 0%nat turnCompleteSignal 0].

Definition secondAttempt : list Event :=
  [CallStopSession; TransportClose 0%nat; CallStartSession; TransportOpen 1%nat;
   TransportMessage 1%nat (inputFragment (lit " second")) 0;
   TransportMessage 1%nat turnCompleteSignal 0;
   TransportMessage 1%nat turnCompleteSignal 0;
   TransportMessage 1%nat (inputFragment (lit "try ")) 0;
   TransportMessage 1%nat turnCompleteSignal 0].

Definition firstAttemptWorld : World :=
  afterEvents firstAttempt
    (mount transcriptionProps false (EnvDefined (Some (lit "key"))) None).

Definition secondAttemptWorld : World := afterEvents secondAttempt firstAttemptWorld.

(** What the hook did during the second attempt. *)
Definition secondAttemptEffects : list Effect :=
  skipn (List.length (log firstAttemptWorld)) (log secondAttemptWorld).

(** The strings of a list joined by single spaces. *)
Fixpoint joinWithSpaces (l : list jsstring) : jsstring :=
  match l with
  | [] => []
  | [s] => s
  | s :: l' => s ++ lit " " ++ joinWithSpaces l'
  end.

End Notions.

(** * Properties *)

Import JS Codec Live.
Open Scope js_scope.

(** ** The PCM codec *)

Section CodecFacts.

Local Open Scope Z_scope.

Lemma toInt16_id (n : Z) : -32768 <= n <= 32767 -> toInt16 n = n.
Proof.
  intros Hn. unfold toInt16.
  destruct (Z_lt_le_dec n 0) as [Hneg | Hpos].
  - replace (n mod 65536) with (n + 65536)
      by (apply Z.mod_unique with (q := -1); lia).
    destruct (Z.leb_spec 32768 (n + 65536)); lia.
  - rewrite Z.mod_small by lia.
    destruct (Z.leb_spec 32768 n); lia.
Qed.

Lemma toInt16_mod (n : Z) : toInt16 (n mod 65536) = toInt16 n.
Proof. unfold toInt16. now rewrite Z.mod_mod. Qed.

(** The low byte and the high byte of a 16-bit word put it together again. *)
Lemma bytes_join (u : Z) :
  0 <= u -> Z.lor (Z.land u 255) (Z.shiftl (Z.shiftr u 8) 8) = u.
Proof.
  intros Hu. apply Z.bits_inj'. intros n Hn.
  rewrite Z.lor_spec, Z.land_spec.
  change 255 with (Z.ones 8).
  destruct (Z_lt_le_dec n 8) as [Hlow | Hhigh].
  - rewrite Z.ones_spec_low by lia.
    rewrite Z.shiftl_spec_low by lia.
    now rewrite andb_true_r, orb_false_r.
  - rewrite Z.ones_spec_high by lia.
    rewrite Z.shiftl_spec by lia.
    rewrite Z.shiftr_spec by lia.
    rewrite andb_false_r. simpl. f_equal. lia.
Qed.

Lemma int16View_bufferBytes (l : list Z) :
  int16View (bufferBytes l) = Some (map toInt16 l).
Proof.
  induction l as [| v l IH]; [reflexivity |].
  unfold bufferBytes in *. cbn [flat_map int16Bytes app int16View].
  rewrite IH. rewrite bytes_join by (apply Z.mod_pos_bound; lia).
  now rewrite toInt16_mod.
Qed.

Lemma toInt16_range (n : Z) : -32768 <= toInt16 n <= 32767.
Proof.
  unfold toInt16. pose proof (Z.mod_pos_bound n 65536 ltac:(lia)).
  destruct (Z.leb_spec 32768 (n mod 65536)); lia.
Qed.

Lemma toInt16_idem (n : Z) : toInt16 (toInt16 n) = toInt16 n.
Proof. apply toInt16_id, toInt16_range. Qed.

Lemma map_nth_seq {A} (l pre : list A) (d : A) :
  map (fun i => nth i (pre ++ l) d) (seq (List.length pre) (List.length l)) = l.
Proof.
  revert pre. induction l as [| x l IH]; intros pre; [reflexivity |].
  cbn [List.length seq map]. f_equal.
  - rewrite app_nth2 by lia. now rewrite Nat.sub_diag.
  - specialize (IH (pre ++ [x])).
    rewrite <- app_assoc, length_app in IH. cbn in IH.
    now rewrite Nat.add_1_r in IH.
Qed.

Lemma mono_channel {A} (g : Z -> A) (l : list Z) :
  map (fun i => g (nth (i * 1 + 0)%nat l 0)) (seq 0 (List.length l)) = map g l.
Proof.
  transitivity (map g (map (fun i => nth i ([] ++ l) 0) (seq 0 (List.length l)))).
  - rewrite map_map. apply map_ext. intros i.
    now rewrite Nat.mul_1_r, Nat.add_0_r.
  - f_equal. apply (map_nth_seq l [] 0).
Qed.

(** Decoding the bytes of a non-empty [Int16Array] gives back its elements,
    each divided by 32768. *)
Lemma pcm16ToFloat_bufferBytes (l : list Z) :
  l <> [] ->
  pcm16ToFloat (bufferBytes l)
  = Some (map (fun v => (inject_Z (toInt16 v) / 32768)%Q) l).
Proof.
  intros Hne. unfold pcm16ToFloat, decodeAudioData.
  rewrite int16View_bufferBytes. rewrite Nat.div_1_r, length_map.
  destruct (List.length l =? 0)%nat eqn:Hlen.
  - apply Nat.eqb_eq, length_zero_iff_nil in Hlen. contradiction.
  - cbn [Nat.eqb orb seq map channelData nth].
    rewrite <- (length_map toInt16 l).
    rewrite (mono_channel (fun v => (inject_Z v / 32768)%Q)).
    now rewrite map_map.
Qed.

(** Truncating a number of [-32768, 32768) gives a 16-bit integer less than 1
    away from it. *)
Lemma truncate_close (y : Q) :
  (-32768 <= y)%Q -> (y < 32768)%Q ->
  -32768 <= truncate y <= 32767 /\ (Qabs (inject_Z (truncate y) - y) < 1)%Q.
Proof.
  destruct y as [a b]. unfold truncate, Qle, Qlt. cbn [Qnum Qden].
  intros Hlo Hhi.
  pose proof (Z.quot_rem' a (Z.pos b)) as Hqr.
  assert (Hr : Z.abs (Z.rem a (Z.pos b)) < Z.pos b).
  { pose proof (Z.rem_bound_abs a (Z.pos b) ltac:(lia)). lia. }
  assert (Hs : 0 <= a -> 0 <= Z.rem a (Z.pos b)).
  { intros. apply Z.rem_nonneg; lia. }
  assert (Hs' : a <= 0 -> Z.rem a (Z.pos b) <= 0).
  { intros. apply Z.rem_nonpos; lia. }
  set (n := Z.quot a (Z.pos b)) in *. set (r := Z.rem a (Z.pos b)) in *.
  split; [nia |].
  apply Qabs_case; intros _; unfold Qlt, Qminus, Qplus, Qopp, inject_Z;
    cbn [Qnum Qden]; nia.
Qed.

End CodecFacts.

Section CodecRoundTrip.

Local Open Scope Q_scope.

Lemma sample_round_trip (x : Q) :
  -1 <= x -> x < 1 ->
  Qabs (inject_Z (toInt16 (floatToInt16 x)) / 32768 - x) < 1 # 32768.
Proof.
  intros Hlo Hhi. unfold floatToInt16.
  destruct (@truncate_close (x * 32768)) as [Hrange Hclose]; [lra | lra |].
  rewrite toInt16_idem, toInt16_id by exact Hrange.
  apply Qabs_Qlt_condition in Hclose. apply Qabs_Qlt_condition.
  set (n := inject_Z (truncate (x * 32768))) in *. clearbody n.
  unfold Qdiv. change (/ 32768) with (1 # 32768).
  split; lra.
Qed.

(** C3, as stated, fails at the sample 1.0: 1.0 * 32768 = 32768 does not fit
    16 bits and wraps to -32768, which decodes to -1.0. *)
Lemma round_trip_fails_at_one :
  Forall (fun x => -1 <= x /\ x <= 1) [1] /\
  pcm16ToFloat (floatToPcm16 [1]) = Some [-32768 # 32768] /\
  ~ Qabs ((-32768 # 32768) - 1) <= 1 # 32768.
Proof.
  split; [| split].
  - repeat constructor; discriminate.
  - reflexivity.
  - intros H. vm_compute in H. apply H. reflexivity.
Qed.

(** C3, amended: for every non-empty array of samples in [-1, 1), encoding with
    [createBlob] and decoding the bytes with [decodeAudioData] succeeds and
    gives an array that differs from the input by less than 1/32768 in every
    sample. *)
Theorem round_trip_within_quantum (xs : list Q) :
  xs <> [] ->
  Forall (fun x => -1 <= x /\ x < 1) xs ->
  exists ys,
    pcm16ToFloat (floatToPcm16 xs) = Some ys /\
    Forall2 (fun x y => Qabs (y - x) < 1 # 32768) xs ys.
Proof.
  intros Hne Hall.
  exists (map (fun v => inject_Z (toInt16 v) / 32768) (map floatToInt16 xs)).
  split.
  - unfold floatToPcm16, createBlob. cbn [data].
    apply pcm16ToFloat_bufferBytes.
    destruct xs; [congruence | discriminate].
  - clear Hne. induction Hall as [| x xs [Hlo Hhi] _ IH]; cbn [map].
    + constructor.
    + constructor; [now apply sample_round_trip | exact IH].
Qed.

Lemma round_trip_within_quantum_witness :
  exists ys,
    pcm16ToFloat (floatToPcm16 [1 # 2; -1; -(1 # 3); 32767 # 32768]) = Some ys /\
    Forall2 (fun x y => Qabs (y - x) < 1 # 32768)
            [1 # 2; -1; -(1 # 3); 32767 # 32768] ys.
Proof.
  apply round_trip_within_quantum.
  - discriminate.
  - repeat constructor; reflexivity || discriminate.
Defined.

End CodecRoundTrip.

(** ** What a computation of the hook leaves untouched *)

Section Frames.


Lemma keeps_ret {A B} (f : World -> B) (a : A) : keeps f (ret a).
Proof. intros w. reflexivity. Qed.

Lemma keeps_throw {A B} (f : World -> B) (e : Thrown) : keeps f (@throw A e).
Proof. intros w. reflexivity. Qed.

Lemma keeps_gets {A B} (f : World -> B) (g : World -> A) : keeps f (gets g).
Proof. intros w. reflexivity. Qed.

Lemma keeps_bind {A A' B} (f : World -> B) (c : M A) (k : A -> M A') :
  keeps f c -> (forall a, keeps f (k a)) -> keeps f (bind c k).
Proof.
  intros Hc Hk w. unfold bind. specialize (Hc w).
  destruct (c w) as [a w1 | e w1]; cbn in *.
  - now rewrite Hk.
  - exact Hc.
Qed.

Lemma keeps_tryCatch {A B} (f : World -> B) (c : M A) (h : Thrown -> M A) :
  keeps f c -> (forall e, keeps f (h e)) -> keeps f (tryCatch c h).
Proof.
  intros Hc Hh w. unfold tryCatch. specialize (Hc w).
  destruct (c w) as [a w1 | e w1]; cbn in *.
  - exact Hc.
  - now rewrite Hh.
Qed.

Lemma keeps_when {B} (f : World -> B) (b : bool) (c : M unit) :
  keeps f c -> keeps f (when b c).
Proof. intros Hc. destruct b; [exact Hc | apply keeps_ret]. Qed.

Lemma keeps_forEach {A B} (f : World -> B) (l : list A) (body : A -> M unit) :
  (forall x, keeps f (body x)) -> keeps f (forEach l body).
Proof.
  intros Hb. induction l as [| x l IH]; cbn [forEach].
  - apply keeps_ret.
  - apply keeps_bind; [apply Hb | intros _; exact IH].
Qed.

Lemma keeps_modify {B} (f : World -> B) (g : World -> World) :
  (forall w, f (g w) = f w) -> keeps f (modify g).
Proof. intros Hg w. apply Hg. Qed.

Lemma keeps_emit {B} (f : World -> B) (e : Effect) :
  (forall w, f (set_log (log w ++ [e]) w) = f w) -> keeps f (emit e).
Proof. intros He w. apply He. Qed.

End Frames.

Ltac keeps_log :=
  intros; cbn;
  repeat match goal with
         | |- context [Live.opened (_ ++ _)] => unfold Live.opened
         | |- context [Live.turns (_ ++ _)] => unfold Live.turns
         | |- context [Live.scheduled (_ ++ _)] => unfold Live.scheduled
         end;
  rewrite ?flat_map_app; cbn; rewrite ?app_nil_r; reflexivity.

(** Decompose a computation into its primitives, discharging [keeps] for
    each. *)
Ltac keeps_step :=
  lazymatch goal with
  | |- Live.keeps _ (Live.bind _ _) => apply keeps_bind; [| intros ?]
  | |- Live.keeps _ (Live.tryCatch _ _) => apply keeps_tryCatch; [| intros ?]
  | |- Live.keeps _ (Live.ret _) => apply keeps_ret
  | |- Live.keeps _ (Live.throw _) => apply keeps_throw
  | |- Live.keeps _ (Live.gets _) => apply keeps_gets
  | |- Live.keeps _ (Live.when _ _) => apply keeps_when
  | |- Live.keeps _ (Live.forEach _ _) => apply keeps_forEach; intros ?
  | |- Live.keeps _ (Live.modify _) => apply keeps_modify; intros ?; reflexivity
  | |- Live.keeps _ (Live.emit _) => apply keeps_emit; keeps_log
  | |- Live.keeps _ (let _ := _ in _) => cbv zeta
  | |- Live.keeps _ (match ?x with _ => _ end) => destruct x
  end.

Ltac keeps_auto := repeat keeps_step.

Arguments decodeAudioData : simpl never.
Arguments duration : simpl never.
Arguments Math_max : simpl never.
Arguments getTurn : simpl never.

Ltac unfold_hook :=
  repeat progress unfold startSession, openConnection, liveConnect, getAiInstance,
    setConnectionState, callOnApiKeyError, callOnLiveTranscript,
    callOnAssistantSpeakingStateChange, sendAudioData, onopen, onerror, onclose,
    onended, render, setTurn, tryCatch, when, bind, gets, modify, emit, ret, throw.

Ltac unfold_onmessage :=
  unfold onmessage, handleTranscription, handleTurnComplete, handleAudio,
    handleInterrupted, playFragment, stopSource,
    currentInputTranscription, currentOutputTranscription;
  unfold_hook.


Ltac case_step :=
  match goal with
  | |- context [match ?x with _ => _ end] =>
      lazymatch x with
      | context [match _ with _ => _ end] => fail
      | _ => destruct x eqn:?
      end
  end.

(** Run a computation symbolically, splitting on every test it makes. *)
Ltac crunch :=
  repeat (cbn -[lit includes trim] in *; case_step); cbn -[lit includes trim] in *.


Section HookFrames.


Lemma onmessage_keeps_connection c m t : keeps connectionOf (onmessage c m t).
Proof.
  unfold onmessage, handleTranscription, handleTurnComplete, handleAudio,
    handleInterrupted, playFragment, callOnLiveTranscript, setTurn, stopSource,
    callOnAssistantSpeakingStateChange.
  keeps_auto.
Qed.

End HookFrames.

(** ** The functions of the hook, one by one *)

Section HookFunctions.


Lemma getTurn_head c t l : getTurn c ((c, t) :: l) = t.
Proof. unfold getTurn. now rewrite Nat.eqb_refl. Qed.

Lemma forEach_stopSource (srcs : list NodeId) (w : World) :
  forEach srcs stopSource w = Val tt (set_log (log w ++ map SourceStop srcs) w).
Proof.
  revert w. induction srcs as [| n srcs IH]; intros w; cbn [forEach map].
  - rewrite app_nil_r. now destruct w.
  - unfold bind, stopSource at 1, emit, modify. rewrite IH. cbn.
    now rewrite <- app_assoc.
Qed.

Lemma stopSession_spec (w : World) :
  stopSession w
  = Val tt (set_connectionState Idle
             (set_log (log w ++ closeRequest w ++ map SourceStop (sources w)
                       ++ [OnAssistantSpeakingStateChange false])
                (set_nextStartTime 0 (set_sources [] w)))).
Proof.
  unfold stopSession, closeRequest, bind, gets.
  destruct (sessionPromiseRef w) as [c |] eqn:Href.
  - unfold emit at 1, modify at 1. cbn [set_log sources]. rewrite forEach_stopSource.
    unfold modify, callOnAssistantSpeakingStateChange, emit, modify,
      setConnectionState, modify. cbn.
    now rewrite <- ?app_assoc.
  - unfold ret at 1. rewrite forEach_stopSource.
    unfold modify, callOnAssistantSpeakingStateChange, emit, modify,
      setConnectionState, modify. cbn.
    now rewrite <- ?app_assoc.
Qed.

Lemma startSession_held (w : World) :
  sessionPromiseRef w <> None -> startSession w = Val tt w.
Proof.
  intros Href. unfold startSession, bind, gets.
  destruct (sessionPromiseRef w); [reflexivity | congruence].
Qed.

Lemma startSession_opens (w : World) :
  sessionPromiseRef w = None -> clientAvailable w = true -> connectThrows w = None ->
  exists w',
    startSession w = Val tt w' /\
    connectionState w' = Connecting /\
    sessionPromiseRef w' = Some (connCount w) /\
    live w' = live w ++ [connCount w] /\
    log w' = log w ++ [LiveConnect (connCount w) (instructionOf (paramsRef w))] /\
    sources w' = sources w /\ nextStartTime w' = nextStartTime w /\
    paramsRef w' = paramsRef w /\
    getTurn (connCount w) (transcriptions w') = ([], []).
Proof.
  intros Href Hclient Hthrows. unfold clientAvailable in Hclient.
  unfold_hook. rewrite Href. revert Hclient. crunch; intros Hclient;
    try discriminate; try congruence;
    (eexists; split; [reflexivity |]; cbn; rewrite getTurn_head; tauto).
Qed.

Lemma openConnection_throws (w w1 : World) (e : Thrown) :
  openConnection w = Exn e w1 ->
  connectionState w1 = connectionState w /\
  sessionPromiseRef w1 = sessionPromiseRef w /\ live w1 = live w /\
  log w1 = log w /\ sources w1 = sources w /\
  nextStartTime w1 = nextStartTime w /\ paramsRef w1 = paramsRef w.
Proof.
  unfold_hook. crunch; intros H; inversion H; subst; cbn; auto 10.
Qed.

(** Whatever the [try] block throws is caught: the state becomes [Error], the
    failure is logged, and the credential observer is called when the thrown
    value is an [Error] whose message contains "API_KEY". *)
Lemma startSession_caught (w w1 : World) (e : Thrown) :
  sessionPromiseRef w = None ->
  openConnection (set_connectionState Connecting w) = Exn e w1 ->
  exists w',
    startSession w = Val tt w' /\
    connectionState w' = Error /\
    sessionPromiseRef w' = None /\
    live w' = live w /\
    log w' = log w
             ++ ConsoleError (lit "Failed to initialize Gemini Live session:")
             :: (if includesApiKey e && onApiKeyError (props (paramsRef w))
                 then [OnApiKeyError] else []) /\
    sources w' = sources w /\ nextStartTime w' = nextStartTime w /\
    paramsRef w' = paramsRef w.
Proof.
  intros Href Hexn.
  unfold startSession at 1. unfold bind at 1, gets at 1. rewrite Href.
  unfold bind at 1, setConnectionState at 1, modify at 1, tryCatch.
  rewrite Hexn.
  destruct (openConnection_throws _ Hexn) as (_ & H1 & H2 & H3 & H4 & H5 & H6).
  cbn in H1, H2, H3, H4, H5, H6. rewrite Href in H1.
  unfold_hook. cbn -[lit includes].
  destruct (includesApiKey e); cbn -[lit includes].
  - rewrite H6.
    destruct (onApiKeyError (props (paramsRef w))); cbn -[lit includes];
      eexists; (split; [reflexivity |]); cbn -[lit]; rewrite ?H3, <- ?app_assoc; auto 10.
  - eexists; (split; [reflexivity |]); cbn -[lit]; rewrite ?H3; auto 10.
Qed.

(** [openConnection] returns exactly when a client is available and the
    transport accepts the call. *)
Lemma openConnection_throws_iff (w : World) :
  (exists e w1, openConnection w = Exn e w1) <->
  (clientAvailable w = false \/ connectThrows w <> None).
Proof.
  unfold clientAvailable. unfold_hook.
  crunch; split;
    try (intros (? & ? & ?); discriminate);
    try (intros [? | ?]; discriminate || congruence);
    try (intros _; eauto; (now left) || (right; discriminate)).
Qed.

(** [startSession] returns in every world, in one of three ways. *)
Lemma startSession_cases (w : World) :
  exists w',
    startSession w = Val tt w' /\
    sources w' = sources w /\ nextStartTime w' = nextStartTime w /\
    ((sessionPromiseRef w <> None /\ w' = w)
     \/ (sessionPromiseRef w = None /\ connectionState w' = Connecting /\
         sessionPromiseRef w' = Some (connCount w) /\
         live w' = live w ++ [connCount w] /\
         opened (log w') = opened (log w) ++ [connCount w])
     \/ (sessionPromiseRef w = None /\ connectionState w' = Error /\
         sessionPromiseRef w' = None /\ live w' = live w /\
         opened (log w') = opened (log w))).
Proof.
  destruct (sessionPromiseRef w) as [c |] eqn:Href.
  - exists w. rewrite startSession_held by congruence.
    repeat split. left. split; [discriminate | reflexivity].
  - destruct (openConnection (set_connectionState Connecting w)) as [[] w1 | e w1] eqn:Hopen.
    + assert (Hok : clientAvailable w = true /\ connectThrows w = None).
      { pose proof (openConnection_throws_iff (set_connectionState Connecting w)) as Hiff.
        rewrite Hopen in Hiff. change (clientAvailable (set_connectionState Connecting w))
          with (clientAvailable w) in Hiff.
        change (connectThrows (set_connectionState Connecting w))
          with (connectThrows w) in Hiff.
        destruct (clientAvailable w), (connectThrows w); split; try reflexivity;
          exfalso;
          (assert (Hex : exists e w2, Val tt w1 = Exn e w2)
             by (apply Hiff; (now left) || (right; discriminate)));
          destruct Hex as (? & ? & ?); discriminate. }
      destruct Hok as [Hclient Hthrows].
      destruct (startSession_opens w Href Hclient Hthrows)
        as (w' & Hrun & Hst & Hr & Hl & Hlog & Hs & Hn & _).
      exists w'. repeat split; auto. right. left. repeat split; auto.
      rewrite Hlog. unfold opened. rewrite flat_map_app. reflexivity.
    + destruct (startSession_caught w Href Hopen)
        as (w' & Hrun & Hst & Hr & Hl & Hlog & Hs & Hn & _).
      exists w'. repeat split; auto. right. right. repeat split; auto.
      rewrite Hlog. unfold opened. rewrite flat_map_app. cbn.
      destruct (includesApiKey e && onApiKeyError (props (paramsRef w)));
        cbn; now rewrite app_nil_r.
Qed.

(** ** Invariants of the mounted hook *)

Lemma isLive_held (w : World) (c : ConnId) :
  oneConnection w -> isLive c w = true ->
  live w = [c] /\ sessionPromiseRef w = Some c.
Proof.
  unfold isLive. intros [Hnil | (c' & Hlive & Href)] Hc; rewrite ?Hnil, ?Hlive in Hc.
  - discriminate.
  - cbn in Hc. rewrite orb_false_r in Hc. apply Nat.eqb_eq in Hc. subst c'.
    now rewrite Hlive.
Qed.

Lemma invariant_mount p cached env failure : invariant (mount p cached env failure).
Proof.
  unfold invariant, oneConnection, stateHasConnection, idleIsQuiet. cbn.
  repeat split; auto; intros [H | H]; discriminate.
Qed.

(** The invariant passes to a world with the same connection, provided it
    is as quiet. *)
Lemma invariant_transfer (w w' : World) :
  invariant w ->
  connectionOf w' = connectionOf w ->
  (connectionState w = Idle -> sessionPromiseRef w = None ->
   sources w' = [] /\ nextStartTime w' = 0) ->
  invariant w'.
Proof.
  intros (Hone & Hstate & Hquiet) Hconn Hq.
  unfold connectionOf in Hconn. injection Hconn as H1 H2 H3.
  unfold invariant, oneConnection, stateHasConnection, idleIsQuiet in *.
  rewrite H1, H2, H3. auto.
Qed.

Lemma sendAudioData_keeps audioData :
  keeps (fun w => (connectionOf w, sources w, nextStartTime w))
        (sendAudioData audioData).
Proof. unfold sendAudioData. keeps_auto. Qed.

Lemma render_keeps p :
  keeps (fun w => (connectionOf w, sources w, nextStartTime w)) (render p).
Proof. unfold render. keeps_auto. Qed.

Lemma onended_keeps n :
  keeps (fun w => (connectionOf w, nextStartTime w)) (onended n).
Proof. unfold onended, callOnAssistantSpeakingStateChange. keeps_auto. Qed.

Lemma onended_sources n w :
  sources (worldOf (onended n w)) = removeSource n (sources w).
Proof. unfold_hook. crunch; reflexivity. Qed.

Lemma onerror_keeps message onLine :
  keeps (fun w => (sessionPromiseRef w, live w)) (onerror message onLine).
Proof. unfold onerror, callOnApiKeyError, setConnectionState. keeps_auto. Qed.

Lemma onerror_state message onLine w :
  connectionState (worldOf (onerror message onLine w)) = Error.
Proof. unfold_hook. crunch; reflexivity. Qed.

Lemma invariant_step (w w' : World) (ev : Event) :
  invariant w -> step ev w = Some w' -> invariant w'.
Proof.
  intros Hinv. unfold step.
  destruct (enabled ev w) eqn:Hen; [| discriminate].
  intros Hstep. injection Hstep as <-.
  destruct ev as [| | audioData | p | c | c m t | c msg onLine | c | n];
    cbn [handle enabled] in *.
  - (* startSession *)
    destruct Hinv as (Hone & Hstate & Hquiet).
    unfold invariant, stateHasConnection, idleIsQuiet in *.
    destruct (startSession_cases w) as (w1 & Hrun & Hs & Hn & Hcase).
    rewrite Hrun. cbn [worldOf].
    destruct Hcase as [[Href ->] | [(Href & Hst & Hr & Hl & _) | (Href & Hst & Hr & Hl & _)]].
    + auto.
    + assert (Hnil : live w = []).
      { destruct Hone as [H | (c & _ & H)]; [exact H | congruence]. }
      repeat split.
      * right. exists (connCount w). rewrite Hl, Hnil. auto.
      * intros _. congruence.
      * congruence.
      * congruence.
    + repeat split.
      * destruct Hone as [H | (c & _ & H)]; [left; congruence | congruence].
      * intros [H | H]; congruence.
      * congruence.
      * congruence.
  - (* stopSession *)
    destruct Hinv as (Hone & Hstate & Hquiet).
    unfold invariant, stateHasConnection, idleIsQuiet in *.
    rewrite stopSession_spec. cbn. repeat split; auto.
    intros [H | H]; discriminate.
  - (* sendAudioData *)
    pose proof (sendAudioData_keeps audioData w) as Hk.
    pose proof (f_equal (fun x => fst (fst x)) Hk) as Hk1.
    pose proof (f_equal (fun x => snd (fst x)) Hk) as Hk2.
    pose proof (f_equal snd Hk) as Hk3. cbn [fst snd] in Hk1, Hk2, Hk3.
    apply (invariant_transfer Hinv Hk1). rewrite Hk2, Hk3. apply Hinv.
  - (* render *)
    pose proof (render_keeps p w) as Hk.
    pose proof (f_equal (fun x => fst (fst x)) Hk) as Hk1.
    pose proof (f_equal (fun x => snd (fst x)) Hk) as Hk2.
    pose proof (f_equal snd Hk) as Hk3. cbn [fst snd] in Hk1, Hk2, Hk3.
    apply (invariant_transfer Hinv Hk1). rewrite Hk2, Hk3. apply Hinv.
  - (* onopen *)
    destruct Hinv as (Hone & Hstate & Hquiet).
    destruct (@isLive_held _ _ Hone Hen) as [Hl Hr].
    unfold invariant, oneConnection, stateHasConnection, idleIsQuiet in *.
    unfold_hook. cbn. repeat split; auto; try easy.
    intros _. congruence.
  - (* onmessage *)
    destruct (@isLive_held _ _ (proj1 Hinv) Hen) as [Hl Hr].
    apply (invariant_transfer Hinv (onmessage_keeps_connection c m t w)).
    congruence.
  - (* onerror *)
    destruct Hinv as (Hone & Hstate & Hquiet).
    pose proof (onerror_keeps msg onLine w) as Hk.
    pose proof (f_equal fst Hk) as Hk1. pose proof (f_equal snd Hk) as Hk2.
    cbn [fst snd] in Hk1, Hk2.
    unfold invariant, oneConnection, stateHasConnection, idleIsQuiet in *.
    rewrite Hk1, Hk2, onerror_state.
    repeat split; auto; try (intros [H | H]; discriminate); easy.
  - (* onclose *)
    destruct Hinv as (Hone & Hstate & Hquiet).
    destruct (@isLive_held _ _ Hone Hen) as [Hl Hr].
    unfold invariant, oneConnection, stateHasConnection, idleIsQuiet in *.
    unfold_hook. cbn. rewrite Hl. cbn.
    rewrite Nat.eqb_refl. cbn. repeat split; auto;
      try (intros [H | H]; discriminate); easy.
  - (* ended *)
    pose proof (onended_keeps n w) as Hk.
    pose proof (f_equal fst Hk) as Hk1. pose proof (f_equal snd Hk) as Hk2.
    cbn [fst snd] in Hk1, Hk2.
    apply (invariant_transfer Hinv Hk1). rewrite Hk2, onended_sources.
    intros Hi Hr. destruct Hinv as (_ & _ & Hquiet).
    destruct (Hquiet Hi Hr) as [-> ->]. auto.
Qed.

Lemma reachable_invariant (w : World) : reachable w -> invariant w.
Proof.
  induction 1 as [p cached env failure | w ev w' _ IH Hstep].
  - apply invariant_mount.
  - eapply invariant_step; eassumption.
Qed.

Lemma run_reachable (evs : list Event) (w w' : World) :
  reachable w -> run evs w = Some w' -> reachable w'.
Proof.
  revert w. induction evs as [| ev evs IH]; intros w Hw; cbn [run].
  - intros H. injection H as <-. exact Hw.
  - destruct (step ev w) as [w1 |] eqn:Hstep; [| discriminate].
    apply IH. eapply reachable_step; eassumption.
Qed.

(** ** Substrings *)

Lemma includes_unfold (needle hay : jsstring) :
  includes needle hay
  = startsWith needle hay
    || match hay with [] => false | _ :: hay' => includes needle hay' end.
Proof. destruct hay; reflexivity. Qed.

Lemma startsWith_app (needle rest : jsstring) : startsWith needle (needle ++ rest) = true.
Proof.
  induction needle as [| a needle IH]; cbn; [reflexivity |].
  now rewrite N.eqb_refl, IH.
Qed.

Lemma includes_app (pre needle post : jsstring) :
  includes needle (pre ++ needle ++ post) = true.
Proof.
  induction pre as [| a pre IH].
  - cbn [app]. rewrite includes_unfold, startsWith_app. reflexivity.
  - cbn [app]. rewrite includes_unfold. cbn -[startsWith]. rewrite IH.
    apply orb_true_r.
Qed.

End HookFunctions.

(** ** The connection state machine *)

Section StateMachine.

Local Open Scope nat_scope.

(** C1, as stated, fails after [stopSession]: the state is [Idle], yet the
    hook still holds the connection until its close is acknowledged, and
    [startSession] returns without opening anything or leaving [Idle]. *)
Lemma startSession_ignored_after_stopSession :
  run [CallStartSession; TransportOpen 0; CallStopSession] freshWorld
  = Some stoppedWorld /\
  reachable stoppedWorld /\
  clientAvailable stoppedWorld = true /\
  connectThrows stoppedWorld = None /\
  connectionState stoppedWorld = Idle /\
  startSession stoppedWorld = Val tt stoppedWorld /\
  ~ (exists w', startSession stoppedWorld = Val tt w' /\
                connectionState w' = Connecting).
Proof.
  assert (Hrun : run [CallStartSession; TransportOpen 0; CallStopSession] freshWorld
                 = Some stoppedWorld) by (vm_compute; reflexivity).
  assert (Hnoop : startSession stoppedWorld = Val tt stoppedWorld)
    by (vm_compute; reflexivity).
  split; [exact Hrun |]. split; [| split; [| split; [| split; [| split]]]].
  - exact (run_reachable _ (reachable_mount exampleProps false
                              (EnvDefined (Some (lit "key"))) None) Hrun).
  - vm_compute. reflexivity.
  - vm_compute. reflexivity.
  - vm_compute. reflexivity.
  - exact Hnoop.
  - intros (w' & Hstart & Hst). rewrite Hnoop in Hstart. injection Hstart as <-.
    vm_compute in Hst. discriminate.
Qed.

(** C1, amended: at most one connection is open or pending at a time;
    [startSession] does nothing whenever the hook still holds a connection,
    which is the case in the states [Connecting] and [Connected] (and also in
    [Idle] or [Error] until the close of the connection is acknowledged);
    when the hook holds no connection and a client is available,
    [startSession] opens exactly one connection and moves to [Connecting],
    the open acknowledgment moves to [Connected], and a second
    [startSession] in a row opens nothing; in every case two calls in a row
    open at most one connection. *)
Theorem one_connection_at_a_time :
  (forall w, reachable w -> (List.length (live w) <= 1)%nat) /\
  (forall w, sessionPromiseRef w <> None -> startSession w = Val tt w) /\
  (forall w, reachable w ->
             connectionState w = Connecting \/ connectionState w = Connected ->
             startSession w = Val tt w) /\
  (forall w, sessionPromiseRef w = None -> clientAvailable w = true ->
             connectThrows w = None ->
             exists w1,
               startSession w = Val tt w1 /\
               connectionState w1 = Connecting /\
               live w1 = live w ++ [connCount w] /\
               opened (log w1) = opened (log w) ++ [connCount w] /\
               connectionState (worldOf (onopen w1)) = Connected /\
               startSession w1 = Val tt w1) /\
  (forall w w1 w2, startSession w = Val tt w1 -> startSession w1 = Val tt w2 ->
                   (List.length (opened (log w2))
                    <= S (List.length (opened (log w))))%nat).
Proof.
  split; [| split; [| split; [| split]]].
  - intros w Hw. destruct (reachable_invariant Hw) as ([Hnil | (c & Hl & _)] & _).
    + rewrite Hnil. cbn. lia.
    + rewrite Hl. cbn. lia.
  - exact startSession_held.
  - intros w Hw Hst. apply startSession_held.
    destruct (reachable_invariant Hw) as (_ & Hstate & _). exact (Hstate Hst).
  - intros w Href Hclient Hthrows.
    destruct (startSession_opens w Href Hclient Hthrows)
      as (w1 & Hrun & Hst & Hr & Hl & Hlog & _).
    exists w1. repeat split; auto.
    + rewrite Hlog. unfold opened. rewrite flat_map_app. reflexivity.
    + apply startSession_held. congruence.
  - intros w w1 w2 H1 H2.
    destruct (startSession_cases w) as (w1' & Hrun1 & _ & _ & Hc1).
    rewrite H1 in Hrun1. injection Hrun1 as <-.
    destruct (startSession_cases w1) as (w2' & Hrun2 & _ & _ & Hc2).
    rewrite H2 in Hrun2. injection Hrun2 as <-.
    destruct Hc1 as [[Href1 ->] | [(Href1 & _ & Hr1 & _ & Ho1) | (Href1 & _ & Hr1 & _ & Ho1)]];
      destruct Hc2 as [[Href2 ->] | [(Href2 & _ & _ & _ & Ho2) | (Href2 & _ & _ & _ & Ho2)]];
      rewrite ?Ho2, ?Ho1, ?length_app; cbn; try lia; congruence.
Qed.

Lemma one_connection_at_a_time_witness :
  exists w1,
    startSession freshWorld = Val tt w1 /\
    connectionState w1 = Connecting /\
    live w1 = live freshWorld ++ [connCount freshWorld] /\
    opened (log w1) = opened (log freshWorld) ++ [connCount freshWorld] /\
    connectionState (worldOf (onopen w1)) = Connected /\
    startSession w1 = Val tt w1.
Proof.
  destruct one_connection_at_a_time as (_ & _ & _ & H & _).
  apply (H freshWorld); reflexivity.
Defined.




(** C8, as stated, fails in its last clause: in an idle hook [stopSession] is
    not a no-op.  Just mounted, it still notifies the speaking observer; called
    again after a first [stopSession], while the close of the connection is
    pending, it asks the connection to close once more. *)
Lemma stopSession_while_idle_has_effects :
  connectionState freshWorld = Idle /\
  stopSession freshWorld <> Val tt freshWorld /\
  log (worldOf (stopSession freshWorld)) = [OnAssistantSpeakingStateChange false] /\
  run [CallStartSession; TransportOpen 0; CallStopSession] freshWorld
  = Some stoppedWorld /\
  connectionState stoppedWorld = Idle /\
  stopSession stoppedWorld <> Val tt stoppedWorld /\
  log (worldOf (stopSession stoppedWorld))
  = log stoppedWorld ++ [SessionClose 0; OnAssistantSpeakingStateChange false].
Proof.
  assert (Hlen : forall w w', stopSession w = Val tt w' ->
                              List.length (log (worldOf (stopSession w)))
                              = List.length (log w')).
  { intros w w' ->. reflexivity. }
  split; [| split; [| split; [| split; [| split; [| split]]]]];
    try (vm_compute; reflexivity);
    intros H; apply Hlen in H; vm_compute in H; discriminate.
Qed.

(** C8, amended: [stopSession] returns from every world without throwing.  It
    asks the connection it holds, if any, to close and keeps holding it; it
    stops every active source, empties the active set, puts the cursor back to
    zero, tells the speaking observer [false] and sets the state to [Idle],
    not to [Disconnected]: that state comes with the close acknowledgment,
    which also releases the connection.  In a reachable idle world that holds
    no connection, [stopSession] touches neither the transport nor any source
    and leaves the state of the hook as it is; the notification of the
    speaking observer is all that happens. *)
Theorem stopSession_from_any_state :
  (forall w,
     exists w',
       stopSession w = Val tt w' /\
       connectionState w' = Idle /\
       sources w' = [] /\
       nextStartTime w' = 0%Q /\
       sessionPromiseRef w' = sessionPromiseRef w /\
       live w' = live w /\
       log w' = log w ++ closeRequest w ++ map SourceStop (sources w)
                ++ [OnAssistantSpeakingStateChange false]) /\
  (forall w c,
     isLive c w = true ->
     exists w2,
       step (TransportClose c) (worldOf (stopSession w)) = Some w2 /\
       connectionState w2 = Disconnected /\
       sessionPromiseRef w2 = None) /\
  (forall w,
     reachable w -> connectionState w = Idle -> sessionPromiseRef w = None ->
     stopSession w
     = Val tt (set_log (log w ++ [OnAssistantSpeakingStateChange false]) w)).
Proof.
  split; [| split].
  - intros w. rewrite stopSession_spec. eexists. split; [reflexivity |].
    cbn. auto 10.
  - intros w c Hlive. rewrite stopSession_spec. unfold step. cbn [worldOf enabled].
    unfold isLive in *. cbn [live set_connectionState set_log set_nextStartTime
                             set_sources]. rewrite Hlive.
    eexists. split; [reflexivity |]. cbn. auto.
  - intros w Hw Hidle Href.
    destruct (reachable_invariant Hw) as (_ & _ & Hquiet).
    destruct (Hquiet Hidle Href) as [Hsrc Hnst].
    rewrite stopSession_spec. unfold closeRequest. rewrite Href, Hsrc.
    destruct w. cbn in *. subst. reflexivity.
Qed.

Lemma stopSession_from_any_state_witness :
  (exists w2,
     step (TransportClose 0) (worldOf (stopSession connectingWorld)) = Some w2 /\
     connectionState w2 = Disconnected /\
     sessionPromiseRef w2 = None) /\
  stopSession freshWorld
  = Val tt (set_log (log freshWorld ++ [OnAssistantSpeakingStateChange false])
              freshWorld).
Proof.
  destruct stopSession_from_any_state as (_ & Hclose & Hidle). split.
  - apply Hclose. reflexivity.
  - apply Hidle; [apply reachable_mount | reflexivity | reflexivity].
Defined.

(** C9: an error event whose message contains "Requested entity was not
    found." calls the credential observer, when the consumer supplied one, and
    the state still becomes [Error]. *)
Theorem credential_error_routed (w : World) (pre post : jsstring) (onLine : bool) :
  onApiKeyError (props (paramsRef w)) = true ->
  exists w',
    onerror (pre ++ notFoundMarker ++ post) onLine w = Val tt w' /\
    connectionState w' = Error /\
    log w' = log w
             ++ [ConsoleError (lit "Live session error:"); OnApiKeyError]
             ++ (if onLine then []
                 else [ConsoleError
                         (lit "Network error may be due to the user being offline.")]).
Proof.
  intros Hobs.
  assert (Htruthy : truthy (pre ++ notFoundMarker ++ post) = true).
  { destruct pre; reflexivity. }
  unfold onerror, bind, gets, emit, modify, when.
  rewrite Htruthy, includes_app. cbn -[lit].
  unfold callOnApiKeyError, when. cbn -[lit]. rewrite Hobs.
  unfold emit, modify. cbn -[lit].
  destruct onLine; cbn -[lit]; eexists; (split; [reflexivity |]); cbn -[lit];
    rewrite <- ?app_assoc; auto.
Qed.

Lemma credential_error_routed_witness :
  exists w',
    onerror (lit "404: " ++ notFoundMarker ++ lit " (models/x)") true
            (worldOf (onopen connectingWorld)) = Val tt w' /\
    connectionState w' = Error /\
    log w' = log (worldOf (onopen connectingWorld))
             ++ [ConsoleError (lit "Live session error:"); OnApiKeyError] ++ [].
Proof.
  apply (@credential_error_routed (worldOf (onopen connectingWorld))
           (lit "404: ") (lit " (models/x)") true).
  reflexivity.
Defined.

(** C10: [startSession] never throws.  When the [try] block throws, the state
    becomes [Error], no connection is held, and the credential observer is
    called exactly when the thrown value is an [Error] whose message contains
    "API_KEY" and the consumer supplied the observer.  That is the case when
    no API key is configured: [getAiInstance] throws such an error. *)
Theorem startSession_catches_failure :
  (forall w, exists w', startSession w = Val tt w') /\
  (forall w w1 e,
     sessionPromiseRef w = None ->
     openConnection (set_connectionState Connecting w) = Exn e w1 ->
     exists w',
       startSession w = Val tt w' /\
       connectionState w' = Error /\
       sessionPromiseRef w' = None /\
       opened (log w') = opened (log w) /\
       log w' = log w
                ++ ConsoleError (lit "Failed to initialize Gemini Live session:")
                :: (if includesApiKey e && onApiKeyError (props (paramsRef w))
                    then [OnApiKeyError] else [])) /\
  (forall w,
     sessionPromiseRef w = None -> apiKeyUnset w = true ->
     getAiInstance w = Exn (ErrorObject apiKeyMessage) w /\
     includesApiKey (ErrorObject apiKeyMessage) = true /\
     exists w',
       startSession w = Val tt w' /\
       connectionState w' = Error /\
       sessionPromiseRef w' = None /\
       log w' = log w
                ++ ConsoleError (lit "Failed to initialize Gemini Live session:")
                :: (if onApiKeyError (props (paramsRef w))
                    then [OnApiKeyError] else [])).
Proof.
  split; [| split].
  - intros w. destruct (startSession_cases w) as (w' & Hrun & _). eauto.
  - intros w w1 e Href Hexn.
    destruct (startSession_caught w Href Hexn)
      as (w' & Hrun & Hst & Hr & _ & Hlog & _).
    exists w'. repeat split; auto.
    rewrite Hlog. unfold opened. rewrite flat_map_app. cbn -[lit].
    destruct (includesApiKey e && onApiKeyError (props (paramsRef w)));
      cbn; now rewrite app_nil_r.
  - intros w Href Hunset.
    assert (Hget : getAiInstance w = Exn (ErrorObject apiKeyMessage) w).
    { unfold apiKeyUnset in Hunset. unfold getAiInstance.
      destruct (aiInstance w); [discriminate |].
      destruct (process w) as [| | [apiKey |]]; try discriminate; try reflexivity.
      cbn in Hunset. destruct (truthy apiKey); [discriminate | reflexivity]. }
    assert (Hkey : includesApiKey (ErrorObject apiKeyMessage) = true)
      by (vm_compute; reflexivity).
    split; [exact Hget |]. split; [exact Hkey |].
    assert (Hexn : openConnection (set_connectionState Connecting w)
                   = Exn (ErrorObject apiKeyMessage) (set_connectionState Connecting w)).
    { unfold openConnection, bind.
      assert (Hget' : getAiInstance (set_connectionState Connecting w)
                      = Exn (ErrorObject apiKeyMessage) (set_connectionState Connecting w)).
      { revert Hget. unfold getAiInstance. cbn -[apiKeyMessage lit].
        destruct (aiInstance w); [discriminate |].
        destruct (process w) as [| | [apiKey |]]; try discriminate; try reflexivity.
        destruct (truthy apiKey); [discriminate | reflexivity]. }
      now rewrite Hget'. }
    destruct (startSession_caught w Href Hexn)
      as (w' & Hrun & Hst & Hr & _ & Hlog & _).
    exists w'. rewrite Hkey in Hlog. auto.
Qed.

Lemma startSession_catches_failure_witness :
  getAiInstance keylessWorld = Exn (ErrorObject apiKeyMessage) keylessWorld /\
  includesApiKey (ErrorObject apiKeyMessage) = true /\
  exists w',
    startSession keylessWorld = Val tt w' /\
    connectionState w' = Error /\
    sessionPromiseRef w' = None /\
    log w' = log keylessWorld
             ++ ConsoleError (lit "Failed to initialize Gemini Live session:")
             :: (if onApiKeyError (props (paramsRef keylessWorld))
                 then [OnApiKeyError] else []).
Proof.
  apply (proj2 (proj2 startSession_catches_failure) keylessWorld); reflexivity.
Defined.

End StateMachine.

(** ** Messages of a connection *)

Section Messages.


(** A message that carries an input fragment and no output fragment. *)
Lemma onmessage_inputFragment (w : World) (c : ConnId) (text : jsstring) (t : Q) :
  exists w',
    onmessage c (inputFragment text) t w = Val tt w' /\
    currentInputTranscription c w' = currentInputTranscription c w ++ text /\
    currentOutputTranscription c w' = currentOutputTranscription c w /\
    log w' = log w ++ (if onLiveTranscript (props (paramsRef w))
                       then [OnLiveTranscript text] else []) /\
    live w' = live w /\ paramsRef w' = paramsRef w.
Proof.
  unfold_onmessage. cbn.
  destruct (onLiveTranscript (props (paramsRef w))), (transcriptionOnly (props (paramsRef w)));
    cbn; (eexists; split; [reflexivity |]); cbn; rewrite getTurn_head, ?app_nil_r; auto.
Qed.

(** A message that carries an output fragment and no input fragment. *)
Lemma onmessage_outputFragment (w : World) (c : ConnId) (text : jsstring) (t : Q) :
  exists w',
    onmessage c (outputFragment text) t w = Val tt w' /\
    currentInputTranscription c w' = currentInputTranscription c w /\
    currentOutputTranscription c w' = currentOutputTranscription c w ++ text /\
    log w' = log w /\
    live w' = live w /\ paramsRef w' = paramsRef w.
Proof.
  unfold_onmessage. cbn.
  destruct (transcriptionOnly (props (paramsRef w)));
    cbn; (eexists; split; [reflexivity |]); cbn; rewrite getTurn_head; auto.
Qed.

(** A message that carries both fragments. *)
Lemma onmessage_bothFragments (w : World) (c : ConnId) (input output : jsstring) (t : Q) :
  exists w',
    onmessage c (bothFragments input output) t w = Val tt w' /\
    currentInputTranscription c w' = currentInputTranscription c w /\
    currentOutputTranscription c w' = currentOutputTranscription c w ++ output /\
    log w' = log w /\
    live w' = live w /\ paramsRef w' = paramsRef w.
Proof.
  unfold_onmessage. cbn.
  destruct (transcriptionOnly (props (paramsRef w)));
    cbn; (eexists; split; [reflexivity |]); cbn; rewrite getTurn_head; auto.
Qed.

(** The turn-complete signal. *)
Lemma onmessage_turnComplete (w : World) (c : ConnId) (t : Q) :
  exists w',
    onmessage c turnCompleteSignal t w = Val tt w' /\
    currentInputTranscription c w' = [] /\
    currentOutputTranscription c w' = [] /\
    log w' = log w ++ [OnTurnComplete (trim (currentInputTranscription c w))
                                      (trim (currentOutputTranscription c w))] /\
    live w' = live w /\ paramsRef w' = paramsRef w.
Proof.
  unfold_onmessage. cbn -[trim].
  destruct (transcriptionOnly (props (paramsRef w)));
    cbn -[trim]; (eexists; split; [reflexivity |]); cbn -[trim];
    rewrite getTurn_head; auto.
Qed.

Lemma decodeAudioData_nonempty bytes a :
  decodeAudioData bytes 24000 1 = Some a -> exists b rest, bytes = b :: rest.
Proof. destruct bytes as [| b rest]; [discriminate | eauto]. Qed.

(** A message that carries audio, in a hook that plays audio. *)
Lemma onmessage_audioFragment (w : World) (c : ConnId) (bytes : list Z) (t : Q)
    (a : AudioBuffer) :
  transcriptionOnly (props (paramsRef w)) = false ->
  outputAudioContext w = true ->
  decodeAudioData bytes 24000 1 = Some a ->
  exists w',
    onmessage c (audioFragment bytes) t w = Val tt w' /\
    nextStartTime w' = (Math_max (nextStartTime w) t + duration a)%Q /\
    log w' = log w ++ [OnAssistantSpeakingStateChange true;
                       SourceStart (nodeCount w) (Math_max (nextStartTime w) t) a] /\
    sources w' = sources w ++ [nodeCount w] /\
    live w' = live w /\ paramsRef w' = paramsRef w /\
    outputAudioContext w' = true.
Proof.
  intros Hmode Hctx Hdec.
  destruct (decodeAudioData_nonempty _ Hdec) as (b & rest & ->).
  unfold_onmessage. cbn. rewrite Hmode. cbn. rewrite Hctx. cbn. rewrite Hdec. cbn.
  eexists. split; [reflexivity |]. cbn. rewrite <- app_assoc. auto 10.
Qed.

Lemma turns_app l1 l2 : turns (l1 ++ l2) = turns l1 ++ turns l2.
Proof. unfold turns. apply flat_map_app. Qed.

Lemma scheduled_app l1 l2 : scheduled (l1 ++ l2) = scheduled l1 ++ scheduled l2.
Proof. unfold scheduled. apply flat_map_app. Qed.

Lemma step_message (w w' : World) (c : ConnId) (m : LiveServerMessage) (t : Q) :
  isLive c w = true -> onmessage c m t w = Val tt w' ->
  step (TransportMessage c m t) w = Some w'.
Proof. intros Hlive Hrun. unfold step. cbn [enabled handle]. now rewrite Hlive, Hrun. Qed.

Lemma isLive_same (w w' : World) (c : ConnId) :
  live w' = live w -> isLive c w = true -> isLive c w' = true.
Proof. unfold isLive. now intros ->. Qed.

Lemma Math_max_r (a b : Q) : (a <= b)%Q -> Math_max a b = b.
Proof.
  intros H. unfold Math_max. apply Qle_bool_iff in H. now rewrite H.
Qed.

Lemma Math_max_l (a b : Q) : (b < a)%Q -> Math_max a b = a.
Proof.
  intros H. unfold Math_max. destruct (Qle_bool a b) eqn:Hle; [| reflexivity].
  apply Qle_bool_iff in Hle. exfalso. apply (Qlt_not_le _ _ H Hle).
Qed.

Lemma duration_positive (bytes : list Z) (a : AudioBuffer) :
  decodeAudioData bytes 24000 1 = Some a -> (0 < duration a)%Q.
Proof.
  unfold decodeAudioData. destruct (int16View bytes) as [l |]; [| discriminate].
  rewrite Nat.div_1_r. cbn [Nat.eqb orb].
  destruct (List.length l) as [| n] eqn:Hlen; cbn [Nat.eqb]; [discriminate |].
  intros H. injection H as <-. unfold duration. cbn [length sampleRate].
  unfold Qlt, Qdiv, Qmult, Qinv, inject_Z. cbn. lia.
Qed.

End Messages.

(** ** Playback scheduling *)

Section Scheduling.

Import Doubles.
Local Open Scope Q_scope.

Lemma roundHalfEven_near (y : Q) : Qabs (inject_Z (roundHalfEven y) - y) <= 1 # 2.
Proof.
  unfold roundHalfEven. pose proof (Qfloor_le y) as Hlo. pose proof (Qlt_floor y) as Hhi.
  rewrite inject_Z_plus in Hhi. change (inject_Z 1) with 1 in Hhi.
  apply Qabs_Qle_condition.
  destruct (Qcompare (y - inject_Z (Qfloor y)) (1 # 2)) eqn:Hc.
  - apply Qeq_alt in Hc.
    destruct (Z.even (Qfloor y)); rewrite ?inject_Z_plus; change (inject_Z 1) with 1; lra.
  - apply Qlt_alt in Hc. lra.
  - apply Qgt_alt in Hc. rewrite inject_Z_plus. change (inject_Z 1) with 1. lra.
Qed.

Lemma two_power_pos (e : Z) : 0 < 2 ^ e.
Proof. apply Qpower_0_lt. reflexivity. Qed.

Lemma ulp_pos (x : Q) : 0 < ulp x.
Proof. apply two_power_pos. Qed.

(** [exponent] is the binary exponent. *)
Lemma exponent_spec (x : Q) :
  ~ x == 0 -> 2 ^ exponent x <= Qabs x /\ Qabs x < 2 ^ (exponent x + 1).
Proof.
  intros Hx. unfold exponent.
  set (n := Z.abs (Qnum x)). set (d := Z.pos (Qden x)).
  set (k := (Z.log2 n - Z.log2 d)%Z).
  assert (Hn : (0 < n)%Z).
  { unfold n. destruct x as [xn xd]. unfold Qeq in Hx. cbn in *. lia. }
  assert (Hd : (0 < d)%Z) by reflexivity.
  destruct (Z.log2_spec n Hn) as [Hn1 Hn2]. destruct (Z.log2_spec d Hd) as [Hd1 Hd2].
  pose proof (Z.log2_nonneg n) as Ha. pose proof (Z.log2_nonneg d) as Hb.
  destruct (Qle_bool (2 ^ k) (Qabs x)) eqn:Hle.
  - split; [now apply Qle_bool_iff |].
    replace (k + 1)%Z with (Z.succ (Z.log2 n) - Z.log2 d)%Z by (unfold k; lia).
    rewrite Qpower_minus by discriminate.
    rewrite <- !(Zpower_Qpower 2) by lia.
    set (A := (2 ^ Z.succ (Z.log2 n))%Z) in *. set (B := (2 ^ Z.log2 d)%Z) in *.
    assert (HB : (0 < B)%Z) by lia.
    apply Qlt_shift_div_l; [unfold Qlt; cbn; lia |].
    destruct x as [xn xd]. unfold Qabs, Qlt, Qmult, inject_Z. cbn in *.
    fold n. fold d. nia.
  - split.
    + replace (k - 1)%Z with (Z.log2 n - Z.succ (Z.log2 d))%Z by (unfold k; lia).
      rewrite Qpower_minus by discriminate.
      rewrite <- !(Zpower_Qpower 2) by lia.
      set (A := (2 ^ Z.log2 n)%Z) in *. set (B := (2 ^ Z.succ (Z.log2 d))%Z) in *.
      assert (HB : (0 < B)%Z) by lia.
      apply Qle_shift_div_r; [unfold Qlt; cbn; lia |].
      destruct x as [xn xd]. unfold Qabs, Qle, Qmult, inject_Z. cbn in *.
      fold n. fold d. nia.
    + replace (k - 1 + 1)%Z with k by lia.
      apply Qnot_le_lt. intros H. apply Qle_bool_iff in H. congruence.
Qed.

Lemma ulp_small (x : Q) : ~ x == 0 -> normal x -> ulp x <= Qabs x * 2 ^ (-52).
Proof.
  intros Hx [Hnorm _]. unfold ulp.
  replace (Z.max (exponent x) (-1022) - 52)%Z
    with (Z.max (exponent x) (-1022) + -52)%Z by lia.
  rewrite Qpower_plus by discriminate.
  apply Qmult_le_compat_r; [| apply Qlt_le_weak, two_power_pos].
  destruct (Z.max_spec (exponent x) (-1022)) as [[_ ->] | [_ ->]].
  - exact Hnorm.
  - now apply exponent_spec.
Qed.

(** Rounding moves a number by at most half the distance between the
    doubles around it. *)
Lemma round_near (x : Q) : Qabs (round x - x) <= ulp x * (1 # 2).
Proof.
  unfold round. destruct (Qeq_bool x 0) eqn:Hz.
  - apply Qeq_bool_iff in Hz. pose proof (ulp_pos x) as Hu.
    apply Qabs_Qle_condition. set (u := ulp x) in *. clearbody u. lra.
  - rewrite Qred_correct. pose proof (ulp_pos x) as Hu.
    pose proof (roundHalfEven_near (x / ulp x)) as Hn.
    assert (Hx : x == (x / ulp x) * ulp x) by (field; lra).
    apply Qabs_Qle_condition in Hn. apply Qabs_Qle_condition.
    set (u := ulp x) in *. set (y := x / u) in *.
    set (n := inject_Z (roundHalfEven y)) in *.
    clearbody n y u. nra.
Qed.

Lemma round_relative (x : Q) :
  normal x -> Qabs (round x - x) <= Qabs x * 2 ^ (-53).
Proof.
  intros Hnorm.
  assert (Hx : ~ x == 0).
  { intros H. destruct Hnorm as [Hnorm _]. rewrite H in Hnorm. vm_compute in Hnorm.
    now apply Hnorm. }
  pose proof (round_near x) as H1. pose proof (@ulp_small x Hx Hnorm) as H2.
  change (2 ^ (-53)) with (2 ^ (-52 + -1)). rewrite Qpower_plus by discriminate.
  change (2 ^ (-1)) with (1 # 2).
  pose proof (Qabs_nonneg x). set (a := Qabs x) in *. set (e := 2 ^ (-52)) in *.
  clearbody a e. nra.
Qed.

(** The result of rounding is a double: a multiple of [ulp] whose
    significand has at most 53 bits. *)
Lemma round_grid (x : Q) :
  exists n, round x == inject_Z n * ulp x /\ (Z.abs n <= 2 ^ 53)%Z.
Proof.
  unfold round. destruct (Qeq_bool x 0) eqn:Hz.
  - exists 0%Z. split; [now rewrite Qmult_0_l | discriminate].
  - exists (roundHalfEven (x / ulp x)). split; [apply Qred_correct |].
    assert (Hx : ~ x == 0) by (intros H; apply Qeq_bool_iff in H; congruence).
    destruct (exponent_spec Hx) as [_ Hup].
    pose proof (ulp_pos x) as Hu.
    assert (Hstep : 2 ^ (exponent x - 52) <= ulp x).
    { unfold ulp. apply Qpower_le_compat_l; [lia | discriminate]. }
    assert (Hsplit : 2 ^ (exponent x + 1) == 2 ^ 53 * 2 ^ (exponent x - 52)).
    { rewrite <- Qpower_plus by discriminate. now replace (53 + (exponent x - 52))%Z
        with (exponent x + 1)%Z by lia. }
    assert (Hy : Qabs (x / ulp x) < 2 ^ 53).
    { unfold Qdiv. rewrite Qabs_Qmult, (Qabs_pos (/ ulp x))
        by (apply Qlt_le_weak, Qinv_lt_0_compat, Hu).
      apply Qlt_shift_div_r; [exact Hu |].
      pose proof (two_power_pos (exponent x - 52)) as Hp.
      set (a := Qabs x) in *. set (u := ulp x) in *.
      set (q := 2 ^ (exponent x - 52)) in *. set (top := 2 ^ (exponent x + 1)) in *.
      change (2 ^ 53) with (inject_Z (2 ^ 53)) in *.
      set (k := inject_Z (2 ^ 53)) in *. assert (Hk : 0 < k) by reflexivity.
      clearbody a u q top k. nra. }
    pose proof (roundHalfEven_near (x / ulp x)) as Hn.
    set (y := x / ulp x) in *. set (n := roundHalfEven y) in *.
    apply Qabs_Qle_condition in Hn.
    assert (Hylo : - 2 ^ 53 < y /\ y < 2 ^ 53).
    { revert Hy. apply Qabs_case; intros ? ?; split; lra. }
    change (2 ^ 53) with 9007199254740992 in Hylo.
    assert (Hlo : inject_Z (-9007199254740993) < inject_Z n).
    { change (inject_Z (-9007199254740993)) with (-9007199254740993).
      clearbody n y. lra. }
    assert (Hhi : inject_Z n < inject_Z 9007199254740993).
    { change (inject_Z 9007199254740993) with 9007199254740993.
      clearbody n y. lra. }
    change (2 ^ 53)%Z with 9007199254740992%Z.
    rewrite <- Zlt_Qlt in Hlo, Hhi. clearbody n. lia.
Qed.




End Scheduling.

(** ** Turn accumulation *)

Section Turns.

(** C5: a fragment is appended to its side of the buffer by concatenation; the
    turn-complete signal hands the two trimmed strings to [onTurnComplete] and
    empties both sides.  On a connection whose buffer is empty, the user
    fragments "Hel" and "lo " and the assistant fragments "Hi" and " there"
    followed by two turn-complete signals give the turns ("Hello", "Hi there")
    and then ("", ""), and no handler throws. *)
Theorem turn_accumulation_and_flush :
  (forall w c text t,
     exists w',
       onmessage c (inputFragment text) t w = Val tt w' /\
       currentInputTranscription c w' = currentInputTranscription c w ++ text /\
       currentOutputTranscription c w' = currentOutputTranscription c w) /\
  (forall w c text t,
     exists w',
       onmessage c (outputFragment text) t w = Val tt w' /\
       currentInputTranscription c w' = currentInputTranscription c w /\
       currentOutputTranscription c w' = currentOutputTranscription c w ++ text) /\
  (forall w c t,
     exists w',
       onmessage c turnCompleteSignal t w = Val tt w' /\
       turns (log w')
       = turns (log w) ++ [(trim (currentInputTranscription c w),
                            trim (currentOutputTranscription c w))] /\
       currentInputTranscription c w' = [] /\
       currentOutputTranscription c w' = []) /\
  (forall w c t,
     isLive c w = true ->
     currentInputTranscription c w = [] ->
     currentOutputTranscription c w = [] ->
     exists w',
       run [TransportMessage c (inputFragment (lit "Hel")) t;
            TransportMessage c (inputFragment (lit "lo ")) t;
            TransportMessage c (outputFragment (lit "Hi")) t;
            TransportMessage c (outputFragment (lit " there")) t;
            TransportMessage c turnCompleteSignal t;
            TransportMessage c turnCompleteSignal t] w = Some w' /\
       turns (log w') = turns (log w) ++ [(lit "Hello", lit "Hi there"); ([], [])]).
Proof.
  split; [| split; [| split]].
  - intros w c text t.
    destruct (onmessage_inputFragment w c text t) as (w' & Hrun & Hi & Ho & _).
    eauto.
  - intros w c text t.
    destruct (onmessage_outputFragment w c text t) as (w' & Hrun & Hi & Ho & _).
    eauto.
  - intros w c t.
    destruct (onmessage_turnComplete w c t) as (w' & Hrun & Hi & Ho & Hlog & _).
    exists w'. rewrite Hlog, turns_app. auto.
  - intros w c t Hlive Hin Hout.
    destruct (onmessage_inputFragment w c (lit "Hel") t)
      as (w1 & Hrun1 & Hi1 & Ho1 & Hlog1 & Hl1 & _).
    destruct (onmessage_inputFragment w1 c (lit "lo ") t)
      as (w2 & Hrun2 & Hi2 & Ho2 & Hlog2 & Hl2 & _).
    destruct (onmessage_outputFragment w2 c (lit "Hi") t)
      as (w3 & Hrun3 & Hi3 & Ho3 & Hlog3 & Hl3 & _).
    destruct (onmessage_outputFragment w3 c (lit " there") t)
      as (w4 & Hrun4 & Hi4 & Ho4 & Hlog4 & Hl4 & _).
    destruct (onmessage_turnComplete w4 c t)
      as (w5 & Hrun5 & Hi5 & Ho5 & Hlog5 & Hl5 & _).
    destruct (onmessage_turnComplete w5 c t)
      as (w6 & Hrun6 & Hi6 & Ho6 & Hlog6 & Hl6 & _).
    pose proof (@isLive_same _ _ c Hl1 Hlive) as Hlive1.
    pose proof (@isLive_same _ _ c Hl2 Hlive1) as Hlive2.
    pose proof (@isLive_same _ _ c Hl3 Hlive2) as Hlive3.
    pose proof (@isLive_same _ _ c Hl4 Hlive3) as Hlive4.
    pose proof (@isLive_same _ _ c Hl5 Hlive4) as Hlive5.
    exists w6. split.
    + cbn [run].
      rewrite (@step_message _ _ _ _ _ Hlive Hrun1).
      rewrite (@step_message _ _ _ _ _ Hlive1 Hrun2).
      rewrite (@step_message _ _ _ _ _ Hlive2 Hrun3).
      rewrite (@step_message _ _ _ _ _ Hlive3 Hrun4).
      rewrite (@step_message _ _ _ _ _ Hlive4 Hrun5).
      rewrite (@step_message _ _ _ _ _ Hlive5 Hrun6).
      reflexivity.
    + rewrite Hlog6, Hi5, Ho5, turns_app, Hlog5, turns_app.
      rewrite Hi4, Ho4, Hi3, Ho3, Hi2, Ho2, Hi1, Ho1, Hin, Hout.
      rewrite Hlog4, Hlog3, Hlog2, Hlog1, !turns_app.
      destruct (onLiveTranscript (props (paramsRef w)));
        destruct (onLiveTranscript (props (paramsRef w1)));
        cbn [turns flat_map app]; rewrite ?app_nil_r, <- ?app_assoc; reflexivity.
Qed.

Lemma turn_accumulation_and_flush_witness :
  exists w',
    run [TransportMessage 0%nat (inputFragment (lit "Hel")) 0;
         TransportMessage 0%nat (inputFragment (lit "lo ")) 0;
         TransportMessage 0%nat (outputFragment (lit "Hi")) 0;
         TransportMessage 0%nat (outputFragment (lit " there")) 0;
         TransportMessage 0%nat turnCompleteSignal 0;
         TransportMessage 0%nat turnCompleteSignal 0] connectedWorld = Some w' /\
    turns (log w')
    = turns (log connectedWorld) ++ [(lit "Hello", lit "Hi there"); ([], [])].
Proof.
  apply (proj2 (proj2 (proj2 turn_accumulation_and_flush)) connectedWorld 0%nat);
    reflexivity.
Defined.

(** C6, as stated, fails: with both sides of the buffer empty, the
    turn-complete signal still calls [onTurnComplete], with two empty
    strings. *)
Lemma empty_turn_is_emitted :
  exists w,
    run [TransportMessage 0%nat turnCompleteSignal 0] connectedWorld = Some w /\
    currentInputTranscription 0%nat connectedWorld = [] /\
    currentOutputTranscription 0%nat connectedWorld = [] /\
    turns (log connectedWorld) = [] /\
    turns (log w) = [([], [])].
Proof.
  eexists. split; [vm_compute; reflexivity |]. repeat split.
Qed.

(** C6, amended: when the turn-complete signal arrives and both sides of the
    buffer are empty, [onTurnComplete] is called with two empty strings and
    the buffer stays empty; it is the handler of the session screen that then
    records no message. *)
Theorem empty_turn_reaches_the_callback (w : World) (c : ConnId) (t : Q) :
  currentInputTranscription c w = [] ->
  currentOutputTranscription c w = [] ->
  (exists w',
     onmessage c turnCompleteSignal t w = Val tt w' /\
     log w' = log w ++ [OnTurnComplete [] []] /\
     currentInputTranscription c w' = [] /\
     currentOutputTranscription c w' = []) /\
  (forall s, Session.handleTurnComplete [] [] s = s).
Proof.
  intros Hin Hout. split.
  - destruct (onmessage_turnComplete w c t) as (w' & Hrun & Hi & Ho & Hlog & _).
    exists w'. rewrite Hlog, Hin, Hout. auto.
  - intros s. reflexivity.
Qed.

Lemma empty_turn_reaches_the_callback_witness :
  (exists w',
     onmessage 0%nat turnCompleteSignal 0 connectedWorld = Val tt w' /\
     log w' = log connectedWorld ++ [OnTurnComplete [] []] /\
     currentInputTranscription 0%nat w' = [] /\
     currentOutputTranscription 0%nat w' = []) /\
  (forall s, Session.handleTurnComplete [] [] s = s).
Proof.
  apply (@empty_turn_reaches_the_callback connectedWorld 0%nat 0); reflexivity.
Defined.

(** C7, as stated, fails for a message that carries both fragments: the
    input fragment is neither appended to the user side nor passed to the
    live-transcript observer, although the consumer supplied one. *)
Lemma input_fragment_lost_beside_output_fragment :
  exists w,
    run [TransportMessage 0%nat (bothFragments (lit "hello") (lit "Hi")) 0]
        connectedWorld = Some w /\
    onLiveTranscript (props (paramsRef connectedWorld)) = true /\
    currentInputTranscription 0%nat w = [] /\
    currentOutputTranscription 0%nat w = lit "Hi" /\
    log w = log connectedWorld.
Proof.
  eexists. split; [vm_compute; reflexivity |]. repeat split.
Qed.

(** C7, amended: a message that carries an input fragment and no output
    fragment has the fragment appended to the user side and passed at once to
    the live-transcript observer that the consumer supplied; in a message
    that carries both fragments only the output fragment is appended, and the
    input fragment is neither appended nor passed on. *)
Theorem input_fragment_appended_and_forwarded :
  (forall w c m text,
     outputTranscription m = None -> inputTranscription m = Some text ->
     onLiveTranscript (props (paramsRef w)) = true ->
     exists w',
       handleTranscription c m (paramsRef w) w = Val tt w' /\
       currentInputTranscription c w' = currentInputTranscription c w ++ text /\
       currentOutputTranscription c w' = currentOutputTranscription c w /\
       log w' = log w ++ [OnLiveTranscript text]) /\
  (forall w c text t,
     onLiveTranscript (props (paramsRef w)) = true ->
     exists w',
       onmessage c (inputFragment text) t w = Val tt w' /\
       currentInputTranscription c w' = currentInputTranscription c w ++ text /\
       currentOutputTranscription c w' = currentOutputTranscription c w /\
       log w' = log w ++ [OnLiveTranscript text]) /\
  (forall w c input output t,
     exists w',
       onmessage c (bothFragments input output) t w = Val tt w' /\
       currentInputTranscription c w' = currentInputTranscription c w /\
       currentOutputTranscription c w' = currentOutputTranscription c w ++ output /\
       log w' = log w).
Proof.
  split; [| split].
  - intros w c m text Hout Hin Hobs.
    unfold handleTranscription. rewrite Hout, Hin.
    unfold currentInputTranscription, currentOutputTranscription. unfold_hook.
    cbn. rewrite Hobs. cbn.
    eexists. split; [reflexivity |]. cbn. rewrite getTurn_head. auto.
  - intros w c text t Hobs.
    destruct (onmessage_inputFragment w c text t) as (w' & Hrun & Hi & Ho & Hlog & _).
    rewrite Hobs in Hlog. eauto 10.
  - intros w c input output t.
    destruct (onmessage_bothFragments w c input output t)
      as (w' & Hrun & Hi & Ho & Hlog & _).
    eauto 10.
Qed.

Lemma input_fragment_appended_and_forwarded_witness :
  exists w',
    onmessage 0%nat (inputFragment (lit "hello")) 0 connectedWorld = Val tt w' /\
    currentInputTranscription 0%nat w'
    = currentInputTranscription 0%nat connectedWorld ++ lit "hello" /\
    currentOutputTranscription 0%nat w' = currentOutputTranscription 0%nat connectedWorld /\
    log w' = log connectedWorld ++ [OnLiveTranscript (lit "hello")].
Proof.
  apply (proj1 (proj2 input_fragment_appended_and_forwarded) connectedWorld).
  reflexivity.
Defined.

End Turns.

(** * Further properties *)

Import Base64 Playback Service Screens Notions.

(** ** The transport string *)

Section TransportString.

Local Open Scope Z_scope.

Ltac split_tests :=
  repeat match goal with
         | |- context [?a <=? ?b] => destruct (Z.leb_spec a b)
         | |- context [?a <? ?b] => destruct (Z.ltb_spec a b)
         | |- context [?a =? ?b] => destruct (Z.eqb_spec a b)
         end.

Lemma charSextet_sextetChar (v : Z) :
  0 <= v < 64 -> charSextet (sextetChar v) = Some v.
Proof.
  intros Hv. unfold sextetChar.
  destruct (Z.ltb_spec v 26); [| destruct (Z.ltb_spec v 52);
    [| destruct (Z.ltb_spec v 62); [| destruct (Z.eqb_spec v 62)]]];
    unfold charSextet; rewrite Z2N.id by lia; cbn zeta;
    split_tests; cbn [andb]; try lia; f_equal; lia.
Qed.

Lemma sextetChar_plain (v : Z) :
  0 <= v < 64 ->
  isAsciiWhitespace (sextetChar v) = false /\ N.eqb (sextetChar v) 61 = false.
Proof.
  intros Hv.
  assert (Hc : (43 <= sextetChar v <= 122)%N /\ sextetChar v <> 61%N).
  { unfold sextetChar. split_tests; split; lia. }
  destruct Hc as [Hrange Hneq]. split.
  - unfold isAsciiWhitespace. cbn [existsb].
    repeat match goal with
           | |- context [N.eqb ?a ?b] => destruct (N.eqb_spec a b); [lia |]
           end.
    reflexivity.
  - now apply N.eqb_neq.
Qed.

Lemma list_ind3 {A} (P : list A -> Prop) :
  P [] -> (forall a, P [a]) -> (forall a b, P [a; b]) ->
  (forall a b c rest, P rest -> P (a :: b :: c :: rest)) ->
  forall l, P l.
Proof.
  intros H0 H1 H2 H3 l.
  enough (H : P l /\ (forall a, P (a :: l)) /\ (forall a b, P (a :: b :: l)))
    by apply H.
  induction l as [| x l (IH0 & IH1 & IH2)]; repeat split; auto.
Qed.

Lemma sextets_range (bytes : list Z) :
  Forall isByte bytes -> Forall (fun v => 0 <= v < 64) (sextets bytes).
Proof.
  unfold isByte. induction bytes as [| a | a b | a b c rest IH] using list_ind3;
    intros Hb; cbn [sextets].
  - constructor.
  - inversion_clear Hb. repeat constructor;
      Z.div_mod_to_equations; lia.
  - inversion_clear Hb as [| ? ? Ha Hb']. inversion_clear Hb' as [| ? ? Hb0 _].
    repeat constructor; Z.div_mod_to_equations; lia.
  - inversion_clear Hb as [| ? ? Ha Hb']. inversion_clear Hb' as [| ? ? Hb0 Hb''].
    inversion_clear Hb'' as [| ? ? Hc Hrest].
    repeat (constructor; [Z.div_mod_to_equations; lia |]). auto.
Qed.

(** The bytes come back from their 6-bit values. *)
Lemma sextetBytes_sextets (bytes : list Z) :
  Forall isByte bytes -> sextetBytes (sextets bytes) = bytes.
Proof.
  unfold isByte. induction bytes as [| a | a b | a b c rest IH] using list_ind3;
    intros Hb; cbn [sextets sextetBytes].
  - reflexivity.
  - inversion_clear Hb. f_equal. Z.div_mod_to_equations; lia.
  - inversion_clear Hb as [| ? ? Ha Hb']. inversion_clear Hb' as [| ? ? Hb0 _].
    f_equal; [| f_equal]; Z.div_mod_to_equations; lia.
  - inversion_clear Hb as [| ? ? Ha Hb']. inversion_clear Hb' as [| ? ? Hb0 Hb''].
    inversion_clear Hb'' as [| ? ? Hc Hrest].
    rewrite IH by assumption.
    f_equal; [| f_equal; [| f_equal]]; Z.div_mod_to_equations; lia.
Qed.

Lemma allSextets_chars (vs : list Z) :
  Forall (fun v => 0 <= v < 64) vs -> allSextets (map sextetChar vs) = Some vs.
Proof.
  induction 1 as [| v vs Hv _ IH]; cbn [map allSextets]; [reflexivity |].
  now rewrite charSextet_sextetChar, IH.
Qed.

(** The length of the encoding, in characters. *)
Lemma encoded_length (bytes : list Z) :
  (List.length (sextets bytes) + List.length (padding (List.length bytes))
   = 4 * ((List.length bytes + 2) / 3))%nat.
Proof.
  induction bytes as [| a | a b | a b c rest IH] using list_ind3;
    try reflexivity.
  cbn [sextets List.length].
  replace (padding (S (S (S (List.length rest))))) with (padding (List.length rest)).
  - replace (S (S (S (List.length rest))) + 2)%nat
      with (1 * 3 + (List.length rest + 2))%nat by lia.
    rewrite Nat.div_add_l by lia. lia.
  - unfold padding.
    replace (S (S (S (List.length rest)))) with (List.length rest + 1 * 3)%nat by lia.
    now rewrite Nat.Div0.mod_add.
Qed.

Lemma sextets_length_mod (bytes : list Z) :
  (List.length (sextets bytes) mod 4 =? 1)%nat = false.
Proof.
  induction bytes as [| a | a b | a b c rest IH] using list_ind3;
    try reflexivity.
  cbn [sextets List.length].
  replace (S (S (S (S (List.length (sextets rest))))))
    with (List.length (sextets rest) + 1 * 4)%nat by lia.
  now rewrite Nat.Div0.mod_add.
Qed.

Lemma stripPadding_encoded (vs : list Z) (n : nat) :
  Forall (fun v => 0 <= v < 64) vs ->
  (List.length (map sextetChar vs ++ padding n) mod 4 = 0)%nat ->
  stripPadding (map sextetChar vs ++ padding n) = map sextetChar vs.
Proof.
  intros Hvs Hlen. unfold stripPadding. rewrite Hlen. cbn [Nat.eqb].
  rewrite rev_app_distr, <- map_rev.
  assert (Hrev : Forall (fun v => 0 <= v < 64) (rev vs))
    by now apply Forall_rev.
  assert (Hback : rev (map sextetChar (rev vs)) = map sextetChar vs)
    by now rewrite <- map_rev, rev_involutive.
  unfold padding. destruct (n mod 3)%nat as [| [| [| k]]]; cbn [rev app].
  - rewrite app_nil_r. destruct (rev vs) as [| v r] eqn:Hr; cbn [map].
    + reflexivity.
    + inversion_clear Hrev as [| ? ? Hv _].
      now rewrite (proj2 (sextetChar_plain Hv)).
  - cbn [N.eqb Pos.eqb]. exact Hback.
  - cbn [N.eqb Pos.eqb]. destruct (rev vs) as [| v r] eqn:Hr; cbn [map].
    + exact Hback.
    + inversion_clear Hrev as [| ? ? Hv _].
      rewrite (proj2 (sextetChar_plain Hv)). exact Hback.
  - rewrite app_nil_r. destruct (rev vs) as [| v r] eqn:Hr; cbn [map].
    + reflexivity.
    + inversion_clear Hrev as [| ? ? Hv _].
      now rewrite (proj2 (sextetChar_plain Hv)).
Qed.

Lemma filter_plain (vs : list Z) (n : nat) :
  Forall (fun v => 0 <= v < 64) vs ->
  filter (fun c => negb (isAsciiWhitespace c)) (map sextetChar vs ++ padding n)
  = map sextetChar vs ++ padding n.
Proof.
  intros Hvs. rewrite filter_app. f_equal.
  - induction Hvs as [| v vs Hv _ IH]; cbn [map filter]; [reflexivity |].
    rewrite (proj1 (sextetChar_plain Hv)). cbn [negb]. now rewrite IH.
  - unfold padding. now destruct (n mod 3)%nat as [| [| [| k]]].
Qed.

(** The transport string of an array of bytes, and what it decodes to. *)
Lemma encode_then_decode (bytes : list Z) :
  Forall isByte bytes ->
  encode bytes = Some (map sextetChar (sextets bytes) ++ padding (List.length bytes)) /\
  decode (map sextetChar (sextets bytes) ++ padding (List.length bytes)) = Some bytes.
Proof.
  intros Hb.
  assert (Hnn : map Z.of_N (map Z.to_N bytes) = bytes).
  { rewrite map_map. rewrite <- (map_id bytes) at 2. apply map_ext_in.
    intros b Hin. rewrite Forall_forall in Hb. specialize (Hb b Hin).
    unfold isByte in Hb. apply Z2N.id. lia. }
  assert (Hsmall : forallb (fun c => N.leb c 255) (map Z.to_N bytes) = true).
  { apply forallb_forall. intros c Hin. apply in_map_iff in Hin.
    destruct Hin as (b & <- & Hin). rewrite Forall_forall in Hb.
    specialize (Hb b Hin). unfold isByte in Hb. apply N.leb_le. lia. }
  pose proof (sextets_range Hb) as Hvs.
  split.
  - unfold encode, btoa. now rewrite Hsmall, Hnn, length_map.
  - unfold decode, atob. rewrite (filter_plain _ Hvs).
    rewrite stripPadding_encoded; [| exact Hvs |].
    + rewrite length_map, sextets_length_mod, (allSextets_chars Hvs).
      rewrite (sextetBytes_sextets Hb). f_equal.
      rewrite map_map. rewrite <- (map_id bytes) at 2. apply map_ext_in.
      intros b Hin. rewrite Forall_forall in Hb. specialize (Hb b Hin).
      unfold isByte in Hb. rewrite Z2N.id by lia. apply Z.mod_small. lia.
    + rewrite length_app, length_map, encoded_length.
      rewrite Nat.mul_comm. apply Nat.Div0.mod_mul.
Qed.

(** X1: for every array of bytes, [encode] returns a transport string, and
    [decode] of that string returns the bytes; the string has four characters
    for every three bytes begun and contains no white space. *)
Theorem decode_encode (bytes : list Z) :
  Forall isByte bytes ->
  exists base64,
    encode bytes = Some base64 /\
    decode base64 = Some bytes /\
    List.length base64 = (4 * ((List.length bytes + 2) / 3))%nat /\
    Forall (fun c => isAsciiWhitespace c = false) base64.
Proof.
  intros Hb. destruct (encode_then_decode Hb) as [Henc Hdec].
  pose proof (sextets_range Hb) as Hvs.
  exists (map sextetChar (sextets bytes) ++ padding (List.length bytes)).
  split; [exact Henc |]. split; [exact Hdec |]. split.
  - rewrite length_app, length_map. apply encoded_length.
  - rewrite <- (filter_plain (List.length bytes) Hvs).
    apply Forall_forall. intros c Hin. apply filter_In in Hin.
    destruct Hin as [_ Hc]. now apply negb_true_iff in Hc.
Qed.

Lemma decode_encode_witness :
  exists base64,
    encode [77; 97; 110; 0; 255] = Some base64 /\
    decode base64 = Some [77; 97; 110; 0; 255] /\
    List.length base64 = (4 * ((5 + 2) / 3))%nat /\
    Forall (fun c => isAsciiWhitespace c = false) base64.
Proof.
  apply (@decode_encode [77; 97; 110; 0; 255]).
  repeat constructor; discriminate.
Defined.

End TransportString.

(** ** More on the PCM codec *)

Section CodecBytes.

Local Open Scope Z_scope.

Lemma int16Bytes_are_bytes (v : Z) : Forall isByte (int16Bytes v).
Proof.
  unfold int16Bytes, isByte. cbn zeta.
  pose proof (Z.mod_pos_bound v 65536 ltac:(lia)) as Hu.
  change 255 with (Z.ones 8). rewrite Z.land_ones, Z.shiftr_div_pow2 by lia.
  change (2 ^ 8) with 256.
  repeat constructor; Z.div_mod_to_equations; lia.
Qed.

Lemma bufferBytes_are_bytes (l : list Z) : Forall isByte (bufferBytes l).
Proof.
  unfold bufferBytes. induction l as [| v l IH]; cbn [flat_map]; [constructor |].
  apply Forall_app. split; [apply int16Bytes_are_bytes | exact IH].
Qed.

Lemma bufferBytes_length (l : list Z) :
  List.length (bufferBytes l) = (2 * List.length l)%nat.
Proof.
  unfold bufferBytes. induction l as [| v l IH]; [reflexivity |].
  cbn [flat_map List.length int16Bytes app]. rewrite IH. lia.
Qed.

(** X2: whatever the samples of a frame are, its payload has two bytes for
    every sample, and the transport string made of the payload decodes to the
    payload. *)
Theorem frame_payload_transport (samples : list Q) :
  List.length (data (createBlob samples)) = (2 * List.length samples)%nat /\
  Forall isByte (data (createBlob samples)) /\
  exists base64,
    encode (data (createBlob samples)) = Some base64 /\
    decode base64 = Some (data (createBlob samples)).
Proof.
  unfold createBlob. cbn [data]. split; [| split].
  - now rewrite bufferBytes_length, length_map.
  - apply bufferBytes_are_bytes.
  - destruct (encode_then_decode (bufferBytes_are_bytes (map floatToInt16 samples)))
      as [Henc Hdec].
    eauto.
Qed.

(** Two bytes put together, low byte first, and taken apart again. *)
Lemma int16Bytes_join (lo hi : Z) :
  isByte lo -> isByte hi ->
  int16Bytes (toInt16 (Z.lor lo (Z.shiftl hi 8))) = [lo; hi].
Proof.
  unfold isByte. intros Hlo Hhi.
  set (u := lo + 256 * hi).
  assert (Hland : Z.land u 255 = lo).
  { change 255 with (Z.ones 8). rewrite Z.land_ones by lia. change (2 ^ 8) with 256.
    unfold u. Z.div_mod_to_equations. lia. }
  assert (Hshift : Z.shiftr u 8 = hi).
  { rewrite Z.shiftr_div_pow2 by lia. change (2 ^ 8) with 256.
    unfold u. Z.div_mod_to_equations. lia. }
  assert (Hjoin : Z.lor lo (Z.shiftl hi 8) = u).
  { rewrite <- Hland at 1. rewrite <- Hshift. apply bytes_join. unfold u. lia. }
  rewrite Hjoin. unfold int16Bytes. cbn zeta.
  assert (Hmod : toInt16 u mod 65536 = u).
  { unfold toInt16. rewrite (Z.mod_small u) by (unfold u; lia).
    destruct (Z.leb_spec 32768 u).
    - symmetry. apply Z.mod_unique with (q := -1); unfold u in *; lia.
    - apply Z.mod_small. unfold u in *. lia. }
  now rewrite Hmod, Hland, Hshift.
Qed.

Lemma int16View_even (bytes : list Z) :
  match int16View bytes with
  | Some l =>
      Nat.even (List.length bytes) = true /\
      (2 * List.length l = List.length bytes)%nat /\
      Forall (fun v => -32768 <= v <= 32767) l /\
      (Forall isByte bytes -> bufferBytes l = bytes)
  | None => Nat.even (List.length bytes) = false
  end.
Proof.
  enough (H : forall n bytes, (List.length bytes <= n)%nat ->
                match int16View bytes with
                | Some l =>
                    Nat.even (List.length bytes) = true /\
                    (2 * List.length l = List.length bytes)%nat /\
                    Forall (fun v => -32768 <= v <= 32767) l /\
                    (Forall isByte bytes -> bufferBytes l = bytes)
                | None => Nat.even (List.length bytes) = false
                end)
    by (apply (H (List.length bytes)); lia).
  clear bytes. induction n as [| n IH]; intros bytes Hn.
  - destruct bytes; [| cbn in Hn; lia]. cbn. repeat split; auto.
  - destruct bytes as [| lo [| hi rest]]; cbn [int16View].
    + cbn. repeat split; auto.
    + reflexivity.
    + specialize (IH rest ltac:(cbn in Hn; lia)).
      destruct (int16View rest) as [l |].
      * destruct IH as (Heven & Hlen & Hrange & Hback).
        cbn [List.length Nat.even]. repeat split.
        -- exact Heven.
        -- cbn [List.length]. lia.
        -- constructor; [apply toInt16_range | exact Hrange].
        -- intros Hb. inversion_clear Hb as [| ? ? Hlo Hb'].
           inversion_clear Hb' as [| ? ? Hhi Hrest].
           unfold bufferBytes. cbn [flat_map].
           rewrite (int16Bytes_join Hlo Hhi). cbn [app]. f_equal. f_equal.
           now apply Hback.
      * cbn [List.length Nat.even]. exact IH.
Qed.

End CodecBytes.

Section CodecDecoding.

Local Open Scope Q_scope.

Lemma int16_sample_range (v : Z) :
  (-32768 <= v <= 32767)%Z -> -1 <= inject_Z v / 32768 /\ inject_Z v / 32768 < 1.
Proof.
  intros Hv. unfold Qle, Qlt, Qdiv, Qmult, Qinv, inject_Z. cbn. lia.
Qed.

Lemma floatToInt16_int16_sample (v : Z) :
  (-32768 <= v <= 32767)%Z -> floatToInt16 (inject_Z v / 32768) = v.
Proof.
  intros Hv. unfold floatToInt16, truncate.
  unfold Qdiv, Qmult, Qinv, inject_Z. cbn [Qnum Qden].
  change (Z.pos (1 * 32768 * 1)) with 32768%Z.
  change (Qnum (1 # 32768)) with 1%Z. cbn [Z.sgn].
  replace (v * 1 * 32768)%Z with (v * 32768)%Z by lia.
  rewrite Z.quot_mul by lia. now apply toInt16_id.
Qed.



End CodecDecoding.

(** ** Playback: interruption, natural end, [playAudioData] *)

Section PlaybackControl.

Local Open Scope nat_scope.

Lemma forEach_stop_delete (srcs : list NodeId) (w : World) :
  forEach srcs
    (fun n => stopSource n ;;
              modify (fun w => set_sources (removeSource n (sources w)) w)) w
  = Val tt (set_sources (fold_left (fun l n => removeSource n l) srcs (sources w))
              (set_log (log w ++ map SourceStop srcs) w)).
Proof.
  revert w. induction srcs as [| n srcs IH]; intros w; cbn [forEach map fold_left].
  - rewrite app_nil_r. now destruct w.
  - unfold bind at 1. unfold stopSource, bind, emit, modify at 1 2.
    rewrite IH. cbn. now rewrite <- app_assoc.
Qed.

Lemma remove_all (l acc : list NodeId) :
  (forall x, In x acc -> In x l) ->
  fold_left (fun a n => removeSource n a) l acc = [].
Proof.
  revert acc. induction l as [| n l IH]; intros acc Hsub; cbn [fold_left].
  - destruct acc as [| x acc]; [reflexivity |]. destruct (Hsub x (or_introl eq_refl)).
  - apply IH. intros x Hin. unfold removeSource in Hin. apply filter_In in Hin.
    destruct Hin as [Hin Hneq]. destruct (Hsub x Hin) as [-> | H]; [| exact H].
    now rewrite Nat.eqb_refl in Hneq.
Qed.

Lemma handleInterrupted_spec (m : LiveServerMessage) (p : Params) (w : World) :
  interrupted m = true ->
  transcriptionOnly (props p) = false ->
  handleInterrupted m p w
  = Val tt (set_log (log w ++ map SourceStop (sources w)
                     ++ [OnAssistantSpeakingStateChange false])
              (set_nextStartTime 0 (set_sources [] w))).
Proof.
  intros Hi Hmode. unfold handleInterrupted. rewrite Hi, Hmode. cbn [andb negb when].
  unfold bind at 1. unfold gets at 1. unfold bind at 1.
  rewrite forEach_stop_delete. rewrite remove_all by auto.
  unfold bind, modify, callOnAssistantSpeakingStateChange, emit, modify. cbn.
  now rewrite <- app_assoc.
Qed.

Lemma onmessage_interruptedSignal (w : World) (c : ConnId) (t : Q) :
  transcriptionOnly (props (paramsRef w)) = false ->
  onmessage c interruptedSignal t w
  = Val tt (set_log (log w ++ map SourceStop (sources w)
                     ++ [OnAssistantSpeakingStateChange false])
              (set_nextStartTime 0 (set_sources [] w))).
Proof.
  intros Hmode. unfold onmessage. unfold bind at 1, gets at 1.
  unfold bind at 1. change (handleTranscription c interruptedSignal (paramsRef w) w)
    with (Val tt w).
  unfold bind at 1. change (handleTurnComplete c interruptedSignal w) with (Val tt w).
  unfold bind at 1. unfold handleAudio. rewrite Hmode. cbn [negb when].
  unfold bind at 1, gets at 1. cbn [inlineData interruptedSignal]. unfold ret at 1.
  now rewrite handleInterrupted_spec.
Qed.

(** X4: when the server tells that the user interrupted, a hook that plays
    audio stops every active source, in the order in which they were started,
    empties the active set, puts the cursor back to zero and tells the
    speaking observer [false]; the connection is left as it is.  A hook in
    transcription-only mode does nothing at all. *)
Theorem interruption_clears_playback (w : World) (c : ConnId) (t : Q) :
  (transcriptionOnly (props (paramsRef w)) = false ->
   exists w',
     onmessage c interruptedSignal t w = Val tt w' /\
     sources w' = [] /\
     nextStartTime w' = 0%Q /\
     log w' = log w ++ map SourceStop (sources w)
              ++ [OnAssistantSpeakingStateChange false] /\
     connectionOf w' = connectionOf w) /\
  (transcriptionOnly (props (paramsRef w)) = true ->
   onmessage c interruptedSignal t w = Val tt w).
Proof.
  split; intros Hmode.
  - rewrite onmessage_interruptedSignal by exact Hmode.
    eexists. split; [reflexivity |]. cbn. auto.
  - unfold onmessage. unfold bind at 1, gets at 1.
    unfold bind at 1. change (handleTranscription c interruptedSignal (paramsRef w) w)
      with (Val tt w).
    unfold bind at 1. change (handleTurnComplete c interruptedSignal w) with (Val tt w).
    unfold bind at 1. unfold handleAudio, handleInterrupted. rewrite Hmode. reflexivity.
Qed.

Lemma interruption_clears_playback_witness :
  exists w',
    onmessage 0 interruptedSignal 0%Q connectedWorld = Val tt w' /\
    sources w' = [] /\
    nextStartTime w' = 0%Q /\
    log w' = log connectedWorld ++ map SourceStop (sources connectedWorld)
             ++ [OnAssistantSpeakingStateChange false] /\
    connectionOf w' = connectionOf connectedWorld.
Proof.
  apply (proj1 (interruption_clears_playback connectedWorld 0 0%Q)).
  reflexivity.
Defined.

Lemma scheduled_stops (srcs : list NodeId) : scheduled (map SourceStop srcs) = [].
Proof. induction srcs as [| n srcs IH]; [reflexivity | exact IH]. Qed.



(** X6: audio that cannot be decoded makes [onmessage] fail half way.  The
    speaking observer has been told [true] and the cursor has been moved up
    to the clock reading, but no source is started; the rest of the handler
    is skipped, so an interruption carried by the same message stops
    nothing. *)
Theorem undecodable_audio_aborts_the_handler (w : World) (c : ConnId)
    (bytes : list Z) (t : Q) :
  playsAudio w ->
  bytes <> [] ->
  decodeAudioData bytes 24000 1 = None ->
  exists e w',
    onmessage c (interruptedAudio bytes) t w = Exn e w' /\
    log w' = log w ++ [OnAssistantSpeakingStateChange true] /\
    sources w' = sources w /\
    nextStartTime w' = Math_max (nextStartTime w) t /\
    connectionOf w' = connectionOf w.
Proof.
  intros [Hmode Hctx] Hne Hdec. destruct bytes as [| b bytes]; [easy |].
  unfold onmessage. unfold bind at 1, gets at 1.
  unfold bind at 1. change (handleTranscription c (interruptedAudio (b :: bytes))
                              (paramsRef w) w) with (Val tt w).
  unfold bind at 1. change (handleTurnComplete c (interruptedAudio (b :: bytes)) w)
    with (Val tt w).
  unfold bind at 1. unfold handleAudio. rewrite Hmode. cbn [negb when].
  unfold bind at 1, gets at 1. cbn [inlineData interruptedAudio]. rewrite Hctx.
  cbn [when]. unfold playFragment. rewrite Hdec.
  unfold callOnAssistantSpeakingStateChange, bind, emit, modify, throw.
  eexists _, _. split; [reflexivity |]. cbn. auto.
Qed.

Lemma undecodable_audio_aborts_the_handler_witness :
  sources speakingWorld = [0; 1] /\
  exists e w',
    onmessage 0 (interruptedAudio [0; 64; 1]%Z) (1 # 2) speakingWorld = Exn e w' /\
    log w' = log speakingWorld ++ [OnAssistantSpeakingStateChange true] /\
    sources w' = sources speakingWorld /\
    nextStartTime w' = Math_max (nextStartTime speakingWorld) (1 # 2) /\
    connectionOf w' = connectionOf speakingWorld.
Proof.
  split; [vm_compute; reflexivity |].
  apply (@undecodable_audio_aborts_the_handler speakingWorld 0 [0; 64; 1]%Z (1 # 2)).
  - split; reflexivity.
  - discriminate.
  - reflexivity.
Defined.

End PlaybackControl.

(** ** What the handlers add to the log *)

Section Emissions.

Variable P : Effect -> Prop.

Lemma emitsOnly_ret {A} (a : A) : emitsOnly P (ret a).
Proof. intros w. exists []. now rewrite app_nil_r. Qed.

Lemma emitsOnly_throw {A} (e : Thrown) : emitsOnly P (@throw A e).
Proof. intros w. exists []. now rewrite app_nil_r. Qed.

Lemma emitsOnly_gets {A} (g : World -> A) : emitsOnly P (gets g).
Proof. intros w. exists []. now rewrite app_nil_r. Qed.

Lemma emitsOnly_modify (g : World -> World) :
  (forall w, log (g w) = log w) -> emitsOnly P (modify g).
Proof. intros Hg w. exists []. cbn. now rewrite Hg, app_nil_r. Qed.

Lemma emitsOnly_emit (e : Effect) : P e -> emitsOnly P (emit e).
Proof. intros He w. exists [e]. cbn. auto. Qed.

Lemma emitsOnly_bind {A B} (c : M A) (k : A -> M B) :
  emitsOnly P c -> (forall a, emitsOnly P (k a)) -> emitsOnly P (bind c k).
Proof.
  intros Hc Hk w. unfold bind. destruct (Hc w) as (l1 & Hl1 & HP1).
  destruct (c w) as [a w1 | e w1]; cbn [worldOf] in *.
  - destruct (Hk a w1) as (l2 & Hl2 & HP2). exists (l1 ++ l2).
    rewrite Hl2, Hl1, app_assoc. split; [reflexivity |]. now apply Forall_app.
  - eauto.
Qed.

Lemma emitsOnly_tryCatch {A} (c : M A) (h : Thrown -> M A) :
  emitsOnly P c -> (forall e, emitsOnly P (h e)) -> emitsOnly P (tryCatch c h).
Proof.
  intros Hc Hh w. unfold tryCatch. destruct (Hc w) as (l1 & Hl1 & HP1).
  destruct (c w) as [a w1 | e w1]; cbn [worldOf] in *.
  - eauto.
  - destruct (Hh e w1) as (l2 & Hl2 & HP2). exists (l1 ++ l2).
    rewrite Hl2, Hl1, app_assoc. split; [reflexivity |]. now apply Forall_app.
Qed.

Lemma emitsOnly_when (b : bool) (c : M unit) :
  emitsOnly P c -> emitsOnly P (when b c).
Proof. intros Hc. destruct b; [exact Hc | apply emitsOnly_ret]. Qed.

Lemma emitsOnly_forEach {A} (l : list A) (body : A -> M unit) :
  (forall x, emitsOnly P (body x)) -> emitsOnly P (forEach l body).
Proof.
  intros Hb. induction l as [| x l IH]; cbn [forEach].
  - apply emitsOnly_ret.
  - apply emitsOnly_bind; [apply Hb | intros _; exact IH].
Qed.

Lemma emitsOnly_getAiInstance : emitsOnly P getAiInstance.
Proof.
  intros w. exists []. rewrite app_nil_r. split; [| constructor].
  unfold getAiInstance.
  destruct (aiInstance w); [reflexivity |].
  destruct (process w) as [| | [apiKey |]]; try reflexivity.
  destruct (truthy apiKey); reflexivity.
Qed.

Lemma emitsOnly_liveConnect (instruction : jsstring) :
  (forall c, P (LiveConnect c instruction)) -> emitsOnly P (liveConnect instruction).
Proof.
  intros HP w. unfold liveConnect. destruct (connectThrows w).
  - exists []. now rewrite app_nil_r.
  - exists [LiveConnect (connCount w) instruction]. cbn. auto.
Qed.

(** What a run adds to the log, from what each event may add. *)
Lemma run_emitsOnly (I : World -> Prop) :
  (forall ev w, I w -> enabled ev w = true ->
     I (worldOf (handle ev w)) /\
     exists l, log (worldOf (handle ev w)) = log w ++ l /\ Forall P l) ->
  forall evs w w', I w -> run evs w = Some w' ->
    I w' /\ exists l, log w' = log w ++ l /\ Forall P l.
Proof.
  intros Hev evs. induction evs as [| ev evs IH]; intros w w' Hw; cbn [run].
  - intros H. injection H as <-. split; [exact Hw |]. exists []. now rewrite app_nil_r.
  - unfold step. destruct (enabled ev w) eqn:Hen; [| discriminate].
    intros Hrun. destruct (Hev ev w Hw Hen) as (Hw1 & l1 & Hl1 & HP1).
    destruct (IH _ _ Hw1 Hrun) as (Hw' & l2 & Hl2 & HP2).
    split; [exact Hw' |]. exists (l1 ++ l2).
    rewrite Hl2, Hl1, app_assoc. split; [reflexivity |]. now apply Forall_app.
Qed.

End Emissions.

Ltac emits_step tac :=
  lazymatch goal with
  | |- Notions.emitsOnly _ (Live.bind _ _) => apply emitsOnly_bind; [| intros ?]
  | |- Notions.emitsOnly _ (Live.tryCatch _ _) => apply emitsOnly_tryCatch; [| intros ?]
  | |- Notions.emitsOnly _ (Live.ret _) => apply emitsOnly_ret
  | |- Notions.emitsOnly _ (Live.throw _) => apply emitsOnly_throw
  | |- Notions.emitsOnly _ (Live.gets _) => apply emitsOnly_gets
  | |- Notions.emitsOnly _ (Live.when _ _) => apply emitsOnly_when
  | |- Notions.emitsOnly _ (Live.forEach _ _) => apply emitsOnly_forEach; intros ?
  | |- Notions.emitsOnly _ (Live.modify _) => apply emitsOnly_modify; intros ?; reflexivity
  | |- Notions.emitsOnly _ (Live.emit _) => apply emitsOnly_emit; tac
  | |- Notions.emitsOnly _ Live.getAiInstance => apply emitsOnly_getAiInstance
  | |- Notions.emitsOnly _ (Live.liveConnect _) =>
      apply emitsOnly_liveConnect; intros ?; tac
  | |- Notions.emitsOnly _ (let _ := _ in _) => cbv zeta
  | |- Notions.emitsOnly _ (match ?x with _ => _ end) => destruct x
  end.

Ltac unfold_handlers :=
  unfold Live.handle, Live.startSession, Live.openConnection, Live.stopSession,
    Live.sendAudioData, Live.render, Live.onopen, Live.onerror, Live.onclose,
    Live.onended, Live.setConnectionState, Live.callOnApiKeyError,
    Live.callOnLiveTranscript, Live.callOnAssistantSpeakingStateChange,
    Live.stopSource, Live.setTurn.

Ltac unfold_message_handlers :=
  unfold Live.handleTranscription, Live.handleTurnComplete, Live.handleInterrupted,
    Live.setConnectionState, Live.callOnApiKeyError,
    Live.callOnLiveTranscript, Live.callOnAssistantSpeakingStateChange,
    Live.stopSource, Live.setTurn.

(** ** [trim] *)

Section Trimming.

Lemma trimStart_noLeadingWhiteSpace (s : jsstring) :
  noLeadingWhiteSpace (trimStart s).
Proof.
  induction s as [| c s IH]; cbn [trimStart]; [exact I |].
  destruct (isWhiteSpace c) eqn:Hc; [exact IH | exact Hc].
Qed.

Lemma trimStart_split (s : jsstring) :
  exists ws, s = ws ++ trimStart s /\ forallb isWhiteSpace ws = true.
Proof.
  induction s as [| c s (ws & Hs & Hws)]; cbn [trimStart].
  - now exists [].
  - destruct (isWhiteSpace c) eqn:Hc.
    + exists (c :: ws). cbn [forallb app]. rewrite Hc, Hws, <- Hs. auto.
    + now exists [].
Qed.

Lemma trimStart_fixed (s : jsstring) : noLeadingWhiteSpace s -> trimStart s = s.
Proof. destruct s as [| c s]; cbn; [reflexivity |]. now intros ->. Qed.

Lemma trimEnd_fixed (s : jsstring) : noTrailingWhiteSpace s -> trimEnd s = s.
Proof.
  unfold noTrailingWhiteSpace, trimEnd. intros H.
  now rewrite trimStart_fixed, rev_involutive.
Qed.

(** [trimEnd] keeps a beginning of the string. *)
Lemma trimEnd_split (s : jsstring) :
  exists ws, s = trimEnd s ++ ws /\ forallb isWhiteSpace ws = true.
Proof.
  unfold trimEnd. destruct (trimStart_split (rev s)) as (ws & Hs & Hws).
  exists (rev ws). split.
  - rewrite <- rev_app_distr, <- Hs. now rewrite rev_involutive.
  - rewrite forallb_forall in *. intros x Hx. apply Hws. now apply in_rev.
Qed.

Lemma trim_trimmed (s : jsstring) : trimmed (trim s).
Proof.
  unfold trimmed, trim. split.
  - pose proof (trimStart_noLeadingWhiteSpace s) as Hlead.
    destruct (trimEnd_split (trimStart s)) as (ws & Hs & _).
    destruct (trimEnd (trimStart s)) as [| c r]; [exact I |].
    rewrite Hs in Hlead. exact Hlead.
  - unfold noTrailingWhiteSpace, trimEnd. rewrite rev_involutive.
    apply trimStart_noLeadingWhiteSpace.
Qed.

Lemma trim_fixed (s : jsstring) : trimmed s -> trim s = s.
Proof.
  intros [Hl Ht]. unfold trim. rewrite (trimStart_fixed _ Hl). now apply trimEnd_fixed.
Qed.

End Trimming.

(** ** Two things the hook never does *)

Section Never.

Lemma handle_emits_trimmed (ev : Event) : emitsOnly turnIsTrimmed (handle ev).
Proof.
  destruct ev; unfold_handlers;
    try (unfold onmessage, handleAudio, playFragment; unfold_message_handlers);
    repeat emits_step ltac:(first [exact I | split; apply trim_trimmed]).
Qed.

Lemma turns_trimmed (l : list Effect) (u a : jsstring) :
  Forall turnIsTrimmed l -> In (u, a) (turns l) -> trimmed u /\ trimmed a.
Proof.
  intros Hl Hin. unfold turns in Hin. apply in_flat_map in Hin.
  destruct Hin as (e & He & Hin). rewrite Forall_forall in Hl. specialize (Hl e He).
  destruct e; cbn in Hin; try contradiction. destruct Hin as [Heq | []].
  injection Heq as -> ->. exact Hl.
Qed.

(** X7: whatever happens to the hook after it is mounted, every pair of
    strings it hands to the turn observer is trimmed: neither string begins
    or ends with white space. *)
Theorem delivered_turns_are_trimmed (p : Props) (cached : bool) (env : ProcessEnv)
    (failure : option Thrown) (evs : list Event) (w : World) :
  run evs (mount p cached env failure) = Some w ->
  forall u a, In (u, a) (turns (log w)) -> trimmed u /\ trimmed a.
Proof.
  intros Hrun u a.
  destruct (@run_emitsOnly turnIsTrimmed (fun _ => True)
              (fun ev w _ _ => conj I (handle_emits_trimmed ev w)) evs _ _ I Hrun)
    as (_ & l & Hl & HP).
  cbn in Hl. subst l. now apply turns_trimmed.
Qed.

Lemma delivered_turns_are_trimmed_witness :
  exists w,
    run [CallStartSession; TransportOpen 0%nat;
         TransportMessage 0%nat (inputFragment (lit "  so, um ")) 0;
         TransportMessage 0%nat turnCompleteSignal 0] freshWorld = Some w /\
    turns (log w) = [(lit "so, um", [])] /\
    forall u a, In (u, a) (turns (log w)) -> trimmed u /\ trimmed a.
Proof.
  eexists. split; [vm_compute; reflexivity |]. split; [vm_compute; reflexivity |].
  apply (@delivered_turns_are_trimmed exampleProps false (EnvDefined (Some (lit "key")))
           None
           [CallStartSession; TransportOpen 0%nat;
            TransportMessage 0%nat (inputFragment (lit "  so, um ")) 0;
            TransportMessage 0%nat turnCompleteSignal 0]).
  vm_compute; reflexivity.
Defined.

Lemma handleAudio_without_context (m : LiveServerMessage) (p : Params) (t : Q)
    (w : World) :
  outputAudioContext w = false -> handleAudio m p t w = Val tt w.
Proof.
  intros Hctx. unfold handleAudio. destruct (transcriptionOnly (props p)); cbn;
    [reflexivity |].
  unfold bind, gets. rewrite Hctx. now destruct (inlineData m) as [[| b bytes] |].
Qed.

Lemma getAiInstance_keeps {B} (f : World -> B) :
  (forall w, f (set_aiInstance true w) = f w) -> keeps f getAiInstance.
Proof.
  intros Hf w. unfold getAiInstance. destruct (aiInstance w); [reflexivity |].
  destruct (process w) as [| | [apiKey |]]; try reflexivity.
  destruct (truthy apiKey); [apply Hf | reflexivity].
Qed.

Lemma liveConnect_keeps {B} (f : World -> B) instruction :
  (forall w l t n lv,
     f (set_log l (set_transcriptions t (set_connCount n (set_live lv w)))) = f w) ->
  keeps f (liveConnect instruction).
Proof.
  intros Hf w. unfold liveConnect. destruct (connectThrows w); [reflexivity |].
  apply Hf.
Qed.

Lemma handle_keeps_context (ev : Event) : keeps outputAudioContext (handle ev).
Proof.
  destruct ev; unfold_handlers;
    try (unfold onmessage, handleAudio, playFragment; unfold_message_handlers);
    repeat first [apply getAiInstance_keeps; reflexivity
                 | apply liveConnect_keeps; reflexivity | keeps_step].
Qed.

Let quiet (e : Effect) : Prop := audible e = false.

Lemma emitsOnly_withoutContext {A} (c : M A) :
  emitsOnly quiet c -> keeps outputAudioContext c -> emitsOnlyWithoutContext quiet c.
Proof. intros He Hk w Hctx. rewrite Hk. auto. Qed.

Lemma emitsOnlyWithoutContext_bind {A B} (c : M A) (k : A -> M B) :
  emitsOnlyWithoutContext quiet c ->
  (forall a, emitsOnlyWithoutContext quiet (k a)) ->
  emitsOnlyWithoutContext quiet (bind c k).
Proof.
  intros Hc Hk w Hctx. unfold bind. destruct (Hc w Hctx) as (Hctx1 & l1 & Hl1 & HP1).
  destruct (c w) as [a w1 | e w1]; cbn [worldOf] in *.
  - destruct (Hk a w1 Hctx1) as (Hctx2 & l2 & Hl2 & HP2). split; [exact Hctx2 |].
    exists (l1 ++ l2). rewrite Hl2, Hl1, app_assoc. split; [reflexivity |].
    now apply Forall_app.
  - eauto.
Qed.

Lemma handle_quiet (ev : Event) : emitsOnlyWithoutContext quiet (handle ev).
Proof.
  destruct ev as [| | audioData | p | c | c m t | c msg onLine | c | n];
    try solve [apply emitsOnly_withoutContext; [| apply handle_keeps_context];
               unfold_handlers; repeat emits_step ltac:(reflexivity)].
  cbn [handle]. unfold onmessage.
  apply emitsOnlyWithoutContext_bind; [| intros p; apply emitsOnlyWithoutContext_bind;
    [| intros _; apply emitsOnlyWithoutContext_bind;
       [| intros _; apply emitsOnlyWithoutContext_bind; [| intros _]]]].
  - apply emitsOnly_withoutContext; [apply emitsOnly_gets | apply keeps_gets].
  - apply emitsOnly_withoutContext; unfold_message_handlers;
      [repeat emits_step ltac:(reflexivity) | keeps_auto].
  - apply emitsOnly_withoutContext; unfold_message_handlers;
      [repeat emits_step ltac:(reflexivity) | keeps_auto].
  - intros w Hctx. rewrite handleAudio_without_context by exact Hctx.
    split; [exact Hctx |]. exists []. now rewrite app_nil_r.
  - apply emitsOnly_withoutContext; unfold_message_handlers;
      [repeat emits_step ltac:(reflexivity) | keeps_auto].
Qed.

Lemma quiet_scheduled (l : list Effect) : Forall quiet l -> scheduled l = [].
Proof.
  induction 1 as [| e l He _ IH]; [reflexivity |].
  unfold scheduled in *. cbn [flat_map]. rewrite IH.
  destruct e; try reflexivity. discriminate He.
Qed.

(** X8: a hook that was mounted for transcription only has no output
    context, and nothing that happens later gives it one, not even a render
    with other props.  So it never starts a source and never tells the
    speaking observer [true], whatever audio the server sends, and
    [playAudioData] returns at once without doing anything. *)
Theorem mounted_for_transcription_stays_silent (p : Props) (cached : bool)
    (env : ProcessEnv) (failure : option Thrown) (evs : list Event) (w : World) :
  transcriptionOnly p = true ->
  run evs (mount p cached env failure) = Some w ->
  Forall (fun e => audible e = false) (log w) /\
  scheduled (log w) = [] /\
  forall base64Audio, playAudioData base64Audio w = Val ResolvedAtOnce w.
Proof.
  intros Hmode Hrun.
  assert (Hctx0 : outputAudioContext (mount p cached env failure) = false)
    by (cbn; now rewrite Hmode).
  destruct (@run_emitsOnly quiet (fun w => outputAudioContext w = false)
              (fun ev w Hw _ => handle_quiet ev w Hw) evs _ _ Hctx0 Hrun)
    as (Hctx & l & Hl & HP).
  cbn in Hl. subst l. split; [exact HP |]. split; [now apply quiet_scheduled |].
  intros base64Audio. unfold playAudioData, bind, gets. rewrite Hctx.
  now rewrite orb_true_r.
Qed.

Lemma mounted_for_transcription_stays_silent_witness :
  exists w,
    run [CallStartSession; TransportOpen 0%nat;
         Rerender exampleProps;
         TransportMessage 0%nat (audioFragment [0; 64; 0; 192]%Z) 0] 
        (mount transcriptionProps false (EnvDefined (Some (lit "key"))) None)
    = Some w /\
    transcriptionOnly (props (paramsRef w)) = false /\
    Forall (fun e => audible e = false) (log w) /\
    scheduled (log w) = [] /\
    forall base64Audio, playAudioData base64Audio w = Val ResolvedAtOnce w.
Proof.
  eexists. split; [vm_compute; reflexivity |]. split; [vm_compute; reflexivity |].
  apply (@mounted_for_transcription_stays_silent transcriptionProps false
           (EnvDefined (Some (lit "key"))) None
           [CallStartSession; TransportOpen 0%nat;
            Rerender exampleProps;
            TransportMessage 0%nat (audioFragment [0; 64; 0; 192]%Z) 0]).
  - reflexivity.
  - vm_compute; reflexivity.
Defined.

End Never.

(** ** The set of active sources *)

Section ActiveSources.

Local Open Scope nat_scope.

Lemma preserves_bind (I : World -> Prop) {A B} (c : M A) (k : A -> M B) :
  preserves I c -> (forall a, preserves I (k a)) -> preserves I (bind c k).
Proof.
  intros Hc Hk w Hw. unfold bind. specialize (Hc w Hw).
  destruct (c w) as [a w1 | e w1]; cbn [worldOf] in *; [now apply Hk | exact Hc].
Qed.

Lemma identifiersFresh_keeps {A} (c : M A) :
  keeps (fun w => (sources w, nodeCount w)) c -> preserves identifiersFresh c.
Proof.
  intros Hk w Hw. specialize (Hk w). injection Hk as Hs Hn.
  unfold identifiersFresh. now rewrite Hs, Hn.
Qed.

Lemma identifiersFresh_playFragment bytes t :
  preserves identifiersFresh (playFragment bytes t).
Proof.
  intros w [Hnd Hlt]. unfold identifiersFresh, playFragment. unfold_hook. cbn.
  destruct (decodeAudioData bytes 24000 1) as [a |]; cbn; [| now split].
  split.
  - apply (Permutation_NoDup (Permutation_cons_append (sources w) (nodeCount w))).
    constructor; [| exact Hnd]. intros Hin. specialize (Hlt _ Hin). lia.
  - intros n Hin. apply in_app_or in Hin. destruct Hin as [Hin | [<- | []]].
    + specialize (Hlt _ Hin). lia.
    + lia.
Qed.

Lemma identifiersFresh_handle (ev : Event) : preserves identifiersFresh (handle ev).
Proof.
  destruct ev as [| | audioData | p | c | c m t | c msg onLine | c | n];
    try solve [apply identifiersFresh_keeps; unfold_handlers;
               repeat first [apply getAiInstance_keeps; reflexivity
                            | apply liveConnect_keeps; reflexivity | keeps_step]].
  - intros w _. cbn [handle]. rewrite stopSession_spec. cbn. split; [constructor | easy].
  - cbn [handle]. unfold onmessage.
    apply preserves_bind; [| intros p; apply preserves_bind;
      [| intros _; apply preserves_bind; [| intros _; apply preserves_bind; [| intros _]]]].
    + apply identifiersFresh_keeps. keeps_auto.
    + apply identifiersFresh_keeps. unfold_message_handlers. keeps_auto.
    + apply identifiersFresh_keeps. unfold_message_handlers. keeps_auto.
    + unfold handleAudio. destruct (negb (transcriptionOnly (props p))); cbn [when];
        [| now intros w Hw].
      apply preserves_bind; [now intros w Hw |]. intros outputCtx.
      destruct (inlineData m) as [[| b bytes] |]; try (now intros w Hw).
      destruct outputCtx; cbn [when]; [| now intros w Hw].
      apply identifiersFresh_playFragment.
    + intros w Hw.
      destruct (interrupted m) eqn:Hi; destruct (transcriptionOnly (props p)) eqn:Hmode;
        try (unfold handleInterrupted; rewrite Hi, ?Hmode; cbn; exact Hw).
      rewrite handleInterrupted_spec by assumption. cbn. split; [constructor | easy].
  - intros w [Hnd Hlt]. cbn [handle].
    pose proof (onended_sources n w) as Hs.
    assert (Hn : nodeCount (worldOf (onended n w)) = nodeCount w).
    { assert (Hk : keeps nodeCount (onended n))
        by (unfold onended, callOnAssistantSpeakingStateChange; keeps_auto).
      apply Hk. }
    unfold identifiersFresh. rewrite Hs, Hn. unfold removeSource. split.
    + now apply NoDup_filter.
    + intros x Hin. apply filter_In in Hin. now apply Hlt.
Qed.

Lemma reachable_identifiersFresh (w : World) : reachable w -> identifiersFresh w.
Proof.
  induction 1 as [p cached env failure | w ev w' _ IH Hstep].
  - split; [constructor | easy].
  - unfold step in Hstep. destruct (enabled ev w); [| discriminate].
    injection Hstep as <-. now apply identifiersFresh_handle.
Qed.

Lemma onended_log (n : NodeId) (w : World) :
  log (worldOf (onended n w))
  = log w ++ match removeSource n (sources w) with
             | [] => [OnAssistantSpeakingStateChange false]
             | _ :: _ => []
             end.
Proof.
  unfold_hook. cbn. destruct (removeSource n (sources w)); cbn; [reflexivity |].
  now rewrite app_nil_r.
Qed.

Lemma removeSource_absent (n : NodeId) (l : list NodeId) :
  ~ In n l -> removeSource n l = l.
Proof.
  intros Hn. unfold removeSource. induction l as [| x l IH]; cbn; [reflexivity |].
  destruct (Nat.eqb_spec n x) as [-> | Hneq]; cbn.
  - destruct Hn. now left.
  - rewrite IH; [reflexivity |]. intros Hin. apply Hn. now right.
Qed.

Lemma removeSource_Permutation (n : NodeId) (l l' : list NodeId) :
  Permutation l l' -> Permutation (removeSource n l) (removeSource n l').
Proof.
  unfold removeSource. induction 1; cbn.
  - constructor.
  - destruct (negb (n =? x)); [now constructor | assumption].
  - destruct (negb (n =? x)), (negb (n =? y)); try apply Permutation_refl.
    apply perm_swap.
  - eapply Permutation_trans; eassumption.
Qed.

(** The sources that stay when one of them ends. *)
Lemma removeSource_ended (n : NodeId) (rest l : list NodeId) :
  NoDup l -> Permutation (n :: rest) l -> Permutation rest (removeSource n l).
Proof.
  intros Hnd Hperm.
  assert (Hnd' : NoDup (n :: rest))
    by (apply (Permutation_NoDup (Permutation_sym Hperm) Hnd)).
  inversion Hnd' as [| ? ? Hnotin _]; subst.
  pose proof (removeSource_Permutation n Hperm) as H.
  unfold removeSource at 1 in H. cbn [filter] in H. rewrite Nat.eqb_refl in H.
  cbn [negb] in H. fold (removeSource n rest) in H.
  now rewrite (@removeSource_absent _ _ Hnotin) in H.
Qed.

(** X9: while the assistant's audio plays, the sources end one by one, in
    any order.  Each [ended] event takes its source out of the active set;
    the speaking observer hears nothing until the last source ends, and is
    then told [false], once.  The cursor and the connection are not
    touched. *)
Theorem speaking_ends_with_the_last_source (w : World) (early : list NodeId)
    (last : NodeId) :
  reachable w ->
  Permutation (early ++ [last]) (sources w) ->
  exists w1 w',
    run (map SourceEnded early) w = Some w1 /\
    sources w1 = [last] /\ log w1 = log w /\
    step (SourceEnded last) w1 = Some w' /\
    sources w' = [] /\
    log w' = log w ++ [OnAssistantSpeakingStateChange false] /\
    nextStartTime w' = nextStartTime w /\
    connectionOf w' = connectionOf w.
Proof.
  intros Hreach. pose proof (proj1 (reachable_identifiersFresh Hreach)) as Hnd.
  clear Hreach. revert w Hnd.
  induction early as [| n early IH]; intros w Hnd Hperm.
  - cbn [app] in Hperm. apply Permutation_length_1_inv in Hperm.
    exists w, (worldOf (onended last w)).
    pose proof (onended_keeps last w) as Hk.
    pose proof (f_equal fst Hk) as Hk1. pose proof (f_equal snd Hk) as Hk2.
    cbn [fst snd] in Hk1, Hk2.
    rewrite onended_sources, onended_log, Hperm. unfold removeSource. cbn [filter].
    rewrite Nat.eqb_refl. cbn [negb]. auto 10.
  - cbn [app] in Hperm.
    pose proof (removeSource_ended Hnd Hperm) as Hrest.
    set (w0 := worldOf (onended n w)).
    assert (Hs0 : sources w0 = removeSource n (sources w)) by apply onended_sources.
    assert (Hl0 : log w0 = log w).
    { unfold w0. rewrite onended_log.
      destruct (removeSource n (sources w)) as [| x l].
      - apply Permutation_sym, Permutation_nil in Hrest. now destruct early.
      - apply app_nil_r. }
    pose proof (onended_keeps n w) as Hk.
    pose proof (f_equal fst Hk) as Hk1. pose proof (f_equal snd Hk) as Hk2.
    cbn [fst snd] in Hk1, Hk2. fold w0 in Hk1, Hk2.
    destruct (IH w0) as (w1 & w' & Hrun & Hs1 & Hl1 & Hstep & Hs' & Hl' & Hn' & Hc').
    + rewrite Hs0. unfold removeSource. now apply NoDup_filter.
    + now rewrite Hs0.
    + exists w1, w'. cbn [map run step enabled handle]. fold w0.
      rewrite Hrun, Hl1, Hl', Hn', Hc', Hl0, Hk1, Hk2. auto 10.
Qed.

Lemma speakingWorld_reachable : reachable speakingWorld.
Proof.
  apply (@run_reachable speakingEvents freshWorld); [apply reachable_mount |].
  vm_compute; reflexivity.
Qed.

Lemma speaking_ends_with_the_last_source_witness :
  sources speakingWorld = [0; 1] /\
  exists w1 w',
    run (map SourceEnded [1]) speakingWorld = Some w1 /\
    sources w1 = [0] /\ log w1 = log speakingWorld /\
    step (SourceEnded 0) w1 = Some w' /\
    sources w' = [] /\
    log w' = log speakingWorld ++ [OnAssistantSpeakingStateChange false] /\
    nextStartTime w' = nextStartTime speakingWorld /\
    connectionOf w' = connectionOf speakingWorld.
Proof.
  split; [vm_compute; reflexivity |].
  apply (@speaking_ends_with_the_last_source speakingWorld [1] 0).
  - exact speakingWorld_reachable.
  - replace (sources speakingWorld) with [0; 1] by (vm_compute; reflexivity).
    apply perm_swap.
Defined.

End ActiveSources.

(** ** [playAudioData] *)

Section PlayAudioData.

Local Open Scope nat_scope.

Lemma decode_empty : decode [] = Some [].
Proof. reflexivity. Qed.

Lemma stopSession_stops (w : World) (n : NodeId) :
  In (SourceStop n) (closeRequest w ++ map SourceStop (sources w)
                     ++ [OnAssistantSpeakingStateChange false]) ->
  In n (sources w).
Proof.
  intros Hin. apply in_app_or in Hin. destruct Hin as [Hin | Hin].
  - unfold closeRequest in Hin. destruct (sessionPromiseRef w); cbn in Hin;
      [destruct Hin as [H | []]; discriminate | destruct Hin].
  - apply in_app_or in Hin. destruct Hin as [Hin | [H | []]]; [| discriminate].
    apply in_map_iff in Hin. destruct Hin as (x & Hx & Hin). now injection Hx as <-.
Qed.

(** X10: [playAudioData] does nothing and its promise is resolved at once when
    the string is empty or the hook has no output context.  Otherwise the
    speaking observer is told [true] first.  Audio that decodes is started
    at once, outside the queue of the session: the cursor and the active set
    are left alone, so that a later [stopSession] does not stop it, and the
    promise is resolved when the source ends.  When the string is not base64
    or the bytes are no 16-bit samples, nothing is started and the promise is
    never settled. *)
Theorem playAudioData_outside_the_queue (w : World) (base64Audio : jsstring) :
  (truthy base64Audio = false \/ outputAudioContext w = false ->
   playAudioData base64Audio w = Val ResolvedAtOnce w) /\
  (forall bytes a,
     reachable w -> outputAudioContext w = true ->
     decode base64Audio = Some bytes ->
     decodeAudioData bytes 24000 1 = Some a ->
     exists w',
       playAudioData base64Audio w = Val (ResolvedOnEnded (nodeCount w)) w' /\
       log w' = log w ++ [OnAssistantSpeakingStateChange true;
                          SourceStart (nodeCount w) 0 a] /\
       sources w' = sources w /\
       nextStartTime w' = nextStartTime w /\
       connectionOf w' = connectionOf w /\
       exists stops,
         log (worldOf (stopSession w')) = log w' ++ stops /\
         ~ In (SourceStop (nodeCount w)) stops) /\
  (truthy base64Audio = true -> outputAudioContext w = true ->
   match decode base64Audio with
   | Some bytes => decodeAudioData bytes 24000 1 = None
   | None => True
   end ->
   playAudioData base64Audio w
   = Val NeverSettled (set_log (log w ++ [OnAssistantSpeakingStateChange true]) w)).
Proof.
  split; [| split].
  - intros Hcase. unfold playAudioData, bind, gets.
    destruct Hcase as [-> | ->]; [reflexivity | now rewrite orb_true_r].
  - intros bytes a Hreach Hctx Hdec Hbuf.
    assert (Htruthy : truthy base64Audio = true).
    { destruct base64Audio; [| reflexivity].
      rewrite decode_empty in Hdec. injection Hdec as <-.
      apply decodeAudioData_nonempty in Hbuf. destruct Hbuf as (b & rest & H).
      discriminate. }
    unfold playAudioData, bind, gets. rewrite Hctx, Htruthy. cbn [negb orb].
    unfold callOnAssistantSpeakingStateChange, emit, modify, ret. rewrite Hdec, Hbuf.
    eexists. split; [reflexivity |]. cbn [log set_log set_nodeCount sources
      nextStartTime connectionOf connectionState sessionPromiseRef live].
    rewrite <- app_assoc. repeat (split; [reflexivity |]).
    eexists. split; [rewrite stopSession_spec; reflexivity |].
    intros Hin. apply stopSession_stops in Hin. cbn [sources set_log set_nodeCount] in Hin.
    destruct (reachable_identifiersFresh Hreach) as [_ Hlt].
    specialize (Hlt _ Hin). lia.
  - intros Htruthy Hctx Hbad. unfold playAudioData, bind, gets.
    rewrite Hctx, Htruthy. cbn [negb orb].
    unfold callOnAssistantSpeakingStateChange, emit, modify, ret.
    destruct (decode base64Audio) as [bytes |]; [| reflexivity].
    now rewrite Hbad.
Qed.

Lemma playAudioData_outside_the_queue_witness :
  exists a w',
    decodeAudioData [0; 64]%Z 24000 1 = Some a /\
    playAudioData (lit "AEA=") speakingWorld
    = Val (ResolvedOnEnded (nodeCount speakingWorld)) w' /\
    log w' = log speakingWorld ++ [OnAssistantSpeakingStateChange true;
                                   SourceStart (nodeCount speakingWorld) 0 a] /\
    sources w' = sources speakingWorld /\
    nextStartTime w' = nextStartTime speakingWorld /\
    connectionOf w' = connectionOf speakingWorld /\
    exists stops,
      log (worldOf (stopSession w')) = log w' ++ stops /\
      ~ In (SourceStop (nodeCount speakingWorld)) stops.
Proof.
  destruct (decodeAudioData [0; 64]%Z 24000 1) as [a |] eqn:Hdec;
    [| vm_compute in Hdec; discriminate].
  exists a.
  destruct (proj1 (proj2 (playAudioData_outside_the_queue speakingWorld (lit "AEA=")))
              [0; 64]%Z a) as (w' & H).
  - exact speakingWorld_reachable.
  - reflexivity.
  - vm_compute; reflexivity.
  - exact Hdec.
  - exists w'. split; [reflexivity | exact H].
Defined.

End PlayAudioData.

(** ** Sequences of events *)

Section Sequences.

Local Open Scope nat_scope.

Lemma run_app (evs1 evs2 : list Event) (w : World) :
  run (evs1 ++ evs2) w
  = match run evs1 w with
    | Some w1 => run evs2 w1
    | None => None
    end.
Proof.
  revert w. induction evs1 as [| ev evs1 IH]; intros w; cbn [app run]; [reflexivity |].
  destruct (step ev w); [apply IH | reflexivity].
Qed.

Lemma sendAudioData_connected (w : World) (c : ConnId) (audioData : list Q) :
  sendsOn c w ->
  sendAudioData audioData w
  = Val tt (set_log (log w ++ [SendRealtimeInput c (createBlob audioData)]) w).
Proof.
  intros [Hst Href]. unfold sendAudioData, bind, gets. rewrite Hst.
  cbn -[createBlob]. now rewrite Href.
Qed.

(** X11: while the hook is rendered as connected, the frames given to
    [sendAudioData] go to the connection it holds, each as one blob, all of
    them and in the order of the calls; nothing else happens. *)
Theorem frames_are_sent_in_order (w : World) (c : ConnId) (frames : list (list Q)) :
  sendsOn c w ->
  run (map CallSendAudioData frames) w
  = Some (set_log (log w ++ map (fun f => SendRealtimeInput c (createBlob f)) frames) w).
Proof.
  revert w. induction frames as [| f frames IH]; intros w Hw; cbn [map run].
  - rewrite app_nil_r. now destruct w.
  - unfold step. cbn [enabled handle]. rewrite (sendAudioData_connected f Hw).
    cbn [worldOf]. rewrite IH by exact Hw. cbn [log set_log].
    rewrite <- app_assoc. now destruct w.
Qed.

Lemma frames_are_sent_in_order_witness :
  run (map CallSendAudioData [[1 # 2]; []; [-(1 # 4); 1]]%Q) connectedWorld
  = Some (set_log (log connectedWorld
                   ++ map (fun f => SendRealtimeInput 0 (createBlob f))
                        [[1 # 2]; []; [-(1 # 4); 1]]%Q) connectedWorld).
Proof.
  apply (@frames_are_sent_in_order connectedWorld 0). split; reflexivity.
Defined.

Lemma liveTranscripts_app l1 l2 :
  liveTranscripts (l1 ++ l2) = liveTranscripts l1 ++ liveTranscripts l2.
Proof. unfold liveTranscripts. apply flat_map_app. Qed.

Lemma onmessage_keeps_service c m t : keeps serviceOf (onmessage c m t).
Proof.
  unfold onmessage, handleAudio, playFragment. unfold_message_handlers. keeps_auto.
Qed.

(** The fragments of a turn, in any interleaving. *)
Lemma fragments_accumulate (c : ConnId) (t : Q) (fs : list Fragment) (w : World) :
  isLive c w = true ->
  exists w1,
    run (fragmentEvents c t fs) w = Some w1 /\
    currentInputTranscription c w1 = currentInputTranscription c w ++ userText fs /\
    currentOutputTranscription c w1
    = currentOutputTranscription c w ++ assistantText fs /\
    turns (log w1) = turns (log w) /\
    liveTranscripts (log w1)
    = liveTranscripts (log w)
      ++ (if onLiveTranscript (props (paramsRef w)) then userFragments fs else []) /\
    live w1 = live w /\ paramsRef w1 = paramsRef w /\
    serviceOf w1 = serviceOf w /\
    opened (log w1) = opened (log w) /\
    log w1 = log w ++ (if onLiveTranscript (props (paramsRef w))
                       then map OnLiveTranscript (userFragments fs) else []).
Proof.
  revert w. induction fs as [| f fs IH]; intros w Hlive.
  - exists w. cbn. rewrite !app_nil_r.
    destruct (onLiveTranscript (props (paramsRef w))); rewrite ?app_nil_r; auto 12.
  - assert (Hm : exists w0,
               onmessage c (fragmentMessage f) t w = Val tt w0 /\
               currentInputTranscription c w0
               = currentInputTranscription c w
                 ++ match f with UserFragment x => x | _ => [] end /\
               currentOutputTranscription c w0
               = currentOutputTranscription c w
                 ++ match f with AssistantFragment x => x | _ => [] end /\
               log w0 = log w ++ (if onLiveTranscript (props (paramsRef w))
                                  then match f with
                                       | UserFragment x => [OnLiveTranscript x]
                                       | _ => []
                                       end
                                  else []) /\
               live w0 = live w /\ paramsRef w0 = paramsRef w).
    { destruct f as [text | text]; cbn [fragmentMessage].
      - destruct (onmessage_inputFragment w c text t) as (w0 & H0 & H1 & H2 & H3 & H4).
        exists w0. rewrite app_nil_r. auto 10.
      - destruct (onmessage_outputFragment w c text t) as (w0 & H0 & H1 & H2 & H3 & H4).
        exists w0. rewrite app_nil_r.
        destruct (onLiveTranscript (props (paramsRef w))); rewrite ?app_nil_r; auto 10. }
    destruct Hm as (w0 & Hrun0 & Hi0 & Ho0 & Hlog0 & Hl0 & Hp0).
    pose proof (onmessage_keeps_service c (fragmentMessage f) t w) as Hs0.
    rewrite Hrun0 in Hs0. cbn [worldOf] in Hs0.
    destruct (IH w0 (@isLive_same _ _ c Hl0 Hlive))
      as (w1 & Hrun1 & Hi1 & Ho1 & Ht1 & Hlt1 & Hl1 & Hp1 & Hs1 & Hop1 & Hlog1).
    exists w1. cbn [fragmentEvents map run].
    rewrite (@step_message _ _ _ _ _ Hlive Hrun0). fold (fragmentEvents c t fs).
    rewrite Hrun1, Hi1, Ho1, Ht1, Hlt1, Hl1, Hp1, Hs1, Hop1, Hi0, Ho0, Hl0, Hs0, Hlog1.
    rewrite Hp0, Hlog0.
    rewrite turns_app, liveTranscripts_app, <- !app_assoc.
    unfold opened at 1. rewrite flat_map_app. fold (opened (log w)).
    cbn [userText assistantText userFragments flat_map].
    repeat split; auto.
    + destruct (onLiveTranscript (props (paramsRef w))), f; cbn; now rewrite ?app_nil_r.
    + destruct (onLiveTranscript (props (paramsRef w))), f; cbn; now rewrite ?app_nil_r.
    + destruct (onLiveTranscript (props (paramsRef w))), f; cbn; now rewrite ?app_nil_r.
    + destruct (onLiveTranscript (props (paramsRef w))), f; cbn; now rewrite ?app_nil_r.
Qed.

(** X12: a turn is what its fragments add up to.  Whatever the number of
    fragments and however those of the user and of the assistant interleave,
    the turn-complete signal delivers one turn: the user's fragments
    concatenated in the order of arrival and trimmed, and the same for the
    assistant's.  Both sides are then empty.  The live-transcript observer,
    if supplied, was given the user's fragments one by one, untrimmed. *)
Theorem turn_is_the_sum_of_its_fragments (w : World) (c : ConnId) (t : Q)
    (fs : list Fragment) :
  isLive c w = true ->
  exists w',
    run (fragmentEvents c t fs ++ [TransportMessage c turnCompleteSignal t]) w
    = Some w' /\
    turns (log w')
    = turns (log w)
      ++ [(trim (currentInputTranscription c w ++ userText fs),
           trim (currentOutputTranscription c w ++ assistantText fs))] /\
    liveTranscripts (log w')
    = liveTranscripts (log w)
      ++ (if onLiveTranscript (props (paramsRef w)) then userFragments fs else []) /\
    currentInputTranscription c w' = [] /\
    currentOutputTranscription c w' = [].
Proof.
  intros Hlive.
  destruct (@fragments_accumulate c t fs w Hlive)
    as (w1 & Hrun1 & Hi1 & Ho1 & Ht1 & Hlt1 & Hl1 & _).
  destruct (onmessage_turnComplete w1 c t) as (w' & Hrun & Hi & Ho & Hlog & _).
  exists w'. rewrite run_app, Hrun1. cbn [run].
  rewrite (@step_message _ _ _ _ _ (@isLive_same _ _ c Hl1 Hlive) Hrun).
  rewrite Hlog, turns_app, liveTranscripts_app, Ht1, Hlt1, Hi1, Ho1.
  cbn [turns liveTranscripts flat_map app]. rewrite !app_nil_r. auto.
Qed.

Lemma turn_is_the_sum_of_its_fragments_witness :
  exists w',
    run (fragmentEvents 0 0%Q
           [UserFragment (lit " How"); AssistantFragment (lit "Fine");
            UserFragment (lit " are you? "); AssistantFragment (lit ", thanks.")]
         ++ [TransportMessage 0 turnCompleteSignal 0%Q]) connectedWorld
    = Some w' /\
    turns (log w') = [(lit "How are you?", lit "Fine, thanks.")] /\
    liveTranscripts (log w') = [lit " How"; lit " are you? "] /\
    currentInputTranscription 0 w' = [] /\
    currentOutputTranscription 0 w' = [].
Proof.
  apply (@turn_is_the_sum_of_its_fragments connectedWorld 0 0%Q
           [UserFragment (lit " How"); AssistantFragment (lit "Fine");
            UserFragment (lit " are you? "); AssistantFragment (lit ", thanks.")]).
  reflexivity.
Defined.

Lemma close_releases (w : World) (c : ConnId) :
  live w = [c] ->
  exists w2,
    step (TransportClose c) w = Some w2 /\
    sessionPromiseRef w2 = None /\ live w2 = [] /\
    connectionState w2 = Disconnected /\
    log w2 = log w /\ paramsRef w2 = paramsRef w /\ serviceOf w2 = serviceOf w.
Proof.
  intros Hlive. unfold step, isLive. cbn [enabled handle]. unfold isLive.
  rewrite Hlive. cbn [existsb]. rewrite Nat.eqb_refl. cbn [orb].
  unfold_hook. cbn. rewrite Hlive. cbn. rewrite Nat.eqb_refl. cbn.
  eexists. split; [reflexivity |]. cbn. auto 10.
Qed.

(** X13: the two sides of a turn belong to the connection.  Fragments that a
    connection received and that no turn-complete signal followed are lost
    when the connection closes: after a new [startSession] the first
    turn-complete signal of the new connection delivers an empty turn, not
    the old fragments. *)
Theorem restart_drops_pending_fragments (w : World) (c : ConnId) (t : Q)
    (fs : list Fragment) :
  reachable w ->
  isLive c w = true ->
  clientAvailable w = true ->
  connectThrows w = None ->
  exists w',
    run (fragmentEvents c t fs
         ++ [TransportClose c; CallStartSession;
             TransportMessage (connCount w) turnCompleteSignal t]) w = Some w' /\
    turns (log w') = turns (log w) ++ [([], [])] /\
    opened (log w') = opened (log w) ++ [connCount w] /\
    sessionPromiseRef w' = Some (connCount w).
Proof.
  intros Hreach Hlive Hclient Hthrows.
  destruct (@fragments_accumulate c t fs w Hlive)
    as (w1 & Hrun1 & _ & _ & Ht1 & _ & Hl1 & Hp1 & Hs1 & Hop1 & _).
  pose proof (@run_reachable _ _ _ Hreach Hrun1) as Hreach1.
  destruct (@isLive_held w1 c (proj1 (reachable_invariant Hreach1))
              (@isLive_same _ _ c Hl1 Hlive)) as [Hlive1 _].
  destruct (@close_releases _ _ Hlive1) as (w2 & Hstep2 & Href2 & Hl2 & _ & Hlog2 & Hp2 & Hs2).
  rewrite Hs1 in Hs2. unfold serviceOf in Hs2. injection Hs2 as Ha2 Hpr2 Hth2 Hcc2.
  assert (Hclient2 : clientAvailable w2 = true)
    by (unfold clientAvailable; now rewrite Ha2, Hpr2).
  destruct (@startSession_opens w2 Href2 Hclient2 (eq_trans Hth2 Hthrows))
    as (w3 & Hrun3 & _ & Href3 & Hl3 & Hlog3 & _ & _ & _ & Hturn3).
  rewrite Hcc2 in *. rewrite Hl2 in Hl3. cbn [app] in Hl3.
  destruct (onmessage_turnComplete w3 (connCount w) t)
    as (w' & Hrun & _ & _ & Hlog & _ & _).
  assert (Hlive3 : isLive (connCount w) w3 = true).
  { unfold isLive. rewrite Hl3. cbn. now rewrite Nat.eqb_refl. }
  exists w'. rewrite run_app, Hrun1. cbn [run]. rewrite Hstep2.
  unfold step at 1. cbn [enabled handle]. rewrite Hrun3. cbn [worldOf].
  rewrite (@step_message _ _ _ _ _ Hlive3 Hrun).
  split; [reflexivity |].
  unfold currentInputTranscription, currentOutputTranscription in Hlog.
  rewrite Hturn3 in Hlog. cbn [fst snd] in Hlog.
  change (trim []) with (@nil N) in Hlog.
  assert (Hsess : sessionPromiseRef w' = sessionPromiseRef w3).
  { pose proof (onmessage_keeps_connection (connCount w) turnCompleteSignal t w3) as Hk.
    rewrite Hrun in Hk. cbn [worldOf] in Hk.
    exact (f_equal (fun x => snd (fst x)) Hk). }
  rewrite Hsess, Href3, Hlog, Hlog3, Hlog2.
  rewrite !turns_app, Ht1. unfold opened at 1. rewrite !flat_map_app.
  fold (opened (log w1)). rewrite Hop1. cbn [turns flat_map app].
  rewrite !app_nil_r. auto.
Qed.

Lemma restart_drops_pending_fragments_witness :
  currentInputTranscription 0 connectedWorld = [] /\
  exists w',
    run (fragmentEvents 0 0%Q [UserFragment (lit "I think"); AssistantFragment (lit "Go on")]
         ++ [TransportClose 0; CallStartSession;
             TransportMessage 1 turnCompleteSignal 0%Q]) connectedWorld = Some w' /\
    turns (log w') = turns (log connectedWorld) ++ [([], [])] /\
    opened (log w') = opened (log connectedWorld) ++ [1] /\
    sessionPromiseRef w' = Some 1.
Proof.
  split; [reflexivity |].
  apply (@restart_drops_pending_fragments connectedWorld 0 0%Q
           [UserFragment (lit "I think"); AssistantFragment (lit "Go on")]).
  - apply (@run_reachable [CallStartSession; Rerender exampleProps; TransportOpen 0;
                           Rerender exampleProps] freshWorld);
      [apply reachable_mount | vm_compute; reflexivity].
  - reflexivity.
  - reflexivity.
  - reflexivity.
Defined.

End Sequences.

(** ** The service functions *)

Section ServiceFacts.

Lemma clientAvailable_getAiInstance (w : World) :
  clientAvailable w = true ->
  getAiInstance w = Val tt (if aiInstance w then w else set_aiInstance true w).
Proof.
  unfold clientAvailable, getAiInstance. destruct (aiInstance w); [reflexivity |].
  cbn [orb]. destruct (process w) as [| | [apiKey |]]; try discriminate.
  now intros ->.
Qed.

Lemma getAiInstance_unavailable (w : World) :
  clientAvailable w = false ->
  exists message, getAiInstance w = Exn (ErrorObject message) w.
Proof.
  unfold clientAvailable, getAiInstance. destruct (aiInstance w); [discriminate |].
  cbn [orb]. destruct (process w) as [| | [apiKey |]]; eauto.
  intros ->. eauto.
Qed.

(** X14: the client is created once.  After a call of [getAiInstance] that
    returned, every later call returns too and changes nothing, whatever has
    become of [process.env] in between; so a session can still be started
    when the key is gone.  A call that throws caches nothing and leaves
    everything as it was. *)
Theorem client_is_created_once (w : World) :
  (clientAvailable w = true ->
   exists w1,
     getAiInstance w = Val tt w1 /\
     forall env,
       getAiInstance (withProcess env w1) = Val tt (withProcess env w1) /\
       (sessionPromiseRef w = None -> connectThrows w = None ->
        exists w2,
          startSession (withProcess env w1) = Val tt w2 /\
          connectionState w2 = Connecting /\
          sessionPromiseRef w2 = Some (connCount w))) /\
  (clientAvailable w = false ->
   exists message, getAiInstance w = Exn (ErrorObject message) w /\ aiInstance w = false).
Proof.
  split; intros Hclient.
  - rewrite (clientAvailable_getAiInstance _ Hclient). eexists. split; [reflexivity |].
    intros env.
    assert (Hcached : aiInstance (withProcess env
                        (if aiInstance w then w else set_aiInstance true w)) = true)
      by (destruct (aiInstance w) eqn:Ha; cbn; auto).
    split.
    + unfold getAiInstance. now rewrite Hcached.
    + intros Href Hthrows.
      destruct (@startSession_opens
                  (withProcess env (if aiInstance w then w else set_aiInstance true w)))
        as (w2 & Hrun & Hst & Hr & _).
      * destruct (aiInstance w); exact Href.
      * unfold clientAvailable. now rewrite Hcached.
      * destruct (aiInstance w); exact Hthrows.
      * exists w2. rewrite Hrun, Hst, Hr. destruct (aiInstance w); auto.
  - destruct (getAiInstance_unavailable _ Hclient) as (message & Hrun).
    exists message. split; [exact Hrun |].
    unfold clientAvailable in Hclient. now destruct (aiInstance w).
Qed.

Lemma client_is_created_once_witness :
  (exists w1,
     getAiInstance freshWorld = Val tt w1 /\
     forall env,
       getAiInstance (withProcess env w1) = Val tt (withProcess env w1) /\
       (sessionPromiseRef freshWorld = None -> connectThrows freshWorld = None ->
        exists w2,
          startSession (withProcess env w1) = Val tt w2 /\
          connectionState w2 = Connecting /\
          sessionPromiseRef w2 = Some (connCount freshWorld))) /\
  (exists message,
     getAiInstance keylessWorld = Exn (ErrorObject message) keylessWorld /\
     aiInstance keylessWorld = false).
Proof.
  split.
  - apply (proj1 (client_is_created_once freshWorld)). reflexivity.
  - apply (proj2 (client_is_created_once keylessWorld)). reflexivity.
Defined.

(** X15: where [process] is not defined, the check of [typeof process] comes
    too late: [getAiInstance] has already thrown a ReferenceError.  That
    error does not mention the key, so [startSession] ends in [Error] without
    calling the credential observer, and [textToSpeech] reports a failure of
    the request, not a missing key. *)
Theorem undefined_process_is_not_reported_as_a_missing_key (w : World) :
  aiInstance w = false ->
  process w = ProcessUndefined ->
  exists e,
    getAiInstance w = Exn e w /\
    includesApiKey e = false /\
    (sessionPromiseRef w = None ->
     exists w',
       startSession w = Val tt w' /\
       connectionState w' = Error /\
       log w' = log w ++ [ConsoleError (lit "Failed to initialize Gemini Live session:")]) /\
    forall outcome,
      textToSpeech outcome true w
      = Exn (ErrorObject
               (lit "Failed to generate audio for the AI's response. Please check your connection."))
            (set_log (log w ++ [ConsoleError (lit "Error in textToSpeech:")]) w).
Proof.
  intros Hcache Hprocess.
  assert (Hget : forall w0, aiInstance w0 = false -> process w0 = ProcessUndefined ->
                 getAiInstance w0 = Exn (ErrorObject (lit "process is not defined")) w0).
  { intros w0 H1 H2. unfold getAiInstance. now rewrite H1, H2. }
  exists (ErrorObject (lit "process is not defined")).
  split; [now apply Hget |]. split; [vm_compute; reflexivity |]. split.
  - intros Href.
    assert (Hexn : openConnection (set_connectionState Connecting w)
                   = Exn (ErrorObject (lit "process is not defined"))
                         (set_connectionState Connecting w)).
    { unfold openConnection, bind. now rewrite Hget. }
    destruct (@startSession_caught w _ _ Href Hexn) as (w' & Hrun & Hst & _ & _ & Hlog & _).
    exists w'. split; [exact Hrun |]. split; [exact Hst |].
    rewrite Hlog. reflexivity.
  - intros outcome. unfold textToSpeech, tryCatch, bind. rewrite Hget by assumption.
    reflexivity.
Qed.

Lemma undefined_process_is_not_reported_as_a_missing_key_witness :
  exists e,
    getAiInstance (mount exampleProps false ProcessUndefined None)
    = Exn e (mount exampleProps false ProcessUndefined None) /\
    includesApiKey e = false /\
    (sessionPromiseRef (mount exampleProps false ProcessUndefined None) = None ->
     exists w',
       startSession (mount exampleProps false ProcessUndefined None) = Val tt w' /\
       connectionState w' = Error /\
       log w' = log (mount exampleProps false ProcessUndefined None)
                ++ [ConsoleError (lit "Failed to initialize Gemini Live session:")]) /\
    forall outcome,
      textToSpeech outcome true (mount exampleProps false ProcessUndefined None)
      = Exn (ErrorObject
               (lit "Failed to generate audio for the AI's response. Please check your connection."))
            (set_log (log (mount exampleProps false ProcessUndefined None)
                      ++ [ConsoleError (lit "Error in textToSpeech:")])
               (mount exampleProps false ProcessUndefined None)).
Proof.
  apply (@undefined_process_is_not_reported_as_a_missing_key
           (mount exampleProps false ProcessUndefined None)); reflexivity.
Defined.

Lemma handleGeminiError_throws {A} (error : Thrown) (context : jsstring)
    (onLine : bool) (w : World) :
  @handleGeminiError A error context onLine w
  = Exn (ErrorObject (if negb onLine then offlineMessage
                      else if includesApiKey error then apiKeyUserMessage
                      else switchContext context contextMessages))
        (set_log (log w ++ [ConsoleError (lit "Error in " ++ context ++ lit ":")]) w).
Proof.
  unfold handleGeminiError, bind, emit, modify, throw.
  destruct (negb onLine); [reflexivity |]. now destruct (includesApiKey error).
Qed.

(** X16: [textToSpeech] returns the audio that the model answered with, as
    it is, whenever the client is available and the answer has audio; it
    never returns an empty string.  In every other case it logs the cause
    and throws an error made for the user: when the browser is offline the
    error says so, whatever went wrong; online, a missing API key (or an
    error of the request that mentions the key) is reported as such, and a
    response without audio or any other error of the request as a failure to
    generate audio. *)
Theorem textToSpeech_answers_or_explains (onLine : bool) (w : World) :
  let failsWith message w1 :=
    Exn (ErrorObject message)
        (set_log (log w1 ++ [ConsoleError (lit "Error in textToSpeech:")]) w1) in
  let audioFailure :=
    lit "Failed to generate audio for the AI's response. Please check your connection." in
  (clientAvailable w = true ->
   exists w1,
     getAiInstance w = Val tt w1 /\ log w1 = log w /\
     (forall c audio,
        textToSpeech (Responds (Some (c :: audio))) onLine w = Val (c :: audio) w1) /\
     (forall outcome,
        outcome = Responds None \/ outcome = Responds (Some []) ->
        textToSpeech outcome onLine w
        = failsWith (if onLine then audioFailure else offlineMessage) w1) /\
     (forall e,
        textToSpeech (Throws e) onLine w
        = failsWith (if onLine
                     then if includesApiKey e then apiKeyUserMessage else audioFailure
                     else offlineMessage) w1)) /\
  (apiKeyUnset w = true ->
   forall outcome,
     textToSpeech outcome onLine w
     = failsWith (if onLine then apiKeyUserMessage else offlineMessage) w) /\
  (forall outcome s w', textToSpeech outcome onLine w = Val s w' -> truthy s = true).
Proof.
  cbv zeta.
  assert (Hthrow : forall e w1,
             @handleGeminiError jsstring e (lit "textToSpeech") onLine w1
             = Exn (ErrorObject
                      (if onLine
                       then if includesApiKey e then apiKeyUserMessage
                            else lit "Failed to generate audio for the AI's response. Please check your connection."
                       else offlineMessage))
                   (set_log (log w1 ++ [ConsoleError (lit "Error in textToSpeech:")]) w1)).
  { intros e w1. rewrite handleGeminiError_throws. now destruct onLine. }
  split; [| split].
  - intros Hclient. exists (if aiInstance w then w else set_aiInstance true w).
    split; [now apply clientAvailable_getAiInstance |].
    split; [now destruct (aiInstance w) |].
    unfold textToSpeech, tryCatch, bind.
    rewrite (clientAvailable_getAiInstance _ Hclient).
    split; [reflexivity |]. split.
    + intros outcome [-> | ->]; unfold throw; rewrite Hthrow; now destruct onLine.
    + intros e. unfold throw. now rewrite Hthrow.
  - intros Hunset outcome.
    assert (Hget : getAiInstance w = Exn (ErrorObject apiKeyMessage) w).
    { unfold apiKeyUnset in Hunset. unfold getAiInstance.
      destruct (aiInstance w); [discriminate |].
      destruct (process w) as [| | [apiKey |]]; try discriminate; try reflexivity.
      cbn in Hunset. destruct (truthy apiKey); [discriminate | reflexivity]. }
    unfold textToSpeech, tryCatch, bind. rewrite Hget, Hthrow.
    assert (Hkey : includesApiKey (ErrorObject apiKeyMessage) = true)
      by (vm_compute; reflexivity).
    now rewrite Hkey.
  - intros outcome s w'. unfold textToSpeech, tryCatch, bind.
    destruct (getAiInstance w) as [[] w1 | e w1]; [| now rewrite Hthrow].
    destruct outcome as [e0 | [[| c audio] |]]; unfold throw, ret; rewrite ?Hthrow;
      try discriminate.
    intros H. now injection H as <- <-.
Qed.

Lemma textToSpeech_answers_or_explains_witness :
  (exists w1,
     getAiInstance freshWorld = Val tt w1 /\ log w1 = log freshWorld /\
     textToSpeech (Responds (Some (lit "AEA="))) true freshWorld = Val (lit "AEA=") w1 /\
     textToSpeech (Responds None) true freshWorld
     = Exn (ErrorObject
              (lit "Failed to generate audio for the AI's response. Please check your connection."))
           (set_log (log w1 ++ [ConsoleError (lit "Error in textToSpeech:")]) w1)) /\
  textToSpeech (Responds (Some (lit "AEA="))) true keylessWorld
  = Exn (ErrorObject apiKeyUserMessage)
        (set_log (log keylessWorld ++ [ConsoleError (lit "Error in textToSpeech:")])
           keylessWorld).
Proof.
  split.
  - destruct (proj1 (textToSpeech_answers_or_explains true freshWorld) eq_refl)
      as (w1 & Hget & Hlog & Hval & Hnone & _).
    exists w1. split; [exact Hget |]. split; [exact Hlog |].
    split; [exact (Hval _ _) |]. exact (Hnone (Responds None) (or_introl eq_refl)).
  - exact (proj1 (proj2 (textToSpeech_answers_or_explains true keylessWorld)) eq_refl
             (Responds (Some (lit "AEA=")))).
Defined.

(** X17: [generateGhostModePrompt] never throws and always returns a trimmed
    string.  When the client is available and the model answers with a text,
    the result is that text trimmed and nothing is logged; when the answer
    has no text the result is the empty string; when the request throws, or
    there is no client, the error is logged and the result is the empty
    string. *)
Theorem generateGhostModePrompt_fails_silently (w : World) :
  let logged w1 :=
    set_log (log w1 ++ [ConsoleError (lit "Error generating Ghost Mode prompt:")]) w1 in
  (clientAvailable w = true ->
   exists w1,
     getAiInstance w = Val tt w1 /\ log w1 = log w /\
     (forall text,
        generateGhostModePrompt (Responds (Some text)) w = Val (trim text) w1) /\
     generateGhostModePrompt (Responds None) w = Val [] w1 /\
     (forall e, generateGhostModePrompt (Throws e) w = Val [] (logged w1))) /\
  (clientAvailable w = false ->
   forall outcome, generateGhostModePrompt outcome w = Val [] (logged w)) /\
  (forall outcome, exists s w',
     generateGhostModePrompt outcome w = Val s w' /\ trimmed s).
Proof.
  cbv zeta.
  assert (Hempty : trimmed []) by (split; exact I).
  assert (Havail : clientAvailable w = true ->
                   forall outcome,
                     generateGhostModePrompt outcome w
                     = match outcome with
                       | Throws e =>
                           Val [] (set_log
                                     (log (if aiInstance w then w else set_aiInstance true w)
                                      ++ [ConsoleError
                                            (lit "Error generating Ghost Mode prompt:")])
                                     (if aiInstance w then w else set_aiInstance true w))
                       | Responds (Some text) =>
                           Val (trim text) (if aiInstance w then w else set_aiInstance true w)
                       | Responds None =>
                           Val [] (if aiInstance w then w else set_aiInstance true w)
                       end).
  { intros Hclient outcome. unfold generateGhostModePrompt, tryCatch, bind.
    rewrite (clientAvailable_getAiInstance _ Hclient).
    now destruct outcome as [e0 | [[| c text] |]]. }
  assert (Hnone : clientAvailable w = false ->
                  forall outcome,
                    generateGhostModePrompt outcome w
                    = Val [] (set_log
                                (log w ++ [ConsoleError
                                             (lit "Error generating Ghost Mode prompt:")])
                                w)).
  { intros Hclient outcome. unfold generateGhostModePrompt, tryCatch, bind.
    destruct (getAiInstance_unavailable _ Hclient) as (message & ->). reflexivity. }
  split; [| split].
  - intros Hclient. exists (if aiInstance w then w else set_aiInstance true w).
    split; [now apply clientAvailable_getAiInstance |].
    split; [now destruct (aiInstance w) |].
    split; [intros text; exact (Havail Hclient (Responds (Some text))) |].
    split; [exact (Havail Hclient (Responds None)) |].
    intros e. exact (Havail Hclient (Throws e)).
  - exact Hnone.
  - intros outcome. destruct (clientAvailable w) eqn:Hclient.
    + rewrite (Havail eq_refl). destruct outcome as [e0 | [text |]]; eexists _, _;
        (split; [reflexivity |]); auto using trim_trimmed.
    + rewrite (Hnone eq_refl). eauto.
Qed.

Lemma generateGhostModePrompt_fails_silently_witness :
  (exists w1,
     getAiInstance freshWorld = Val tt w1 /\ log w1 = log freshWorld /\
     generateGhostModePrompt (Responds (Some (lit " Give an example. "))) freshWorld
     = Val (lit "Give an example.") w1) /\
  generateGhostModePrompt (Responds (Some (lit " Give an example. "))) keylessWorld
  = Val [] (set_log (log keylessWorld
                     ++ [ConsoleError (lit "Error generating Ghost Mode prompt:")])
              keylessWorld).
Proof.
  split.
  - destruct (proj1 (generateGhostModePrompt_fails_silently freshWorld) eq_refl)
      as (w1 & Hget & Hlog & Htext & _).
    exists w1. split; [exact Hget |]. split; [exact Hlog |].
    exact (Htext (lit " Give an example. ")).
  - exact (proj1 (proj2 (generateGhostModePrompt_fails_silently keylessWorld)) eq_refl
             (Responds (Some (lit " Give an example. ")))).
Defined.

End ServiceFacts.

(** ** The screens and the hook *)

Section ScreenFacts.

Lemma run_from_mount_trimmed (p : Props) (cached : bool) (env : ProcessEnv)
    (failure : option Thrown) (evs : list Event) (w : World) :
  run evs (mount p cached env failure) = Some w -> Forall turnIsTrimmed (log w).
Proof.
  intros Hrun.
  destruct (@run_emitsOnly turnIsTrimmed (fun _ => True)
              (fun ev w _ _ => conj I (handle_emits_trimmed ev w)) evs _ _ I Hrun)
    as (_ & l & Hl & HP).
  cbn in Hl. now subst l.
Qed.

Lemma sessionAfter_messages (l : list Effect) (s : SessionScreen) :
  Session.messages (session (sessionAfter l s))
  = Session.messages (session s) ++ flat_map turnMessages (turns l).
Proof.
  unfold sessionAfter. revert s. induction l as [| e l IH]; intros s; cbn [fold_left].
  - cbn. now rewrite app_nil_r.
  - rewrite IH. destruct e; cbn [sessionObserves turns flat_map app session];
      try reflexivity.
    unfold Session.handleTurnComplete, turnMessages. cbn [fst snd].
    destruct (truthy user), (truthy assistant); cbn [negb andb Session.messages app];
      rewrite <- ?app_assoc, ?app_nil_r; reflexivity.
Qed.

Lemma trimmed_truthy_has_text (s : jsstring) :
  truthy s = true -> s <> [].
Proof. now destruct s. Qed.

(** X18: the transcript of the session screen is made of the turns that the
    hook delivered, in their order: for each turn the user's text, then the
    assistant's, a side that is empty being left out.  So no message of the
    transcript is empty, and none begins or ends with white space. *)
Theorem session_transcript_follows_the_turns (p : Props) (cached : bool)
    (env : ProcessEnv) (failure : option Thrown) (evs : list Event) (w : World)
    (s : SessionScreen) :
  run evs (mount p cached env failure) = Some w ->
  Session.messages (session (sessionAfter (log w) s))
  = Session.messages (session s) ++ flat_map turnMessages (turns (log w)) /\
  Forall (fun m => Session.content m <> [] /\ trimmed (Session.content m))
         (flat_map turnMessages (turns (log w))).
Proof.
  intros Hrun. split; [apply sessionAfter_messages |].
  pose proof (run_from_mount_trimmed _ _ _ _ _ Hrun) as Htrim.
  apply Forall_forall. intros m Hin. apply in_flat_map in Hin.
  destruct Hin as ([u a] & Hturn & Hin).
  destruct (@turns_trimmed _ _ _ Htrim Hturn) as [Hu Ha].
  unfold turnMessages in Hin. cbn [fst snd] in Hin. apply in_app_or in Hin.
  destruct Hin as [Hin | Hin].
  - destruct (truthy u) eqn:Ht; [| destruct Hin]. destruct Hin as [<- | []].
    cbn. split; [now apply trimmed_truthy_has_text | exact Hu].
  - destruct (truthy a) eqn:Ht; [| destruct Hin]. destruct Hin as [<- | []].
    cbn. split; [now apply trimmed_truthy_has_text | exact Ha].
Qed.

Lemma session_transcript_follows_the_turns_witness :
  exists w,
    run [CallStartSession; TransportOpen 0%nat;
         TransportMessage 0%nat (inputFragment (lit " Hello ")) 0;
         TransportMessage 0%nat turnCompleteSignal 0;
         TransportMessage 0%nat turnCompleteSignal 0;
         TransportMessage 0%nat (outputFragment (lit "Hi there.")) 0;
         TransportMessage 0%nat turnCompleteSignal 0] freshWorld = Some w /\
    turns (log w) = [(lit "Hello", []); ([], []); ([], lit "Hi there.")] /\
    forall s,
      Session.messages (session (sessionAfter (log w) s))
      = Session.messages (session s) ++ flat_map turnMessages (turns (log w)) /\
      Forall (fun m => Session.content m <> [] /\ trimmed (Session.content m))
             (flat_map turnMessages (turns (log w))).
Proof.
  eexists. split; [vm_compute; reflexivity |]. split; [vm_compute; reflexivity |].
  intros s.
  apply (@session_transcript_follows_the_turns exampleProps false
           (EnvDefined (Some (lit "key"))) None
           [CallStartSession; TransportOpen 0%nat;
            TransportMessage 0%nat (inputFragment (lit " Hello ")) 0;
            TransportMessage 0%nat turnCompleteSignal 0;
            TransportMessage 0%nat turnCompleteSignal 0;
            TransportMessage 0%nat (outputFragment (lit "Hi there.")) 0;
            TransportMessage 0%nat turnCompleteSignal 0]).
  vm_compute; reflexivity.
Defined.

Lemma drillAfter_spoken (l : list Effect) (finalTranscript : jsstring) :
  drillAfter (map DrillObserves l) finalTranscript
  = finalTranscript ++ flat_map (fun u => u ++ lit " ") (spoken l).
Proof.
  unfold drillAfter, spoken. revert finalTranscript.
  induction l as [| e l IH]; intros ft; cbn [map fold_left].
  - cbn. now rewrite app_nil_r.
  - rewrite IH. destruct e; cbn [drillStep turns flat_map map app filter];
      try reflexivity.
    unfold drillHandleTurnComplete. cbn [fst].
    destruct (truthy user); cbn [flat_map]; [now rewrite <- app_assoc | reflexivity].
Qed.

(** A start forgets what came before it. *)
Lemma drillAfter_start (hist rest : list DrillEvent) (finalTranscript : jsstring) :
  drillAfter (hist ++ DrillStart true :: rest) finalTranscript = drillAfter rest [].
Proof. unfold drillAfter. now rewrite fold_left_app. Qed.

Lemma noLeadingWhiteSpace_app (s rest : jsstring) :
  s <> [] -> noLeadingWhiteSpace s -> noLeadingWhiteSpace (s ++ rest).
Proof. destruct s; [easy | now cbn]. Qed.

Lemma noTrailingWhiteSpace_app (pre s : jsstring) :
  s <> [] -> noTrailingWhiteSpace s -> noTrailingWhiteSpace (pre ++ s).
Proof.
  unfold noTrailingWhiteSpace. intros Hs Ht. rewrite rev_app_distr.
  apply noLeadingWhiteSpace_app; [| exact Ht].
  intros Hrev. apply Hs. apply (f_equal (@rev N)) in Hrev.
  now rewrite rev_involutive in Hrev.
Qed.

Lemma joinWithSpaces_cons (u : jsstring) (us : list jsstring) :
  joinWithSpaces (u :: us)
  = u ++ match us with [] => [] | _ :: _ => lit " " ++ joinWithSpaces us end.
Proof. destruct us; cbn [joinWithSpaces]; [now rewrite app_nil_r | reflexivity]. Qed.

Lemma joinWithSpaces_trimmed (us : list jsstring) :
  Forall (fun u => u <> [] /\ trimmed u) us -> us <> [] ->
  joinWithSpaces us <> [] /\ trimmed (joinWithSpaces us).
Proof.
  induction 1 as [| u us [Hu [Hlead Htrail]] Hus IH]; [easy |]. intros _.
  rewrite joinWithSpaces_cons. split; [| split].
  - destruct u; [easy | discriminate].
  - now apply noLeadingWhiteSpace_app.
  - destruct us as [| u' us'].
    + now rewrite app_nil_r.
    + destruct IH as [Hne [_ Ht]]; [discriminate |].
      rewrite app_assoc. now apply noTrailingWhiteSpace_app.
Qed.

Lemma spaced_join (us : list jsstring) :
  us <> [] ->
  flat_map (fun u => u ++ lit " ") us = joinWithSpaces us ++ lit " ".
Proof.
  induction us as [| u us IH]; [easy |]. intros _. cbn [flat_map].
  rewrite joinWithSpaces_cons. destruct us as [| u' us'].
  - cbn [flat_map]. now rewrite !app_nil_r.
  - rewrite IH by discriminate. now rewrite <- !app_assoc.
Qed.

Lemma trim_spaced (s : jsstring) : trimmed s -> trim (s ++ lit " ") = s.
Proof.
  intros [Hlead Htrail]. unfold trim.
  destruct s as [| c s].
  - reflexivity.
  - rewrite trimStart_fixed by (now apply noLeadingWhiteSpace_app).
    unfold trimEnd. rewrite rev_app_distr.
    change (rev (lit " ")) with [32%N]. cbn [app trimStart].
    change (isWhiteSpace 32) with true. cbv iota.
    rewrite trimStart_fixed by exact Htrail. apply rev_involutive.
Qed.

(** X19: the transcript that the drill screen reads when it stops an
    attempt is what the user said in the turns that the hook delivered since
    the attempt was started, the empty turns left out, joined by single
    spaces, with no space at either end: [handleStart] empties the
    transcript, so that neither an earlier attempt nor a turn delivered
    before the start counts.  The screen reports that no speech was detected
    exactly when every turn since the start had an empty user side. *)
Theorem drill_transcript_joins_the_turns (hist : list DrillEvent)
    (finalTranscript : jsstring) (evs : list Event) (w1 w : World)
    (since : list Effect) :
  run evs w1 = Some w ->
  log w = log w1 ++ since ->
  let transcript :=
    drillTranscript
      (drillAfter (hist ++ DrillStart true :: map DrillObserves since) finalTranscript) in
  transcript = joinWithSpaces (spoken since) /\
  (truthy transcript = false <-> Forall (fun turn => fst turn = []) (turns since)).
Proof.
  intros Hrun Hlog. cbv zeta. rewrite drillAfter_start.
  assert (Htrim : Forall turnIsTrimmed since).
  { destruct (@run_emitsOnly turnIsTrimmed (fun _ => True)
                (fun ev w _ _ => conj I (handle_emits_trimmed ev w)) evs _ _ I Hrun)
      as (_ & l & Hl & HP).
    rewrite Hlog in Hl. apply app_inv_head in Hl. now subst l. }
  assert (Hspoken : Forall (fun u => u <> [] /\ trimmed u) (spoken since)).
  { apply Forall_forall. intros u Hin. unfold spoken in Hin.
    apply filter_In in Hin. destruct Hin as [Hin Ht].
    apply in_map_iff in Hin. destruct Hin as ([u' a] & Heq & Hin). cbn in Heq. subst u'.
    split; [now apply trimmed_truthy_has_text |].
    exact (proj1 (@turns_trimmed _ _ _ Htrim Hin)). }
  assert (Hjoin : drillTranscript (drillAfter (map DrillObserves since) [])
                  = joinWithSpaces (spoken since)).
  { unfold drillTranscript. rewrite drillAfter_spoken. cbn [app].
    destruct (spoken since) as [| u us] eqn:Hs; [reflexivity |].
    rewrite spaced_join by discriminate.
    apply trim_spaced. now apply joinWithSpaces_trimmed. }
  split; [exact Hjoin |]. rewrite Hjoin. split.
  - intros Hfalse.
    assert (Hnone : spoken since = []).
    { destruct (spoken since) as [| u us] eqn:Hs; [reflexivity |].
      destruct (@joinWithSpaces_trimmed (u :: us) Hspoken) as [Hne _]; [discriminate |].
      destruct (joinWithSpaces (u :: us)); [now destruct Hne | discriminate]. }
    apply Forall_forall. intros [u a] Hin. cbn [fst].
    destruct u as [| c u]; [reflexivity |].
    assert (Hin' : In (c :: u) (spoken since)).
    { unfold spoken. apply filter_In. split; [| reflexivity].
      apply in_map_iff. now exists (c :: u, a). }
    rewrite Hnone in Hin'. destruct Hin'.
  - intros Hall.
    assert (Hnone : spoken since = []).
    { unfold spoken. rewrite Forall_forall in Hall.
      induction (turns since) as [| [u a] l IH]; [reflexivity |].
      pose proof (Hall (u, a) (or_introl eq_refl)) as Hu. cbn [fst] in Hu. subst u.
      cbn [map filter fst truthy].
      apply IH. intros x Hx. apply Hall. now right. }
    now rewrite Hnone.
Qed.

Lemma drill_transcript_joins_the_turns_witness :
  spoken (log firstAttemptWorld) = [lit "first try"] /\
  drillTranscript
    (drillAfter ((DrillStart true :: map DrillObserves (log firstAttemptWorld))
                 ++ DrillStart true :: map DrillObserves secondAttemptEffects) [])
  = lit "second try".
Proof.
  split; [vm_compute; reflexivity |].
  assert (Hrun : run secondAttempt firstAttemptWorld = Some secondAttemptWorld)
    by (vm_compute; reflexivity).
  assert (Hlog : log secondAttemptWorld = log firstAttemptWorld ++ secondAttemptEffects)
    by (vm_compute; reflexivity).
  destruct (@drill_transcript_joins_the_turns
              (DrillStart true :: map DrillObserves (log firstAttemptWorld)) []
              secondAttempt firstAttemptWorld secondAttemptWorld secondAttemptEffects
              Hrun Hlog) as [Hjoin _].
  rewrite Hjoin. vm_compute; reflexivity.
Defined.

Lemma sessionAfter_app (l1 l2 : list Effect) (s : SessionScreen) :
  sessionAfter (l1 ++ l2) s = sessionAfter l2 (sessionAfter l1 s).
Proof. unfold sessionAfter. apply fold_left_app. Qed.

Lemma sessionAfter_fragments (fs : list Fragment) (s : SessionScreen) :
  Session.currentUserUtterance
    (session (sessionAfter (map OnLiveTranscript (userFragments fs)) s))
  = Session.currentUserUtterance (session s) ++ userText fs.
Proof.
  revert s. induction fs as [| f fs IH]; intros s.
  - cbn. now rewrite app_nil_r.
  - destruct f as [text | text]; cbn [userFragments userText flat_map app map].
    + change (sessionAfter (OnLiveTranscript text :: ?l) s)
        with (sessionAfter l (sessionObserves (OnLiveTranscript text) s)).
      fold (userFragments fs). fold (userText fs). rewrite IH. cbn.
      now rewrite <- app_assoc.
    + apply IH.
Qed.

(** X20: the utterance in progress that the session screen shows is what
    the hook has gathered for the user's side: each fragment of the user is
    added to it as it arrives, untrimmed.  The turn-complete signal clears
    it when the turn it delivers has text on either side; when the turn is
    empty the screen keeps the utterance, although the hook has emptied its
    own. *)
Theorem utterance_in_progress (w : World) (c : ConnId) (t : Q) (fs : list Fragment)
    (s : SessionScreen) :
  isLive c w = true ->
  onLiveTranscript (props (paramsRef w)) = true ->
  exists w1 w2,
    run (fragmentEvents c t fs) w = Some w1 /\
    step (TransportMessage c turnCompleteSignal t) w1 = Some w2 /\
    Session.currentUserUtterance (session (sessionAfter (log w1) s))
    = Session.currentUserUtterance (session (sessionAfter (log w) s)) ++ userText fs /\
    currentInputTranscription c w1 = currentInputTranscription c w ++ userText fs /\
    Session.currentUserUtterance (session (sessionAfter (log w2) s))
    = (if truthy (trim (currentInputTranscription c w ++ userText fs))
          || truthy (trim (currentOutputTranscription c w ++ assistantText fs))
       then []
       else Session.currentUserUtterance (session (sessionAfter (log w1) s))) /\
    currentInputTranscription c w2 = [].
Proof.
  intros Hlive Hobs.
  destruct (@fragments_accumulate c t fs w Hlive)
    as (w1 & Hrun1 & Hi1 & Ho1 & _ & _ & Hl1 & _ & _ & _ & Hlog1).
  destruct (onmessage_turnComplete w1 c t) as (w2 & Hrun2 & Hi2 & _ & Hlog2 & _).
  exists w1, w2. rewrite Hobs in Hlog1.
  split; [exact Hrun1 |].
  split; [exact (@step_message _ _ _ _ _ (@isLive_same _ _ c Hl1 Hlive) Hrun2) |].
  split; [rewrite Hlog1, sessionAfter_app; apply sessionAfter_fragments |].
  split; [exact Hi1 |]. split; [| exact Hi2].
  rewrite Hlog2, sessionAfter_app, Hi1, Ho1.
  change (sessionAfter [?e] ?s0) with (sessionObserves e s0).
  cbn [sessionObserves session]. unfold Session.handleTurnComplete.
  destruct (truthy (trim (currentInputTranscription c w ++ userText fs)));
    destruct (truthy (trim (currentOutputTranscription c w ++ assistantText fs)));
    reflexivity.
Qed.

Lemma utterance_in_progress_witness :
  exists w1 w2,
    run (fragmentEvents 0%nat 0 [UserFragment (lit " "); UserFragment (lit " ")])
        connectedWorld = Some w1 /\
    step (TransportMessage 0%nat turnCompleteSignal 0) w1 = Some w2 /\
    turns (log w2) = [([], [])] /\
    Session.currentUserUtterance
      (session (sessionAfter (log w2)
                  {| session := {| Session.messages := [];
                                   Session.currentUserUtterance := [] |};
                     isAssistantSpeaking := false |}))
    = lit "  " /\
    currentInputTranscription 0%nat w2 = [].
Proof.
  destruct (@utterance_in_progress connectedWorld 0%nat 0
              [UserFragment (lit " "); UserFragment (lit " ")]
              {| session := {| Session.messages := [];
                               Session.currentUserUtterance := [] |};
                 isAssistantSpeaking := false |})
    as (w1 & w2 & Hrun & Hstep & Hu1 & _ & Hu2 & Hi2); [reflexivity | reflexivity |].
  exists w1, w2. split; [exact Hrun |]. split; [exact Hstep |].
  assert (Hw2 : run (fragmentEvents 0%nat 0 [UserFragment (lit " "); UserFragment (lit " ")]
                     ++ [TransportMessage 0%nat turnCompleteSignal 0]) connectedWorld
                = Some w2) by (rewrite run_app, Hrun; cbn [run]; now rewrite Hstep).
  vm_compute in Hw2. injection Hw2 as <-.
  split; [vm_compute; reflexivity |]. split; [vm_compute; reflexivity | reflexivity].
Defined.

End ScreenFacts.
